(** * Booyah chips: the task-node lifecycle engine (module [chip] of [src/])

    A shallow embedding of the TypeScript chip tree ([ChipBase], [Composite]
    and the composite variants) as an executable interpreter over an explicit
    object store, followed by the properties of the natural-language
    specification that were checked against it.

    Modelling conventions.
    - Every JavaScript object with identity (chips, context objects, queue
      items) lives in a store and is referred to by its location; aliasing is
      therefore the aliasing of the source.
    - A method is a state transformer in the monad [M]; a [throw] keeps the
      store as it was at the point of the throw, as a JavaScript exception does.
    - Virtual method calls that may re-enter the tree ([activate], [tick],
      [terminate], [pause], [resume], listener callbacks) go through [call],
      whose nesting is bounded by fuel; the runs of the theorems are stated
      for every amount of fuel above an explicit bound.
    - The numbers the module computes with (the time of a tick, the duration
      of a [Wait]) are the binary64 values of JavaScript, [float] with its
      IEEE 754 addition and comparison; the numbers that are only carried
      along (the size of the document, numbers stored in a context) are
      integers.
    - A plain object is the list of its own properties in enumeration order;
      the [in] operator also sees what [Object.prototype] provides.
    - Where JavaScript goes on with a value that the types of the model
      cannot hold (a member of the class read as a dynamically named
      attribute, the context object used as a signal), the run ends in
      [Unmodelled]: nothing is stated about such runs. *)

From Stdlib Require Import Floats.PrimFloat Floats.SpecFloat Floats.FloatOps
  Floats.FloatAxioms.
From Stdlib Require Import ZArith String Ascii List Bool Lia.
From stdpp Require Import base option list gmap strings.

Open Scope string_scope.
Open Scope list_scope.
Open Scope Z_scope.

#[local] Transparent gmap_empty.
Set Warnings "-register-all".

(** ** JavaScript values and plain objects *)

Abbreviation loc := nat.      (* identity of a chip object *)
Abbreviation ctxloc := nat.   (* identity of a context object *)
Abbreviation itemloc := nat.  (* identity of a queue item object *)

(** The values stored in contexts and signal parameters ([any]). *)
Inductive any :=
| AUndefined
| ABool (b : bool)
| ANum (z : Z)
| AStr (s : string)
| AChip (chip : loc).

(** JavaScript truthiness of an optional string: [undefined] and [""] are
    falsy. *)
Definition truthy_str (s : option string) : bool :=
  match s with
  | Some EmptyString => false
  | Some _ => true
  | None => false
  end.

Definition endsWith (s suffix : string) : bool :=
  let n := String.length s in
  let k := String.length suffix in
  (k <=? n)%nat && String.eqb (substring (n - k) k s) suffix.

(** [s.slice(0, s.length - 2)] *)
Definition slice_off_2 (s : string) : string :=
  substring 0 (String.length s - 2) s.

Definition digit (n : nat) : string :=
  match n with
  | 0%nat => "0" | 1%nat => "1" | 2%nat => "2" | 3%nat => "3" | 4%nat => "4"
  | 5%nat => "5" | 6%nat => "6" | 7%nat => "7" | 8%nat => "8" | _ => "9"
  end.

Fixpoint toString_go (fuel n : nat) (acc : string) : string :=
  match fuel with
  | O => acc
  | S fuel' =>
      let acc' := digit (n mod 10) +:+ acc in
      if (n <? 10)%nat then acc' else toString_go fuel' (n / 10) acc'
  end.

(** [n.toString()] for a non-negative integer. *)
Definition Number_toString (n : nat) : string := toString_go (S n) n "".

(** *** Property order of plain objects

    [Object.keys], [Object.values] and [for ... in] enumerate the keys that
    are canonical array indices first, in ascending numeric order, and then the
    other keys in insertion order. *)

Definition digit_of (a : ascii) : option N :=
  let n := N_of_ascii a in
  if (48 <=? n)%N && (n <=? 57)%N then Some (n - 48)%N else None.

Fixpoint parse_digits (s : string) (acc : N) : option N :=
  match s with
  | EmptyString => Some acc
  | String a s' =>
      match digit_of a with
      | Some d => parse_digits s' (10 * acc + d)%N
      | None => None
      end
  end.

Definition array_index (s : string) : option N :=
  match s with
  | EmptyString => None
  | String a rest =>
      if Ascii.eqb a "0"%char && negb (String.eqb rest "") then None
      else match parse_digits s 0%N with
           | Some n => if (n <? 4294967295)%N then Some n else None
           | None => None
           end
  end.

Definition JSObject (V : Type) := list (string * V).

(** The names of the properties of [Object.prototype], which every plain
    object inherits (ECMAScript, with its Annex B). *)
Definition Object_prototype : list string :=
  ["constructor"; "__defineGetter__"; "__defineSetter__"; "hasOwnProperty";
   "__lookupGetter__"; "__lookupSetter__"; "isPrototypeOf";
   "propertyIsEnumerable"; "toString"; "valueOf"; "__proto__";
   "toLocaleString"].

Definition inherited (k : string) : bool :=
  existsb (String.eqb k) Object_prototype.

Section JSObject.
Context {V : Type}.

(** The value of the own property [k]. *)
Fixpoint obj_get (o : JSObject V) (k : string) : option V :=
  match o with
  | [] => None
  | (k', v) :: o' => if String.eqb k' k then Some v else obj_get o' k
  end.

(** [Object.hasOwn(o, k)] *)
Definition obj_own (o : JSObject V) (k : string) : bool :=
  match obj_get o k with Some _ => true | None => false end.

(** [k in o]: [k] is an own property of [o] or a property of
    [Object.prototype]. *)
Definition obj_has (o : JSObject V) (k : string) : bool :=
  obj_own o k || inherited k.

Definition obj_delete (o : JSObject V) (k : string) : JSObject V :=
  List.filter (fun kv => negb (String.eqb (fst kv) k)) o.

Fixpoint obj_replace (o : JSObject V) (k : string) (v : V) : JSObject V :=
  match o with
  | [] => []
  | (k', v') :: o' =>
      if String.eqb k' k then (k, v) :: o' else (k', v') :: obj_replace o' k v
  end.

(** Insertion of a new array-index key [n]: before the first key that is
    not an array index or is a larger one. *)
Fixpoint obj_insert_index (o : JSObject V) (n : N) (k : string) (v : V)
  : JSObject V :=
  match o with
  | [] => [(k, v)]
  | (k', v') :: o' =>
      match array_index k' with
      | Some n' =>
          if (n' <? n)%N then (k', v') :: obj_insert_index o' n k v
          else (k, v) :: o
      | None => (k, v) :: o
      end
  end.

(** [o[k] = v], and the definition of the own property [k] by
    [Object.fromEntries].  The sources never assign the key ["__proto__"] to
    a plain object: the ids inherited from [Object.prototype] are rejected
    as duplicates before. *)
Definition obj_set (o : JSObject V) (k : string) (v : V) : JSObject V :=
  if obj_own o k then obj_replace o k v
  else match array_index k with
       | Some n => obj_insert_index o n k v
       | None => o ++ [(k, v)]
       end.

Definition obj_keys (o : JSObject V) : list string := List.map fst o.
Definition obj_values (o : JSObject V) : list V := List.map snd o.
End JSObject.

(** ** Signals *)

(** [class Signal]: a name and a parameter bag. *)
Record Signal := mkSignal {
  name : string;
  params : gmap string any
}.

(** [new Signal(_name, params = {})]: a missing or empty name becomes
    ["default"]. *)
Definition new_Signal (_name : option string) (params : option (gmap string any))
  : Signal :=
  {| name := if truthy_str _name then default "default" _name else "default";
     params := default ∅ params |}.

(** [_.isEmpty(params)] on a parameter bag.  The function is the one of
    the external package radash: an object with a numeric [length] is empty
    when that is zero, otherwise one with a numeric [size] is empty when that
    is zero, otherwise an object is empty when it has no key. *)
Definition isEmpty (p : gmap string any) : bool :=
  match p !! "length" with
  | Some (ANum n) => n =? 0
  | _ =>
      match p !! "size" with
      | Some (ANum n) => n =? 0
      | _ => bool_decide (p = ∅)
      end
  end.

(** ** Contexts

    A [ChipContext] is an object; chips hold references to context objects.
    The store of context objects is a list indexed by location; allocation
    appends. *)

Abbreviation CtxStore := (list (gmap string any)).

Definition ctx_read (cs : CtxStore) (l : ctxloc) : gmap string any :=
  default ∅ (cs !! l).

Definition ctx_alloc (cs : CtxStore) (o : gmap string any) : ctxloc * CtxStore :=
  (length cs, cs ++ [o]).

(** [ChipContextResolvable = ChipContext | ChipContextFactory].  A factory is
    typed [(context: Readonly<Record>) => Readonly<Record>]: it reads the
    entries of its argument and either returns that same object ([None]) or
    builds a new one with the given entries. *)
Inductive ChipContextResolvable :=
| CtxObject (l : ctxloc)
| CtxFactory (f : gmap string any -> option (gmap string any)).

(** One iteration of the loop of [processChipContext]. *)
Definition processChipContext_step (acc : ctxloc * CtxStore)
    (alteredContext : option ChipContextResolvable) : ctxloc * CtxStore :=
  let '(context, cs) := acc in
  match alteredContext with
  | None => (context, cs)                                  (* continue *)
  | Some (CtxFactory f) =>
      match f (ctx_read cs context) with
      | None => (context, cs)
      | Some o => ctx_alloc cs o
      end
  | Some (CtxObject l) =>
      (* Object.assign({}, context, alteredContext) *)
      ctx_alloc cs (ctx_read cs l ∪ ctx_read cs context)
  end.

Definition processChipContext (chipContext : ctxloc)
    (alteredContexts : list (option ChipContextResolvable)) (cs : CtxStore)
  : ctxloc * CtxStore :=
  fold_left processChipContext_step alteredContexts (chipContext, cs).

(** ** Chips: data model *)

Inductive ChipState := inactive | active | paused.

#[global] Instance ChipState_eq_dec : EqDecision ChipState.
Proof. solve_decision. Defined.

Definition ChipState_eqb (a b : ChipState) : bool :=
  match a, b with
  | inactive, inactive | active, active | paused, paused => true
  | _, _ => false
  end.

(** [interface TickInfo] *)
Record TickInfo := mkTickInfo { timeSinceLastTick : float }.
Arguments mkTickInfo timeSinceLastTick%_float.

(** [ReloadMementoData]: the entries written by [_makeReloadMementoData]. *)
Record ReloadMementoData := mkMementoData {
  currentChipIndex : option nat;
  visitedStates : option (list Signal)
}.

(** [interface ReloadMemento] *)
Inductive ReloadMemento :=
| mkMemento (className : string) (data : option ReloadMementoData)
            (children : JSObject ReloadMemento).

Definition memento_className (m : ReloadMemento) : string :=
  let 'mkMemento c _ _ := m in c.
Definition memento_data (m : ReloadMemento) : option ReloadMementoData :=
  let 'mkMemento _ d _ := m in d.
Definition memento_children (m : ReloadMemento) : JSObject ReloadMemento :=
  let 'mkMemento _ _ c := m in c.

(** What the function given to a [Lambda] returns. *)
Inductive LambdaResult :=
| ReturnsNothing
| ReturnsString (s : string)
| ReturnsSignal (s : Signal).

(** The closures given to [Lambda] chips: the two closures the source itself
    builds, and a function that only returns a value.  The optional [that]
    of [Lambda], to which the function is bound, is not modelled: none of
    these closures reads it. *)
Inductive LambdaFn :=
| SetReady (composite : loc)          (* [() => { this._isReady = true }] *)
| FinishItem (item : itemloc)         (* [() => { item.state = "finished" }] *)
| Returning (r : LambdaResult).

(** [SignalDescriptor = Signal | SignalFunction] *)
Inductive SignalDescriptor :=
| SignalLiteral (s : Signal)
| SignalFunction (f : gmap string any -> Signal -> Signal).

(** [ChipResolvable = Chip | ChipFactory].  A factory returns [undefined], a
    chip that already exists, or the result of a [new] expression; [Template]
    lists the constructors with their arguments. *)
Inductive ChipResolvable :=
| RChip (chip : loc)
| RFactory (f : gmap string any -> Signal -> option Produced)
with Produced :=
| Existing (chip : loc)
| New (t : Template)
with Template :=
| new_Forever
| new_Block
| new_Transitory (terminateSignal : option Signal)
| new_Lambda (f : LambdaFn)
| new_Wait (wait : float)
| new_Parallel (chipActivationInfos : list ChipActivationInfo)
               (terminateOnCompletion : option bool)
| new_Sequence (chipActivationInfos : list ChipActivationInfo)
               (loop terminateOnCompletion : option bool)
| new_StateMachine (states : list (string * ChipActivationInfo))
                   (startingState : SignalDescriptor)
                   (signals : option (list (string * SignalDescriptor)))
                   (endingStates : option (list string))
| new_Alternative (chipActivationInfos : list ChipActivationInfo)
| new_Queue
with ChipActivationInfo :=
(** [ChipActivationInfo] (and [AlternativeChipActivationInfo], which adds
    [signal]); [ActivateChildChipOptions] is the same record without [chip]. *)
| mkInfo (chip : ChipResolvable)
         (context : option ChipContextResolvable)
         (inputSignal : option Signal)
         (attribute : option string)
         (includeInChildContext : option bool)
         (id : option string)
         (reloadMemento : option ReloadMemento)
         (signal : option Signal).

Arguments new_Wait wait%_float.

Definition info_chip (i : ChipActivationInfo) :=
  let 'mkInfo c _ _ _ _ _ _ _ := i in c.
Definition info_context (i : ChipActivationInfo) :=
  let 'mkInfo _ c _ _ _ _ _ _ := i in c.
Definition info_inputSignal (i : ChipActivationInfo) :=
  let 'mkInfo _ _ s _ _ _ _ _ := i in s.
Definition info_attribute (i : ChipActivationInfo) :=
  let 'mkInfo _ _ _ a _ _ _ _ := i in a.
Definition info_includeInChildContext (i : ChipActivationInfo) :=
  let 'mkInfo _ _ _ _ b _ _ _ := i in b.
Definition info_id (i : ChipActivationInfo) :=
  let 'mkInfo _ _ _ _ _ d _ _ := i in d.
Definition info_reloadMemento (i : ChipActivationInfo) :=
  let 'mkInfo _ _ _ _ _ _ m _ := i in m.
Definition info_signal (i : ChipActivationInfo) :=
  let 'mkInfo _ _ _ _ _ _ _ s := i in s.

(** [{ chip: e }] *)
Definition info_of (e : ChipResolvable) : ChipActivationInfo :=
  mkInfo e None None None None None None None.

(** [{ ...info, id }] *)
Definition info_with_id (i : ChipActivationInfo) (id : string)
  : ChipActivationInfo :=
  let 'mkInfo c x s a b _ m g := i in mkInfo c x s a b (Some id) m g.

(** *** Event plumbing *)

(** The objects chips subscribe to: other chips (Node-style [on]/[off]) and
    the browser [window] (an [EventTarget]). *)
Inductive Emitter :=
| EChip (chip : loc)
| EWindow.

Definition Emitter_eqb (a b : Emitter) : bool :=
  match a, b with
  | EChip x, EChip y => Nat.eqb x y
  | EWindow, EWindow => true
  | _, _ => false
  end.

Inductive SubscriptionHandler :=
| NodeEventSourceSubscriptionHandler
| EventTargetSubscriptionHandler.

(** The listener closures created in the source. *)
Inductive Closure :=
| OnResize (this : loc)                          (* [() => this.resize()] *)
| OnChildTerminated (this : loc) (index : nat)   (* [() => this._onChildTerminated(i)] *)
| SpliceAttribute (this : loc) (attributeName : string) (chip : loc)
| DeleteAttribute (this : loc) (attributeName : string)
| DeleteChildContext (this : loc) (providedId : string).

(** A function object: [cb.bind(this)] creates a new one each time, so a
    callback carries the identity it was given when bound. *)
Record Callback := mkCallback { cb_id : nat; cb_code : Closure }.

(** [interface IEventListener] *)
Record IEventListener := mkListener {
  l_emitter : Emitter;
  l_event : string;
  l_cb : Callback;
  l_subscriptionHandler : SubscriptionHandler
}.

(** A registration held by an emitter. *)
Record Registration := mkRegistration {
  r_event : string;
  r_cb : Callback;
  r_once : bool
}.

(** The value of a dynamically named attribute of a composite. *)
Inductive Attribute :=
| AttrChip (chip : loc)
| AttrArray (chips : list loc)
| AttrOther.                     (* some truthy value that is not a chip *)

(** *** Instance fields *)

(** The fields each concrete class adds to [ChipBase] or [Composite]. *)
Inductive ClassData :=
| Forever
| Block
| Transitory (terminateSignal : Signal)
| Lambda (f : LambdaFn)
| Wait (wait : float) (_accumulatedTime : option float)
| Parallel (terminateOnCompletion : bool)
           (_chipActivationInfos : list ChipActivationInfo)
           (_infoToChip : list (nat * loc))
           (_activatedChipCount : nat)
| Sequence (loop terminateOnCompletion : bool)
           (_chipActivationInfos : list ChipActivationInfo)
           (_currentChipIndex : nat)
           (_currentChip : option loc)
| StateMachine (_states : JSObject ChipActivationInfo)
               (_transitions : JSObject SignalDescriptor)
               (_startingState : SignalDescriptor)
               (endingStates : option (list string))
               (_visitedStates : list Signal)
               (_activeChildChip : option loc)
               (_lastSignal : option Signal)
| Alternative (_chipActivationInfos : list ChipActivationInfo)
| Queue (_queue : list itemloc).

Arguments Wait wait%_float _accumulatedTime.

(** [this.constructor.name] *)
Definition constructor_name (c : ClassData) : string :=
  match c with
  | Forever => "Forever"
  | Block => "Block"
  | Transitory _ => "Transitory"
  | Lambda _ => "Lambda"
  | Wait _ _ => "Wait"
  | Parallel _ _ _ _ => "Parallel"
  | Sequence _ _ _ _ _ => "Sequence"
  | StateMachine _ _ _ _ _ _ _ => "StateMachine"
  | Alternative _ => "Alternative"
  | Queue _ => "Queue"
  end.

(** [instanceof Composite] *)
Definition is_Composite (c : ClassData) : bool :=
  match c with
  | Parallel _ _ _ _ | Sequence _ _ _ _ _ | StateMachine _ _ _ _ _ _ _
  | Alternative _ | Queue _ => true
  | _ => false
  end.

(** *** Members read as attributes

    [_activateChildChip] reads and writes [this[options.attribute]].  A name
    that is already a member of the object is not a dynamically named
    attribute; [member] tells what the read gives for it.  The private fields
    of the external [EventEmitter] class are not known and are taken not to
    be used as attribute names. *)
Inductive Member :=
| AlwaysTruthy   (* a method, or an accessor that gives an object or a
                    non-empty string: truthy, not a chip, without [push] *)
| ThePrototype   (* [__proto__]: the prototype of the class, which has the
                    three methods [isChip] looks for *)
| AField.        (* a field, or an accessor whose value varies *)

Definition ChipBase_methods : list string :=
  ["on"; "once"; "off"; "emit";
   "activate"; "tick"; "resize"; "terminate"; "pause"; "resume";
   "_subscribe"; "_subscribeOnce"; "_unsubscribe"; "makeReloadMemento";
   "_onActivate"; "_onTick"; "_onResize"; "_onTerminate"; "_onPause";
   "_onResume"; "_makeReloadMementoData";
   "chipContext"; "state"; "children"].

Definition ChipBase_fields : list string :=
  ["_chipContext"; "_lastTickInfo"; "_inputSignal"; "_reloadMemento";
   "_eventListeners"; "_outputSignal"; "_state"; "outputSignal"].

Definition Composite_methods : list string :=
  ["_activateChildChip"; "_terminateChildChip"; "_tickChildChips";
   "_terminateAllChildChips"; "_removeTerminatedChildChips"; "_onAfterTick"].

Definition Composite_fields : list string :=
  ["_childChipContext"; "_deferredOutputSignal"; "_methodCallInProgress";
   "_isReady"; "_childChips"; "_preparation"; "isReady";
   "defaultChildChipContext"].

Definition methods_of (k : ClassData) : list string :=
  match k with
  | Parallel _ _ _ _ =>
      ["addChildChip"; "removeChildChip"; "indexOfChipActivationInfo"]
  | Sequence _ _ _ _ _ =>
      ["addChildChip"; "skip"; "_switchChip"; "restart"; "_advance"]
  | StateMachine _ _ _ _ _ _ _ => ["changeState"; "_changeState"]
  | Alternative _ => ["_onChildTerminated"]
  | Queue _ => ["add"; "next"; "_activateItem"]
  | _ => []
  end.

Definition fields_of (k : ClassData) : list string :=
  match k with
  | Parallel _ _ _ _ =>
      ["_options"; "_chipActivationInfos"; "_infoToChip";
       "_activatedChipCount"]
  | Sequence _ _ _ _ _ =>
      ["_options"; "_chipActivationInfos"; "_currentChipIndex";
       "_currentChip"]
  | StateMachine _ _ _ _ _ _ _ =>
      ["options"; "_states"; "_transitions"; "_startingState";
       "_visitedStates"; "_activeChildChip"; "_lastSignal"; "lastSignal";
       "visitedStates"]
  | Alternative _ => ["_chipActivationInfos"]
  | Queue _ => ["_queue"; "isEmpty"]
  | _ => []
  end.

Definition member (k : ClassData) (n : string) : option Member :=
  if String.eqb n "__proto__" then Some ThePrototype
  else if inherited n
          || existsb (String.eqb n)
               (ChipBase_methods ++ Composite_methods ++ methods_of k)
  then Some AlwaysTruthy
  else if existsb (String.eqb n)
            (ChipBase_fields ++ Composite_fields ++ fields_of k)
  then Some AField
  else None.

(** A chip object: the listeners it holds as an [EventEmitter], the fields of
    [ChipBase], the fields of [Composite] (unused by leaf chips), the
    dynamically named attributes, and the fields of its class. *)
Record Chip := mkChip {
  _listeners : list Registration;
  _chipContext : option ctxloc;
  _lastTickInfo : option TickInfo;
  _inputSignal : option Signal;
  _reloadMemento : option ReloadMemento;
  _eventListeners : list IEventListener;
  _outputSignal : option Signal;
  _state : ChipState;
  _childChipContext : option ctxloc;
  _deferredOutputSignal : option Signal;
  _methodCallInProgress : bool;
  _isReady : bool;
  _childChips : JSObject loc;
  _preparation : option ChipResolvable;
  attributes : JSObject Attribute;
  class : ClassData
}.

(** Field updates. *)
Definition set_listeners v c :=
  let 'mkChip _ b d e f g h i j k l m n o p q := c in
  mkChip v b d e f g h i j k l m n o p q.
Definition set_chipContext v c :=
  let 'mkChip a _ d e f g h i j k l m n o p q := c in
  mkChip a v d e f g h i j k l m n o p q.
Definition set_lastTickInfo v c :=
  let 'mkChip a b _ e f g h i j k l m n o p q := c in
  mkChip a b v e f g h i j k l m n o p q.
Definition set_inputSignal v c :=
  let 'mkChip a b d _ f g h i j k l m n o p q := c in
  mkChip a b d v f g h i j k l m n o p q.
Definition set_reloadMemento v c :=
  let 'mkChip a b d e _ g h i j k l m n o p q := c in
  mkChip a b d e v g h i j k l m n o p q.
Definition set_eventListeners v c :=
  let 'mkChip a b d e f _ h i j k l m n o p q := c in
  mkChip a b d e f v h i j k l m n o p q.
Definition set_outputSignal v c :=
  let 'mkChip a b d e f g _ i j k l m n o p q := c in
  mkChip a b d e f g v i j k l m n o p q.
Definition set_state v c :=
  let 'mkChip a b d e f g h _ j k l m n o p q := c in
  mkChip a b d e f g h v j k l m n o p q.
Definition set_childChipContext v c :=
  let 'mkChip a b d e f g h i _ k l m n o p q := c in
  mkChip a b d e f g h i v k l m n o p q.
Definition set_deferredOutputSignal v c :=
  let 'mkChip a b d e f g h i j _ l m n o p q := c in
  mkChip a b d e f g h i j v l m n o p q.
Definition set_methodCallInProgress v c :=
  let 'mkChip a b d e f g h i j k _ m n o p q := c in
  mkChip a b d e f g h i j k v m n o p q.
Definition set_isReady v c :=
  let 'mkChip a b d e f g h i j k l _ n o p q := c in
  mkChip a b d e f g h i j k l v n o p q.
Definition set_childChips v c :=
  let 'mkChip a b d e f g h i j k l m _ o p q := c in
  mkChip a b d e f g h i j k l m v o p q.
Definition set_preparation v c :=
  let 'mkChip a b d e f g h i j k l m n _ p q := c in
  mkChip a b d e f g h i j k l m n v p q.
Definition set_attributes v c :=
  let 'mkChip a b d e f g h i j k l m n o _ q := c in
  mkChip a b d e f g h i j k l m n o v q.
Definition set_class v c :=
  let 'mkChip a b d e f g h i j k l m n o p _ := c in
  mkChip a b d e f g h i j k l m n o p v.

(** [type QueueItemState] and [interface QueueItem] *)
Inductive QueueItemState := running | finished | waiting.

Record QueueItem := mkQueueItem {
  q_state : QueueItemState;
  q_context : option ctxloc;
  q_entityResolvable : ChipResolvable
}.

(** The arguments of an emitted notification. *)
Inductive EventArg :=
| ArgSignal (s : option Signal)
| ArgChip (chip : loc)
| ArgContext (context : ctxloc)
| ArgNumber (n : Z).

Record Emitted := mkEmitted {
  e_source : loc;
  e_event : string;
  e_args : list EventArg
}.

(** ** The store *)

(** The whole state of a run: the three object stores, what is registered on
    [window], the counters that give identities to bound callbacks, to
    [util.uniqueId] and to the successive draws of [Math.random], the size of
    the document, and the notifications emitted so far (oldest first). *)
Record St := mkSt {
  chips : list Chip;
  contexts : CtxStore;
  items : list QueueItem;
  windowListeners : list Registration;
  nextCallback : nat;
  nextUniqueId : nat;
  nextRandom : nat;
  clientSize : Z * Z;
  emitted : list Emitted
}.

Definition set_chips v s :=
  let 'mkSt _ b c d e f g h i := s in
  mkSt v b c d e f g h i.
Definition set_contexts v s :=
  let 'mkSt a _ c d e f g h i := s in
  mkSt a v c d e f g h i.
Definition set_items v s :=
  let 'mkSt a b _ d e f g h i := s in
  mkSt a b v d e f g h i.
Definition set_windowListeners v s :=
  let 'mkSt a b c _ e f g h i := s in
  mkSt a b c v e f g h i.
Definition set_nextCallback v s :=
  let 'mkSt a b c d _ f g h i := s in
  mkSt a b c d v f g h i.
Definition set_nextUniqueId v s :=
  let 'mkSt a b c d e _ g h i := s in
  mkSt a b c d e v g h i.
Definition set_nextRandom v s :=
  let 'mkSt a b c d e f _ h i := s in
  mkSt a b c d e f v h i.
Definition set_emitted v s :=
  let 'mkSt a b c d e f g h _ := s in
  mkSt a b c d e f g h v.

Definition empty_store : St := mkSt [] [] [] [] 0 0 0 (0, 0) [].

(** ** The monad of methods *)

(** The errors of the source ([util.shortStackError(message)]), named as in
    the specification, and the runtime [TypeError] of JavaScript. *)
Inductive Error :=
| InvalidStateError (method : string) (from : ChipState)
    (* "<method>() called from state <state>" *)
| CompositeInactiveError            (* "Composite is inactive" *)
| AttributeNotChipError (attribute : string)
    (* "Setting the attribute ... would replace a non-chip" *)
| DuplicateIdError                  (* "Duplicate child chip ID provided" *)
| NoNodeProducedError               (* "No chip returned" *)
| IncludeWithoutIdError
    (* "To include a child chip in the context, provide an attribute name or ID" *)
| ChildNotFoundError                (* "Cannot find chip to terminate" *)
| UnknownSignalError (name : string) (* "Cannot find signal for state '<name>'" *)
| UnknownStateError (name : string)  (* "Cannot find state '<name>'" *)
| TypeError (what : string).

(** The outcome of a run: it returns, it throws, the nesting of its calls
    exceeds the fuel, or JavaScript goes on with a value that the model
    cannot hold. *)
Inductive Res (A : Type) :=
| Ok (a : A) (s : St)
| Throw (e : Error) (s : St)
| OutOfFuel
| Unmodelled.
Arguments Ok {A} a s.
Arguments Throw {A} e s.
Arguments OutOfFuel {A}.
Arguments Unmodelled {A}.

Definition M (A : Type) := St -> Res A.

Definition ret {A} (a : A) : M A := fun s => Ok a s.
Definition bind {A B} (m : M A) (k : A -> M B) : M B :=
  fun s => match m s with
           | Ok a s' => k a s'
           | Throw e s' => Throw e s'
           | OutOfFuel => OutOfFuel
           | Unmodelled => Unmodelled
           end.
Definition throw {A} (e : Error) : M A := fun s => Throw e s.
Definition unmodelled {A} : M A := fun _ => Unmodelled.
Definition gets {A} (f : St -> A) : M A := fun s => Ok (f s) s.
Definition modify (f : St -> St) : M unit := fun s => Ok tt (f s).

Notation "x <- m ;; k" := (bind m (fun x => k))
  (at level 100, m at next level, right associativity).
Notation "m ;; k" := (bind m (fun _ => k))
  (at level 100, right associativity).

Fixpoint forM_ {A} (l : list A) (f : A -> M unit) : M unit :=
  match l with
  | [] => ret tt
  | x :: l' => f x ;; forM_ l' f
  end.

Definition when (b : bool) (m : M unit) : M unit := if b then m else ret tt.

(** *** Access to the stores *)

Definition the_chip (this : loc) : M Chip :=
  fun s => match chips s !! this with
           | Some c => Ok c s
           | None => Throw (TypeError "not a chip") s
           end.

(** [this.<field>] *)
Definition field {A} (this : loc) (f : Chip -> A) : M A :=
  fun s => match chips s !! this with
           | Some c => Ok (f c) s
           | None => Throw (TypeError "not a chip") s
           end.

(** [this.<field> = ...] *)
Definition update (this : loc) (f : Chip -> Chip) : M unit :=
  fun s => match chips s !! this with
           | Some c => Ok tt (set_chips (<[this := f c]> (chips s)) s)
           | None => Throw (TypeError "not a chip") s
           end.

Definition alloc_chip (c : Chip) : M loc :=
  fun s => Ok (length (chips s)) (set_chips (chips s ++ [c]) s).

Definition alloc_context (o : gmap string any) : M ctxloc :=
  fun s => let '(l, cs) := ctx_alloc (contexts s) o in Ok l (set_contexts cs s).

Definition update_context (l : ctxloc) (f : gmap string any -> gmap string any)
  : M unit :=
  modify (fun s => set_contexts (alter f l (contexts s)) s).

Definition alloc_item (i : QueueItem) : M itemloc :=
  fun s => Ok (length (items s)) (set_items (items s ++ [i]) s).

Definition the_item (i : itemloc) : M QueueItem :=
  fun s => match items s !! i with
           | Some q => Ok q s
           | None => Throw (TypeError "not a queue item") s
           end.

Definition set_item_state (i : itemloc) (v : QueueItemState) : M unit :=
  modify (fun s =>
    set_items (alter (fun q => mkQueueItem v (q_context q) (q_entityResolvable q))
                     i (items s)) s).

(** [this._chipContext] and [this._lastTickInfo] are declared with [!]: they
    are assigned by [activate] and read only afterwards. *)
Definition defined {A} (what : string) (o : option A) : M A :=
  match o with
  | Some a => ret a
  | None => throw (TypeError (what +:+ " is undefined"))
  end.

(** [cb.bind(this)]: a function object with a new identity. *)
Definition bind_this (code : Closure) : M Callback :=
  fun s => Ok (mkCallback (nextCallback s) code)
              (set_nextCallback (S (nextCallback s)) s).

(** Modelled from the spec: [util.uniqueId] is not part of the sources; the
    specification only says that an id ending in the array marker gives "an
    array-group synthetic id", unique among the children.  It is the prefix
    followed by the value of a counter. *)
Definition uniqueId (prefix : string) : M string :=
  fun s => Ok (prefix +:+ Number_toString (nextUniqueId s))
              (set_nextUniqueId (S (nextUniqueId s)) s).

(** [`unknown_${Number.MAX_SAFE_INTEGER * Math.random()}`]: the successive
    draws of [Math.random] are the successive values of a counter. *)
Definition random_id : M string :=
  fun s => Ok ("unknown_" +:+ Number_toString (nextRandom s))
              (set_nextRandom (S (nextRandom s)) s).

(** *** Constructors *)

Definition fresh (c : ClassData) : Chip :=
  mkChip [] None None None None [] None inactive None None false false [] None
         [] c.

(** [Object.fromEntries] *)
Definition fromEntries {V} (entries : list (string * V)) : JSObject V :=
  fold_left (fun o kv => obj_set o (fst kv) (snd kv)) entries [].

(** The [new] expressions.  The constructors of [Parallel] and [Sequence]
    call [addChildChip] on every element, which on a chip under construction
    (inactive) only appends to [_chipActivationInfos]. *)
Definition construct (t : Template) : ClassData :=
  match t with
  | new_Forever => Forever
  | new_Block => Block
  | new_Transitory terminateSignal =>
      Transitory (default (new_Signal None None) terminateSignal)
  | new_Lambda f => Lambda f
  | new_Wait wait => Wait wait None
  | new_Parallel infos terminateOnCompletion =>
      Parallel (default true terminateOnCompletion) infos [] 0
  | new_Sequence infos loop terminateOnCompletion =>
      Sequence (default false loop) (default true terminateOnCompletion)
               infos 0 None
  | new_StateMachine states startingState signals endingStates =>
      StateMachine (fromEntries states) (fromEntries (default [] signals))
                   startingState endingStates [] None None
  | new_Alternative infos => Alternative infos
  | new_Queue => Queue []
  end.

Definition new (t : Template) : M loc := alloc_chip (fresh (construct t)).

(** [resolveChip(resolvable, context)]; the factory is given the entries of
    [context]. *)
Definition resolveChip (resolvable : ChipResolvable) (context : gmap string any)
  : M (option loc) :=
  match resolvable with
  | RChip chip => ret (Some chip)
  | RFactory f =>
      match f context (new_Signal None None) with
      | None => ret None
      | Some (Existing chip) => ret (Some chip)
      | Some (New t) => chip <- new t ;; ret (Some chip)
      end
  end.

Definition processChipContextM (chipContext : ctxloc)
    (alteredContexts : list (option ChipContextResolvable)) : M ctxloc :=
  fun s => let '(l, cs) := processChipContext chipContext alteredContexts
                                              (contexts s) in
           Ok l (set_contexts cs s).

(** ** Virtual calls

    The calls that may re-enter the chip tree. *)
Inductive Call :=
| activate (this : loc) (tickInfo : TickInfo) (chipContext : ctxloc)
           (inputSignal : option Signal) (reloadMemento : option ReloadMemento)
| tick (this : loc) (tickInfo : TickInfo)
| terminate (this : loc) (outputSignal : option Signal)
| pause (this : loc)
| resume (this : loc)
| invoke (cb : Callback).

(** ** Methods *)

(** [_.fork(list, condition)] of radash: the first list holds the items for
    which the condition is true, the second the others. *)
Definition fork {A} (items : list A) (condition : A -> bool) : list A * list A :=
  (List.filter condition items, List.filter (fun x => negb (condition x)) items).

(** The predicate given to [fork] in [_unsubscribe]:
    [(!emitter || emitter !== listener.emitter) &&
     (!event || event !== listener.event) && (!cb || cb !== listener.cb)]. *)
Definition unsubscribe_condition (emitter : option Emitter)
    (event : option string) (cb : option Callback) (listener : IEventListener)
  : bool :=
  (match emitter with
   | Some e => negb (Emitter_eqb e (l_emitter listener))
   | None => true
   end)
  && (if truthy_str event
      then negb (String.eqb (default "" event) (l_event listener))
      else true)
  && (match cb with
      | Some f => negb (Nat.eqb (cb_id f) (cb_id (l_cb listener)))
      | None => true
      end).

Section Methods.

(** The virtual call, one level of nesting further down. *)
Variable call : Call -> M unit.

(** *** [EventEmitter]

    The emitter class is an external package.  It is modelled on the
    Node.js-like interface [NodeEventSource] that the source declares for
    it: listeners are called synchronously in registration order, and a
    [once] listener is removed before it is called. *)

Definition same_registration (type : string) (listener : Callback)
    (r : Registration) : bool :=
  String.eqb (r_event r) type && Nat.eqb (cb_id (r_cb r)) (cb_id listener).

Definition EventEmitter_on (this : loc) (type : string) (listener : Callback)
  : M unit :=
  update this (fun c =>
    set_listeners (_listeners c ++ [mkRegistration type listener false]) c).

Definition EventEmitter_once (this : loc) (type : string)
    (listener : Callback) : M unit :=
  update this (fun c =>
    set_listeners (_listeners c ++ [mkRegistration type listener true]) c).

Definition EventEmitter_off (this : loc) (type : string) (listener : Callback)
  : M unit :=
  update this (fun c =>
    set_listeners
      (List.filter (fun r => negb (same_registration type listener r))
                   (_listeners c)) c).

Definition EventEmitter_emit (this : loc) (type : string)
    (args : list EventArg) : M unit :=
  modify (fun s => set_emitted (emitted s ++ [mkEmitted this type args]) s) ;;
  registered <- field this _listeners ;;
  forM_ (List.filter (fun r => String.eqb (r_event r) type) registered)
        (fun r =>
           when (r_once r) (EventEmitter_off this type (r_cb r)) ;;
           call (invoke (r_cb r))).

(** [window.addEventListener] and [window.removeEventListener] *)
Definition window_addEventListener (type : string) (listener : Callback)
    (once : bool) : M unit :=
  modify (fun s =>
    set_windowListeners
      (windowListeners s ++ [mkRegistration type listener once]) s).

Definition window_removeEventListener (type : string) (listener : Callback)
  : M unit :=
  modify (fun s =>
    set_windowListeners
      (List.filter (fun r => negb (same_registration type listener r))
                   (windowListeners s)) s).

(** *** [SubscriptionHandler] *)

Definition subscribe (h : SubscriptionHandler) (emitter : Emitter)
    (event : string) (cb : Callback) : M unit :=
  match h, emitter with
  | NodeEventSourceSubscriptionHandler, EChip e => EventEmitter_on e event cb
  | EventTargetSubscriptionHandler, EWindow =>
      window_addEventListener event cb false
  | NodeEventSourceSubscriptionHandler, EWindow =>
      throw (TypeError "emitter.on is not a function")
  | EventTargetSubscriptionHandler, EChip _ =>
      throw (TypeError "emitter.addEventListener is not a function")
  end.

Definition subscribeOnce (h : SubscriptionHandler) (emitter : Emitter)
    (event : string) (cb : Callback) : M unit :=
  match h, emitter with
  | NodeEventSourceSubscriptionHandler, EChip e => EventEmitter_once e event cb
  | EventTargetSubscriptionHandler, EWindow =>
      window_addEventListener event cb true
  | NodeEventSourceSubscriptionHandler, EWindow =>
      throw (TypeError "emitter.once is not a function")
  | EventTargetSubscriptionHandler, EChip _ =>
      throw (TypeError "emitter.addEventListener is not a function")
  end.

Definition unsubscribe (h : SubscriptionHandler) (emitter : Emitter)
    (event : string) (cb : Callback) : M unit :=
  match h, emitter with
  | NodeEventSourceSubscriptionHandler, EChip e => EventEmitter_off e event cb
  | EventTargetSubscriptionHandler, EWindow =>
      window_removeEventListener event cb
  | NodeEventSourceSubscriptionHandler, EWindow =>
      throw (TypeError "emitter.off is not a function")
  | EventTargetSubscriptionHandler, EChip _ =>
      throw (TypeError "emitter.removeEventListener is not a function")
  end.

(** [isNodeEventSource] is tried first, then [isEventTarget]. *)
Definition default_handler (emitter : Emitter) : SubscriptionHandler :=
  match emitter with
  | EChip _ => NodeEventSourceSubscriptionHandler
  | EWindow => EventTargetSubscriptionHandler
  end.

(** *** [ChipBase]: subscriptions *)

Definition ChipBase__subscribe (this : loc) (emitter : Emitter)
    (eventName : string) (cb : Closure)
    (subscriptionHandler : option SubscriptionHandler) : M unit :=
  let subscriptionHandler :=
    default (default_handler emitter) subscriptionHandler in
  cb <- bind_this cb ;;
  update this (fun c =>
    set_eventListeners
      (_eventListeners c
         ++ [mkListener emitter eventName cb subscriptionHandler]) c) ;;
  subscribe subscriptionHandler emitter eventName cb.

Definition ChipBase__subscribeOnce (this : loc) (emitter : Emitter)
    (eventName : string) (cb : Closure)
    (subscriptionHandler : option SubscriptionHandler) : M unit :=
  let subscriptionHandler :=
    default (default_handler emitter) subscriptionHandler in
  cb <- bind_this cb ;;
  update this (fun c =>
    set_eventListeners
      (_eventListeners c
         ++ [mkListener emitter eventName cb subscriptionHandler]) c) ;;
  subscribeOnce subscriptionHandler emitter eventName cb.

Definition ChipBase__unsubscribe (this : loc) (emitter : option Emitter)
    (event : option string) (cb : option Callback) : M unit :=
  listeners <- field this _eventListeners ;;
  let '(listenersToRemove, listenersToKeep) :=
    fork listeners (unsubscribe_condition emitter event cb) in
  forM_ listenersToRemove (fun listener =>
    unsubscribe (l_subscriptionHandler listener) (l_emitter listener)
                (l_event listener) (l_cb listener)) ;;
  update this (set_eventListeners listenersToKeep).

(** [resize()]: [_onResize] is a no-op in every class of the module. *)
Definition ChipBase_resize (this : loc) : M unit :=
  size <- gets clientSize ;;
  EventEmitter_emit this "resized" [ArgNumber (fst size); ArgNumber (snd size)].

(** *** [Composite]: protected methods *)

Definition update_class (this : loc) (f : ClassData -> ClassData) : M unit :=
  update this (fun c => set_class (f (class c)) c).

Definition set_attribute (this : loc) (attributeName : string)
    (v : Attribute) : M unit :=
  update this (fun c =>
    set_attributes (obj_set (attributes c) attributeName v) c).

Definition Composite__terminateChildChip (this : loc) (chip : loc)
    (outputSignal : option Signal) : M unit :=
  state <- field this _state ;;
  if ChipState_eqb state inactive then throw CompositeInactiveError else
  childChips <- field this _childChips ;;
  (* Try to find value *)
  match List.find (fun kv => Nat.eqb (snd kv) chip) childChips with
  | None => throw ChildNotFoundError
  | Some (childId, _) =>
      if negb (truthy_str (Some childId)) then throw ChildNotFoundError else
      call (terminate chip outputSignal) ;;
      update this (fun c =>
        set_childChips (obj_delete (_childChips c) childId) c) ;;
      EventEmitter_emit this "terminatedChildChip" [ArgChip chip]
  end.

(** [get defaultChildChipContext()]: no class of the module overloads it. *)
Definition defaultChildChipContext (this : loc)
  : option ChipContextResolvable := None.

Definition Composite__activateChildChip (this : loc)
    (chipResolvable : ChipResolvable) (options : ChipActivationInfo)
  : M loc :=
  state <- field this _state ;;
  if ChipState_eqb state inactive then throw CompositeInactiveError else
  (* If an existing chip with that attribute exists, terminate it.
     Doesn't remove arrays, though *)
  k <- field this class ;;
  attrs <- field this attributes ;;
  (if truthy_str (info_attribute options)
      && negb (endsWith (default "" (info_attribute options)) "[]")
   then match member k (default "" (info_attribute options)) with
        | Some AlwaysTruthy =>
            throw (AttributeNotChipError (default "" (info_attribute options)))
        | Some ThePrototype =>
            (* passes [isChip] and is not among the children *)
            throw ChildNotFoundError
        | Some AField => unmodelled
        | None =>
            match obj_get attrs (default "" (info_attribute options)) with
            | Some (AttrChip old) =>
                Composite__terminateChildChip this old None
            | Some _ =>
                throw (AttributeNotChipError
                         (default "" (info_attribute options)))
            | None => ret tt
            end
        end
   else ret tt) ;;
  (* options.id ?? options.attribute *)
  providedId <-
    (let providedId := match info_id options with
                       | Some i => Some i
                       | None => info_attribute options
                       end in
     if truthy_str providedId then
       providedId <- (if endsWith (default "" providedId) "[]"
                      then uniqueId (default "" providedId)
                      else ret (default "" providedId)) ;;
       childChips <- field this _childChips ;;
       if obj_has childChips providedId then throw DuplicateIdError
       else ret (Some providedId)
     else ret providedId) ;;
  let inputSignal :=
    default (new_Signal None None) (info_inputSignal options) in
  chipContext <- field this _chipContext ;;
  chipContext <- defined "this._chipContext" chipContext ;;
  childChipContext <- field this _childChipContext ;;
  childContext <-
    processChipContextM chipContext
      [CtxObject <$> childChipContext; defaultChildChipContext this;
       info_context options] ;;
  entries <- gets (fun s => ctx_read (contexts s) childContext) ;;
  chip <- resolveChip chipResolvable entries ;;
  (* If no chip is returned, then nothing more to do *)
  match chip with
  | None => throw NoNodeProducedError
  | Some chip =>
      (* Look for reload memento, if an id is provided *)
      memento <- field this _reloadMemento ;;
      let reloadMemento :=
        if truthy_str providedId then
          match memento with
          | Some m => obj_get (memento_children m) (default "" providedId)
          | None => None
          end
        else None in
      (* If no childId is provided, use a random temporary value *)
      childId <- match providedId with
                 | Some p => ret p
                 | None => random_id
                 end ;;
      update this (fun c =>
        set_childChips (obj_set (_childChips c) childId chip) c) ;;
      (if truthy_str (info_attribute options) then
         let attribute := default "" (info_attribute options) in
         if endsWith attribute "[]" then
           (* Take off the last 2 characters *)
           let attributeName := slice_off_2 attribute in
           attrs <- field this attributes ;;
           match member k attributeName with
           | Some AField => unmodelled
           | Some _ =>
               throw (TypeError "attributeAsArray.push is not a function")
           | None =>
               match obj_get attrs attributeName with
               | Some (AttrArray a) =>
                   set_attribute this attributeName (AttrArray (a ++ [chip]))
               | None => set_attribute this attributeName (AttrArray [chip])
               | Some _ =>
                   throw (TypeError "attributeAsArray.push is not a function")
               end
           end ;;
           (* When the chip is terminated, remove the attribute *)
           ChipBase__subscribeOnce this (EChip chip) "terminated"
             (SpliceAttribute this attributeName chip) None
         else
           set_attribute this attribute (AttrChip chip) ;;
           (* When the chip is terminated, delete the attribute *)
           ChipBase__subscribeOnce this (EChip chip) "terminated"
             (DeleteAttribute this attribute) None
       else ret tt) ;;
      EventEmitter_emit this "beforeActivatedChildChip"
        [ArgChip chip; ArgContext childContext; ArgSignal (Some inputSignal)] ;;
      lastTickInfo <- field this _lastTickInfo ;;
      lastTickInfo <- defined "this._lastTickInfo" lastTickInfo ;;
      call (activate chip lastTickInfo childContext (Some inputSignal)
                     reloadMemento) ;;
      (if default false (info_includeInChildContext options) then
         if negb (truthy_str providedId) then throw IncludeWithoutIdError
         else
           let providedId := default "" providedId in
           childChipContext <- field this _childChipContext ;;
           childChipContext <-
             defined "this._childChipContext" childChipContext ;;
           update_context childChipContext (<[providedId := AChip chip]>) ;;
           (* When the chip is terminated, remove from the context *)
           ChipBase__subscribeOnce this (EChip chip) "terminated"
             (DeleteChildContext this providedId) None
       else ret tt) ;;
      EventEmitter_emit this "activatedChildChip"
        [ArgChip chip; ArgContext childContext; ArgSignal (Some inputSignal)] ;;
      ret chip
  end.

(** Remove any child chips *)
Definition Composite__removeTerminatedChildChips (this : loc) : M unit :=
  childChips <- field this _childChips ;;
  forM_ (obj_keys childChips) (fun id =>
    current <- field this _childChips ;;
    match obj_get current id with
    | None => ret tt           (* deleted before it was visited *)
    | Some childChip =>
        state <- field childChip _state ;;
        if ChipState_eqb state inactive then
          update this (fun c =>
            set_childChips (obj_delete (_childChips c) id) c) ;;
          EventEmitter_emit this "terminatedChildChip" [ArgChip childChip]
        else ret tt
    end).

Definition Composite__tickChildChips (this : loc) : M unit :=
  childChips <- field this _childChips ;;
  forM_ (obj_values childChips) (fun childChip =>
    state <- field childChip _state ;;
    if negb (ChipState_eqb state inactive) then
      lastTickInfo <- field this _lastTickInfo ;;
      lastTickInfo <- defined "this._lastTickInfo" lastTickInfo ;;
      call (tick childChip lastTickInfo)
    else ret tt) ;;
  Composite__removeTerminatedChildChips this.

(** Terminate all the children, with the provided signal *)
Definition Composite__terminateAllChildChips (this : loc)
    (outputSignal : option Signal) : M unit :=
  childChips <- field this _childChips ;;
  forM_ (obj_values childChips) (fun childChip =>
    state <- field childChip _state ;;
    (if ChipState_eqb state active || ChipState_eqb state paused
     then call (terminate childChip outputSignal)
     else ret tt) ;;
    EventEmitter_emit this "terminatedChildChip" [ArgChip childChip]) ;;
  update this (set_childChips []).

(** *** [Transitory], [Lambda], [Wait], [Block] *)

Definition Transitory__onActivate (this : loc) : M unit :=
  c <- field this class ;;
  match c with
  | Transitory terminateSignal => call (terminate this (Some terminateSignal))
  | _ => ret tt
  end.

(** [this.f()] *)
Definition apply_lambda (f : LambdaFn) : M LambdaResult :=
  match f with
  | SetReady composite =>
      update composite (set_isReady true) ;; ret ReturnsNothing
  | FinishItem item => set_item_state item finished ;; ret ReturnsNothing
  | Returning r => ret r
  end.

Definition Lambda__onActivate (this : loc) : M unit :=
  c <- field this class ;;
  match c with
  | Lambda f =>
      result <- apply_lambda f ;;
      match result with
      | ReturnsString s =>
          call (terminate this (Some (new_Signal (Some s) None)))
      | ReturnsSignal s => call (terminate this (Some s))
      | ReturnsNothing => call (terminate this (Some (new_Signal None None)))
      end
  | _ => ret tt
  end.

Definition Wait__onActivate (this : loc) : M unit :=
  update_class this (fun c =>
    match c with Wait wait _ => Wait wait (Some 0%float) | _ => c end).

(** [a >= b] on numbers *)
Definition number_geb (a b : float) : bool := PrimFloat.leb b a.

(** An [_accumulatedTime] that was never assigned is [undefined], which
    makes the sum [NaN]. *)
Definition Wait__onTick (this : loc) : M unit :=
  c <- field this class ;;
  match c with
  | Wait wait accumulated =>
      lastTickInfo <- field this _lastTickInfo ;;
      lastTickInfo <- defined "this._lastTickInfo" lastTickInfo ;;
      let accumulated :=
        PrimFloat.add (default nan accumulated)
                      (timeSinceLastTick lastTickInfo) in
      update_class this (fun _ => Wait wait (Some accumulated)) ;;
      if number_geb accumulated wait then call (terminate this None)
      else ret tt
  | _ => ret tt
  end.

(** [Block.done(signal = new Signal())] *)
Definition Block_done (this : loc) (signal : option Signal) : M unit :=
  call (terminate this (Some (default (new_Signal None None) signal))).

(** *** [Parallel] *)

(** [Map.prototype.set] *)
Definition Map_set {V} (m : list (nat * V)) (k : nat) (v : V)
  : list (nat * V) :=
  if existsb (fun kv => Nat.eqb (fst kv) k) m
  then List.map (fun kv => if Nat.eqb (fst kv) k then (k, v) else kv) m
  else m ++ [(k, v)].

(** The statements that [addChildChip] and the loop of [_onActivate] have
    in common.  [_infoToChip] is a [Map] keyed by the info object; an info is
    identified here by its position in [_chipActivationInfos]. *)
Definition Parallel_activate_info (this : loc) (i : nat)
    (info : ChipActivationInfo) : M unit :=
  c <- field this class ;;
  match c with
  | Parallel _ _ _ activatedChipCount =>
      (* If no attribute or ID given, make a default one *)
      let infoWithId :=
        if truthy_str (info_attribute info) || truthy_str (info_id info)
        then info
        else info_with_id info (Number_toString activatedChipCount) in
      chip <- Composite__activateChildChip this (info_chip info) infoWithId ;;
      update_class this (fun c =>
        match c with
        | Parallel t infos infoToChip count =>
            Parallel t infos (Map_set infoToChip i chip) (S count)
        | _ => c
        end)
  | _ => ret tt
  end.

(** Add a new chip. If the chip is running, activate it *)
Definition Parallel_addChildChip (this : loc) (info : ChipActivationInfo)
  : M unit :=
  c <- field this class ;;
  match c with
  | Parallel t infos infoToChip count =>
      update_class this (fun _ =>
        Parallel t (infos ++ [info]) infoToChip count) ;;
      state <- field this _state ;;
      if negb (ChipState_eqb state inactive)
      then Parallel_activate_info this (length infos) info
      else ret tt
  | _ => ret tt
  end.

Definition Parallel__onActivate (this : loc) : M unit :=
  c <- field this class ;;
  match c with
  | Parallel terminateOnCompletion infos _ _ =>
      if (length infos =? 0)%nat then
        (* Empty set, stop immediately *)
        when terminateOnCompletion
             (call (terminate this (Some (new_Signal None None))))
      else
        (* Activate all provided chips *)
        forM_ (imap pair infos) (fun '(i, info) =>
          Parallel_activate_info this i info)
  | _ => ret tt
  end.

Definition Parallel__onAfterTick (this : loc) : M unit :=
  c <- field this class ;;
  childChips <- field this _childChips ;;
  match c with
  | Parallel terminateOnCompletion _ _ _ =>
      if (length (obj_keys childChips) =? 0)%nat && terminateOnCompletion
      then call (terminate this (Some (new_Signal None None)))
      else ret tt
  | _ => ret tt
  end.

(** *** [Sequence] *)

Definition set_currentChip (v : option loc) (c : ClassData) : ClassData :=
  match c with
  | Sequence l t infos index _ => Sequence l t infos index v
  | _ => c
  end.

Definition set_currentChipIndex (v : nat) (c : ClassData) : ClassData :=
  match c with
  | Sequence l t infos _ cur => Sequence l t infos v cur
  | _ => c
  end.

Definition Sequence__switchChip (this : loc) : M unit :=
  c <- field this class ;;
  match c with
  | Sequence _ _ _ _ currentChip =>
      (* Stop current chip *)
      match currentChip with
      | Some current =>
          (* The current chip may have already been terminated *)
          childChips <- field this _childChips ;;
          when (0 <? length (obj_keys childChips))%nat
               (Composite__terminateChildChip this current None) ;;
          update_class this (set_currentChip None)
      | None => ret tt
      end ;;
      c <- field this class ;;
      match c with
      | Sequence _ _ infos currentChipIndex _ =>
          match infos !! currentChipIndex with
          | Some info =>
              (* If no attribute or ID given, make a default one *)
              let infoWithId :=
                if truthy_str (info_attribute info)
                   || truthy_str (info_id info)
                then info
                else info_with_id info
                       (Number_toString (length infos - 1)) in
              chip <- Composite__activateChildChip this (info_chip info)
                                                   infoWithId ;;
              update_class this (set_currentChip (Some chip))
          | None => ret tt      (* index >= length *)
          end
      | _ => ret tt
      end
  | _ => ret tt
  end.

Definition Sequence__onActivate (this : loc) : M unit :=
  memento <- field this _reloadMemento ;;
  (* (this._reloadMemento?.data?.currentChipIndex as number) ?? 0 *)
  let index :=
    match memento with
    | Some (mkMemento _ (Some data) _) => default 0%nat (currentChipIndex data)
    | _ => 0%nat
    end in
  update_class this (fun c =>
    set_currentChip None (set_currentChipIndex index c)) ;;
  c <- field this class ;;
  match c with
  | Sequence _ terminateOnCompletion infos _ _ =>
      if (length infos =? 0)%nat then
        (* Empty Sequence, stop immediately *)
        when terminateOnCompletion
             (call (terminate this (Some (new_Signal None None))))
      else
        (* Start the Sequence *)
        Sequence__switchChip this
  | _ => ret tt
  end.

Definition Sequence__advance (this : loc) (signal : Signal) : M unit :=
  update_class this (fun c =>
    match c with
    | Sequence l t infos index cur => Sequence l t infos (S index) cur
    | _ => c
    end) ;;
  Sequence__switchChip this ;;
  c <- field this class ;;
  match c with
  | Sequence loop terminateOnCompletion infos currentChipIndex _ =>
      (* If we've reached the end of the Sequence... *)
      if (length infos <=? currentChipIndex)%nat then
        if loop then
          (* ... and we loop, go back to start *)
          update_class this (set_currentChipIndex 0) ;;
          Sequence__switchChip this
        else if terminateOnCompletion then
          (* otherwise terminate *)
          call (terminate this (Some signal))
        else ret tt
      else ret tt
  | _ => ret tt
  end.

Definition Sequence__onAfterTick (this : loc) : M unit :=
  c <- field this class ;;
  match c with
  | Sequence _ _ _ _ (Some currentChip) =>
      signal <- field currentChip _outputSignal ;;
      match signal with
      | Some signal => Sequence__advance this signal
      | None => ret tt
      end
  | _ => ret tt
  end.

Definition Sequence__onTerminate (this : loc) : M unit :=
  update_class this (set_currentChip None).

(** Skips to the next chip *)
Definition Sequence_skip (this : loc) : M unit :=
  Sequence__advance this (new_Signal (Some "skip") None).

(** Restart the sequence on the first chip *)
Definition Sequence_restart (this : loc) : M unit :=
  update_class this (set_currentChipIndex 0) ;;
  Sequence__switchChip this.

(** Add a new chip to the sequence *)
Definition Sequence_addChildChip (this : loc) (info : ChipActivationInfo)
  : M unit :=
  update_class this (fun c =>
    match c with
    | Sequence l t infos index cur => Sequence l t (infos ++ [info]) index cur
    | _ => c
    end) ;;
  state <- field this _state ;;
  c <- field this class ;;
  match c with
  | Sequence _ _ _ _ None =>
      if negb (ChipState_eqb state inactive)
      then Sequence__switchChip this      (* Pick up with the next chip *)
      else ret tt
  | _ => ret tt
  end.

(** *** [StateMachine] *)

(** [this._activateChildChip(undefined, { context: undefined, inputSignal,
    id })] for an [id] that is a name of [Object.prototype]: this is what
    [_changeState] calls when [this._states[name]] is an inherited member,
    which has neither [chip] nor [context].  Such an id is not empty, does
    not end with the array marker, and is found [in this._childChips]. *)
Definition Composite__activateChildChip_undefined (this : loc) (id : string)
  : M loc :=
  state <- field this _state ;;
  if ChipState_eqb state inactive then throw CompositeInactiveError else
  childChips <- field this _childChips ;;
  if obj_has childChips id then throw DuplicateIdError
  else unmodelled.

(** [this._transitions[name]] for a name that the table inherits from
    [Object.prototype], taken for a signal descriptor.  [__proto__] is the
    object [Object.prototype] itself, the other names are functions, called
    with [(this._chipContext, signal)] and without [this]: [toString] returns
    the string ["[object Undefined]"]; [constructor] returns the context
    object; the others convert the missing [this] to an object, which
    throws.  The result is [None] for a value that has neither [params] nor
    [name]. *)
Definition inherited_descriptor (n : string) : M (option Signal) :=
  if String.eqb n "__proto__" || String.eqb n "toString" then ret None
  else if String.eqb n "constructor" then unmodelled
  else throw (TypeError "Cannot convert undefined or null to object").

(** [this.options.endingStates?.includes(name)] *)
Definition includes (endingStates : option (list string)) (n : string)
  : bool :=
  match endingStates with
  | Some l => existsb (String.eqb n) l
  | None => false
  end.

Definition StateMachine__changeState (this : loc) (nextState : Signal)
  : M unit :=
  c <- field this class ;;
  match c with
  | StateMachine _ _ _ _ _ activeChildChip _ =>
      (* Stop current state *)
      match activeChildChip with
      | Some activeChild =>
          (* The state may have already been terminated, if terminated *)
          childChips <- field this _childChips ;;
          when (0 <? length (obj_keys childChips))%nat
               (Composite__terminateChildChip this activeChild None) ;;
          update_class this (fun c =>
            match c with
            | StateMachine s t st e v _ l => StateMachine s t st e v None l
            | _ => c
            end)
      | None => ret tt
      end ;;
      c <- field this class ;;
      match c with
      | StateMachine states _ _ endingStates _ _ _ =>
          (* If reached an ending state, stop here. *)
          if includes endingStates (name nextState) then
            update_class this (fun c =>
              match c with
              | StateMachine s t st e v a _ =>
                  StateMachine s t st e (v ++ [nextState]) a (Some nextState)
              | _ => c
              end) ;;
            (* Terminate with signal *)
            call (terminate this (Some nextState))
          else if negb (obj_has states (name nextState)) then
            throw (UnknownStateError (name nextState))
          else
            match obj_get states (name nextState) with
            | Some nextStateContext =>
                chip <- Composite__activateChildChip this
                          (info_chip nextStateContext)
                          (mkInfo (info_chip nextStateContext)
                                  (info_context nextStateContext)
                                  (Some nextState) None None
                                  (Some (name nextState)) None None) ;;
                update_class this (fun c =>
                  match c with
                  | StateMachine s t st e v _ l =>
                      StateMachine s t st e v (Some chip) l
                  | _ => c
                  end) ;;
                c <- field this class ;;
                match c with
                | StateMachine _ _ _ _ _ _ previousSignal =>
                    update_class this (fun c =>
                      match c with
                      | StateMachine s t st e v a _ =>
                          StateMachine s t st e (v ++ [nextState]) a
                                       (Some nextState)
                      | _ => c
                      end) ;;
                    EventEmitter_emit this "stateChange"
                      [ArgSignal previousSignal; ArgSignal (Some nextState)]
                | _ => ret tt
                end
            | None =>
                (* [this._states[name]] is a member of [Object.prototype] *)
                _ <- Composite__activateChildChip_undefined this
                       (name nextState) ;;
                ret tt
            end
      | _ => ret tt
      end
  | _ => ret tt
  end.

(** The entries of the context a chip was activated with. *)
Definition context_entries (this : loc) : M (gmap string any) :=
  chipContext <- field this _chipContext ;;
  gets (fun s => match chipContext with
                 | Some l => ctx_read (contexts s) l
                 | None => ∅
                 end).

Definition StateMachine__onAfterTick (this : loc) : M unit :=
  c <- field this class ;;
  match c with
  | StateMachine states transitions _ endingStates _ (Some activeChild)
                 lastSignal =>
      signal <- field activeChild _outputSignal ;;
      match signal, lastSignal with
      | Some signal, Some lastSignal =>
          nextStateDescriptor <-
            (if negb (obj_has transitions (name lastSignal)) then
               (* The signal could directly be the name of another state,
                  or ending state *)
               if obj_has states (name signal)
                  || includes endingStates (name signal)
               then ret (Some signal)
               else throw (UnknownSignalError (name signal))
             else
               match obj_get transitions (name lastSignal) with
               | Some (SignalFunction f) =>
                   entries <- context_entries this ;;
                   ret (Some (f entries signal))
               | Some (SignalLiteral descriptor) => ret (Some descriptor)
               | None => inherited_descriptor (name lastSignal)
               end) ;;
          (* Unpack the next state *)
          let nextState :=
            match nextStateDescriptor with
            | Some nextStateDescriptor =>
                if isEmpty (params nextStateDescriptor) then
                  (* By default, pass through the params in the input
                     signal *)
                  new_Signal (Some (name nextStateDescriptor))
                             (Some (params signal))
                else nextStateDescriptor
            | None => new_Signal None (Some (params signal))
            end in
          StateMachine__changeState this nextState
      | _, _ => ret tt
      end
  | _ => ret tt
  end.

Definition StateMachine__onTerminate (this : loc) : M unit :=
  update_class this (fun c =>
    match c with
    | StateMachine s t st e v _ _ => StateMachine s t st e v None None
    | _ => c
    end).

(** Switch directly to a new state, terminating the current one *)
Definition StateMachine_changeState (this : loc) (nextState : string + Signal)
  : M unit :=
  StateMachine__changeState this
    match nextState with
    | inl n => new_Signal (Some n) None
    | inr s => s
    end.

(** *** [Alternative] *)

Definition Alternative__onChildTerminated (this : loc) (index : nat)
  : M unit :=
  c <- field this class ;;
  match c with
  | Alternative infos =>
      match infos !! index with
      | Some info =>
          let terminateWith :=
            default (new_Signal (Some (Number_toString index)) None)
                    (info_signal info) in
          call (terminate this (Some terminateWith))
      | None => throw (TypeError "this._chipActivationInfos[index] is undefined")
      end
  | _ => ret tt
  end.

Definition Alternative__onActivate (this : loc) : M unit :=
  c <- field this class ;;
  match c with
  | Alternative infos =>
      forM_ (imap pair infos) (fun '(i, chipActivationInfo) =>
        (* chipActivationInfo.context ?? {} *)
        entries <- gets (fun s =>
          match info_context chipActivationInfo with
          | Some (CtxObject l) => ctx_read (contexts s) l
          | _ => ∅
          end) ;;
        chip <- resolveChip (info_chip chipActivationInfo) entries ;;
        match chip with
        | None => ret tt                                   (* continue *)
        | Some chip =>
            ChipBase__subscribe this (EChip chip) "terminated"
                                (OnChildTerminated this i) None ;;
            _ <- Composite__activateChildChip this
                   (info_chip chipActivationInfo)
                   (mkInfo (info_chip chipActivationInfo)
                           (info_context chipActivationInfo)
                           None None None None None None) ;;
            ret tt
        end)
  | _ => ret tt
  end.

(** *** [Queue] *)

Definition item_state_is (s : St) (v : QueueItemState) (i : itemloc) : bool :=
  match items s !! i, v with
  | Some (mkQueueItem running _ _), running => true
  | Some (mkQueueItem finished _ _), finished => true
  | Some (mkQueueItem waiting _ _), waiting => true
  | _, _ => false
  end.

Definition Queue_isEmpty (this : loc) : M bool :=
  c <- field this class ;;
  match c with
  | Queue queue => ret (length queue =? 0)%nat
  | _ => ret true
  end.

(** [add(item, context = this.chipContext)] *)
Definition Queue_add (this : loc) (item : ChipResolvable)
    (context : option ctxloc) : M unit :=
  own <- field this _chipContext ;;
  let context := match context with Some l => Some l | None => own end in
  i <- alloc_item (mkQueueItem waiting context item) ;;
  update_class this (fun c =>
    match c with Queue queue => Queue (queue ++ [i]) | _ => c end).

(** Terminates the currently running chip, and starts the next one. *)
Definition Queue_next (this : loc) : M unit :=
  c <- field this class ;;
  match c with
  | Queue queue =>
      if (length queue =? 0)%nat then ret tt else
      s <- gets id ;;
      match List.find (item_state_is s running) queue with
      | Some i =>
          item <- the_item i ;;
          let entries := match q_context item with
                         | Some l => ctx_read (contexts s) l
                         | None => ∅
                         end in
          chip <- resolveChip (q_entityResolvable item) entries ;;
          match chip with
          | Some chip => call (terminate chip None)
          | None => ret tt
          end
      | None => ret tt
      end
  | _ => ret tt
  end.

Definition Queue__activateItem (this : loc) (i : itemloc) : M unit :=
  set_item_state i running ;;
  item <- the_item i ;;
  lambda <- new (new_Lambda (FinishItem i)) ;;
  sequence <- new (new_Sequence [info_of (q_entityResolvable item);
                                 info_of (RChip lambda)] None None) ;;
  _ <- Composite__activateChildChip this (RChip sequence)
         (mkInfo (RChip sequence) (CtxObject <$> q_context item)
                 None None None None None None) ;;
  ret tt.

Definition Queue__onTick (this : loc) : M unit :=
  s <- gets id ;;
  update_class this (fun c =>
    match c with
    | Queue queue =>
        Queue (List.filter (fun i => negb (item_state_is s finished i)) queue)
    | _ => c
    end) ;;
  c <- field this class ;;
  match c with
  | Queue (i :: _) =>
      if negb (item_state_is s waiting i) then ret tt
      else Queue__activateItem this i
  | _ => ret tt
  end.

Definition Queue__onTerminate (this : loc) : M unit :=
  update_class this (fun c => match c with Queue _ => Queue [] | _ => c end).

(** *** Template methods

    The hooks [_onActivate], [_onTick], [_onTerminate] and [_onAfterTick],
    resolved on the class of the receiver; a class that does not overload a
    hook inherits the no-op.  No class of the module overloads [_onPause]
    or [_onResume]. *)

Definition _onActivate (this : loc) : M unit :=
  c <- field this class ;;
  match c with
  | Transitory _ => Transitory__onActivate this
  | Lambda _ => Lambda__onActivate this
  | Wait _ _ => Wait__onActivate this
  | Parallel _ _ _ _ => Parallel__onActivate this
  | Sequence _ _ _ _ _ => Sequence__onActivate this
  | Alternative _ => Alternative__onActivate this
  | _ => ret tt
  end.

Definition _onTick (this : loc) : M unit :=
  c <- field this class ;;
  match c with
  | Wait _ _ => Wait__onTick this
  | Queue _ => Queue__onTick this
  | _ => ret tt
  end.

Definition _onTerminate (this : loc) : M unit :=
  c <- field this class ;;
  match c with
  | Sequence _ _ _ _ _ => Sequence__onTerminate this
  | StateMachine _ _ _ _ _ _ _ => StateMachine__onTerminate this
  | Queue _ => Queue__onTerminate this
  | _ => ret tt
  end.

Definition _onAfterTick (this : loc) : M unit :=
  c <- field this class ;;
  match c with
  | Parallel _ _ _ _ => Parallel__onAfterTick this
  | Sequence _ _ _ _ _ => Sequence__onAfterTick this
  | StateMachine _ _ _ _ _ _ _ => StateMachine__onAfterTick this
  | _ => ret tt
  end.

Definition _onPause (this : loc) : M unit := ret tt.
Definition _onResume (this : loc) : M unit := ret tt.

(** *** [ChipBase]: the lifecycle *)

Definition ChipBase_activate (this : loc) (tickInfo : TickInfo)
    (chipContext : ctxloc) (inputSignal : option Signal)
    (reloadMemento : option ReloadMemento) : M unit :=
  state <- field this _state ;;
  if negb (ChipState_eqb state inactive)
  then throw (InvalidStateError "activate" state) else
  update this (fun c =>
    set_outputSignal None
      (set_state active
         (set_inputSignal inputSignal
            (set_lastTickInfo (Some tickInfo)
               (set_chipContext (Some chipContext) c))))) ;;
  c <- field this class ;;
  update this (set_reloadMemento
    match reloadMemento with
    | Some m =>
        if String.eqb (memento_className m) (constructor_name c)
        then Some m else None
    | None => None
    end) ;;
  _onActivate this ;;
  ChipBase__subscribe this EWindow "resize" (OnResize this) None ;;
  ChipBase_resize this ;;
  EventEmitter_emit this "activated" [ArgSignal inputSignal].

Definition ChipBase_tick (this : loc) (tickInfo : TickInfo) : M unit :=
  state <- field this _state ;;
  if ChipState_eqb state paused then ret tt else
  if negb (ChipState_eqb state active)
  then throw (InvalidStateError "tick" state) else
  update this (set_lastTickInfo (Some tickInfo)) ;;
  _onTick this.

(** [terminate(outputSignal = new Signal())] *)
Definition ChipBase_terminate (this : loc) (outputSignal : option Signal)
  : M unit :=
  let outputSignal := default (new_Signal None None) outputSignal in
  state <- field this _state ;;
  if negb (ChipState_eqb state active) && negb (ChipState_eqb state paused)
  then throw (InvalidStateError "terminate" state) else
  update this (set_outputSignal (Some outputSignal)) ;;
  _onTerminate this ;;
  ChipBase__unsubscribe this None None None ;;  (* Remove all event listeners *)
  update this (set_state inactive) ;;
  signal <- field this _outputSignal ;;
  EventEmitter_emit this "terminated" [ArgSignal signal].

Definition ChipBase_pause (this : loc) : M unit :=
  state <- field this _state ;;
  if negb (ChipState_eqb state active)
  then throw (InvalidStateError "pause" state) else
  update this (set_state paused) ;;
  _onPause this.

Definition ChipBase_resume (this : loc) : M unit :=
  state <- field this _state ;;
  if negb (ChipState_eqb state paused)
  then throw (InvalidStateError "resume" state) else
  update this (set_state active) ;;
  _onResume this.

(** *** [Composite]: the lifecycle *)

Definition Composite_activate (this : loc) (tickInfo : TickInfo)
    (chipContext : ctxloc) (inputSignal : option Signal)
    (reloadMemento : option ReloadMemento) : M unit :=
  update this (set_childChips []) ;;
  childChipContext <- alloc_context ∅ ;;
  update this (set_childChipContext (Some childChipContext)) ;;
  update this (set_methodCallInProgress true) ;;
  ChipBase_activate this tickInfo chipContext inputSignal reloadMemento ;;
  update this (set_methodCallInProgress false) ;;
  preparation <- field this _preparation ;;
  update this (set_isReady
    match preparation with None => true | Some _ => false end) ;;
  match preparation with
  | Some preparation =>
      lambda <- new (new_Lambda (SetReady this)) ;;
      sequence <- new (new_Sequence [info_of preparation;
                                     info_of (RChip lambda)] None None) ;;
      _ <- Composite__activateChildChip this (RChip sequence)
             (info_of (RChip sequence)) ;;
      ret tt
  | None => ret tt
  end.

Definition Composite_tick (this : loc) (tickInfo : TickInfo) : M unit :=
  state <- field this _state ;;
  if ChipState_eqb state paused then ret tt else
  if negb (ChipState_eqb state active)
  then throw (InvalidStateError "tick" state) else
  deferred <- field this _deferredOutputSignal ;;
  match deferred with
  | Some _ => call (terminate this deferred)
  | None =>
      update this (set_lastTickInfo (Some tickInfo)) ;;
      _onTick this ;;
      update this (set_methodCallInProgress true) ;;
      Composite__tickChildChips this ;;
      update this (set_methodCallInProgress false) ;;
      _onAfterTick this
  end.

Definition Composite_terminate (this : loc) (outputSignal : option Signal)
  : M unit :=
  let outputSignal := default (new_Signal None None) outputSignal in
  (* Can't just call super.terminate() here, the order is slightly different *)
  state <- field this _state ;;
  if negb (ChipState_eqb state active) && negb (ChipState_eqb state paused)
  then throw (InvalidStateError "terminate" state) else
  inProgress <- field this _methodCallInProgress ;;
  if inProgress then
    update this (set_deferredOutputSignal (Some outputSignal))
  else
    update this (fun c => set_isReady false (set_state inactive c)) ;;
    ChipBase__unsubscribe this None None None ;; (* Remove all event listeners *)
    Composite__terminateAllChildChips this None ;;
    update this (set_outputSignal (Some outputSignal)) ;;
    _onTerminate this ;;
    signal <- field this _outputSignal ;;
    EventEmitter_emit this "terminated" [ArgSignal signal].

Definition Composite_pause (this : loc) : M unit :=
  ChipBase_pause this ;;
  Composite__removeTerminatedChildChips this ;;
  childChips <- field this _childChips ;;
  forM_ (obj_values childChips) (fun child => call (pause child)).

Definition Composite_resume (this : loc) : M unit :=
  ChipBase_resume this ;;
  Composite__removeTerminatedChildChips this ;;
  childChips <- field this _childChips ;;
  forM_ (obj_values childChips) (fun child => call (resume child)).

(** [StateMachine.activate] overrides [Composite.activate]. *)
Definition StateMachine_activate (this : loc) (tickInfo : TickInfo)
    (chipContext : ctxloc) (inputSignal : option Signal)
    (reloadMemento : option ReloadMemento) : M unit :=
  Composite_activate this tickInfo chipContext inputSignal reloadMemento ;;
  update_class this (fun c =>
    match c with
    | StateMachine s t st e _ a l => StateMachine s t st e [] a l
    | _ => c
    end) ;;
  memento <- field this _reloadMemento ;;
  match memento with
  | Some m =>
      let visited :=
        match memento_data m with
        | Some data => default [] (visitedStates data)
        | None => []
        end in
      update_class this (fun c =>
        match c with
        | StateMachine s t st e _ a l => StateMachine s t st e visited a l
        | _ => c
        end) ;;
      StateMachine__changeState this
        (default (new_Signal None None) (last visited))
  | None =>
      c <- field this class ;;
      match c with
      | StateMachine _ _ (SignalFunction f) _ _ _ _ =>
          entries <- gets (fun s => ctx_read (contexts s) chipContext) ;;
          StateMachine__changeState this (f entries (new_Signal None None))
      | StateMachine _ _ (SignalLiteral startingState) _ _ _ _ =>
          StateMachine__changeState this startingState
      | _ => ret tt
      end
  end.

(** The listener closures. *)
Definition apply_closure (f : Closure) : M unit :=
  match f with
  | OnResize this => ChipBase_resize this
  | OnChildTerminated this index => Alternative__onChildTerminated this index
  | SpliceAttribute this attributeName chip =>
      attrs <- field this attributes ;;
      match obj_get attrs attributeName with
      | Some (AttrArray a) =>
          (* indexOf, then splice(index, 1); splice(-1, 1) removes the
             last element *)
          let a' :=
            match list_find (Nat.eqb chip) a with
            | Some (index, _) => take index a ++ drop (S index) a
            | None => removelast a
            end in
          set_attribute this attributeName (AttrArray a')
      | _ => throw (TypeError "attributeAsArray.indexOf is not a function")
      end
  | DeleteAttribute this attributeName =>
      update this (fun c =>
        set_attributes (obj_delete (attributes c) attributeName) c)
  | DeleteChildContext this providedId =>
      childChipContext <- field this _childChipContext ;;
      match childChipContext with
      | Some l => update_context l (delete providedId)
      | None => throw (TypeError "this._childChipContext is undefined")
      end
  end.

(** Resolution of a virtual call on the class of the receiver. *)
Definition dispatch (c : Call) : M unit :=
  match c with
  | activate this tickInfo chipContext inputSignal reloadMemento =>
      k <- field this class ;;
      match k with
      | StateMachine _ _ _ _ _ _ _ =>
          StateMachine_activate this tickInfo chipContext inputSignal
                                reloadMemento
      | _ =>
          if is_Composite k
          then Composite_activate this tickInfo chipContext inputSignal
                                  reloadMemento
          else ChipBase_activate this tickInfo chipContext inputSignal
                                 reloadMemento
      end
  | tick this tickInfo =>
      k <- field this class ;;
      if is_Composite k then Composite_tick this tickInfo
      else ChipBase_tick this tickInfo
  | terminate this outputSignal =>
      k <- field this class ;;
      if is_Composite k then Composite_terminate this outputSignal
      else ChipBase_terminate this outputSignal
  | pause this =>
      k <- field this class ;;
      if is_Composite k then Composite_pause this else ChipBase_pause this
  | resume this =>
      k <- field this class ;;
      if is_Composite k then Composite_resume this else ChipBase_resume this
  | invoke cb => apply_closure (cb_code cb)
  end.

End Methods.

(** The virtual call with [fuel] levels of nesting. *)
Fixpoint call (fuel : nat) (c : Call) : M unit :=
  match fuel with
  | O => fun _ => OutOfFuel
  | S fuel' => dispatch (call fuel') c
  end.

(** * Specifications and scenarios

    The definitions the properties are stated with: the readings of a run,
    the rules of the specification written as functions, and the scenarios
    built from the constructors of the module. *)

(** ** Context merging ([processChipContext]) *)

(** The entries that one alteration yields from the entries [acc]
    accumulated so far, with the objects read in the store [cs]. *)
Definition altered_entries (cs : CtxStore) (acc : gmap string any)
    (alteredContext : option ChipContextResolvable) : gmap string any :=
  match alteredContext with
  | None => acc
  | Some (CtxObject l) => ctx_read cs l ∪ acc
  | Some (CtxFactory f) => default acc (f acc)
  end.

(** An alteration given as an object names an object of the store. *)
Definition allocated (cs : CtxStore)
    (alteredContext : option ChipContextResolvable) : Prop :=
  match alteredContext with
  | Some (CtxObject l) => (l < length cs)%nat
  | _ => True
  end.

(** The base context [{a: 1, b: 2}] merged with [{b: 3}], [undefined], a
    factory that adds [d] and [{a: 4, c: 5}]. *)
Definition C7_store : CtxStore :=
  [ {[ "a" := ANum 1; "b" := ANum 2 ]};
    {[ "b" := ANum 3 ]};
    {[ "a" := ANum 4; "c" := ANum 5 ]} ].

Definition C7_alterations : list (option ChipContextResolvable) :=
  [ Some (CtxObject 1%nat); None;
    Some (CtxFactory (fun o => Some (<["d" := ABool true]> o)));
    Some (CtxObject 2%nat) ].

(** ** Reading the outcome of a run *)

(** The value of a field of the chip at [l], when the run returned. *)
Definition after {A B} (r : Res A) (l : loc) (f : Chip -> B) : option B :=
  match r with
  | Ok _ s => f <$> chips s !! l
  | _ => None
  end.

(** The state in which a run stopped, by returning or by throwing. *)
Definition final {A} (r : Res A) : option St :=
  match r with
  | Ok _ s | Throw _ s => Some s
  | OutOfFuel | Unmodelled => None
  end.

(** The value of a field of the chip at [l] in the store in which a run
    stopped, by returning or by throwing. *)
Definition finally {A B} (r : Res A) (l : loc) (f : Chip -> B) : option B :=
  match final r with
  | Some s => f <$> chips s !! l
  | None => None
  end.

Definition returned {A} (r : Res A) : bool :=
  match r with Ok _ _ => true | _ => false end.

Definition thrown {A} (r : Res A) : option Error :=
  match r with Throw e _ => Some e | _ => None end.

(** How many times [source] emitted [event]. *)
Definition count_emitted (s : St) (source : loc) (event : string) : nat :=
  length (List.filter
            (fun e => Nat.eqb (e_source e) source && String.eqb (e_event e) event)
            (emitted s)).

(** ** Selective unsubscription ([ChipBase._unsubscribe]) *)

(** A tracked listener matches one of the filters that were provided. *)
Definition matches_a_filter (emitter : option Emitter) (event : option string)
    (cb : option Callback) (listener : IEventListener) : bool :=
  negb (unsubscribe_condition emitter event cb listener).

(** A chip (at 2) that listens to ["a"] and ["b"] on the chip at 0 and to
    ["c"] on the chip at 1. *)
Definition C10_setup : M loc :=
  e1 <- new new_Forever ;;
  e2 <- new new_Forever ;;
  this <- new new_Forever ;;
  ChipBase__subscribe this (EChip e1) "a" (OnResize this) None ;;
  ChipBase__subscribe this (EChip e1) "b" (OnResize this) None ;;
  ChipBase__subscribe this (EChip e2) "c" (OnResize this) None ;;
  ret this.

Definition tracked (c : Chip) : list (Emitter * string) :=
  List.map (fun l => (l_emitter l, l_event l)) (_eventListeners c).

Definition registered (c : Chip) : list string :=
  List.map r_event (_listeners c).

(** ** The guard of [_activateChildChip] and [_terminateChildChip] *)

(** A [Parallel] over one [Forever] child, activated, and a second [Forever]
    chip that is not yet a child. *)
Definition C8_setup (fuel : nat) : M (loc * loc * loc) :=
  context <- alloc_context ∅ ;;
  child <- new new_Forever ;;
  other <- new new_Forever ;;
  parent <- new (new_Parallel [info_of (RChip child)] None) ;;
  call fuel (activate parent (mkTickInfo 0) context None None) ;;
  ret (parent, child, other).

(** The store after that parent has been terminated. *)
Definition C8_terminated : St :=
  default empty_store
    (final ((x <- C8_setup 5 ;; call 5 (terminate x.1.1 None)) empty_store)).

(** ** Deferred termination of composites *)

(** An [Alternative] over a [Wait] of one millisecond and a [Forever],
    activated. *)
Definition C1_setup (fuel : nat) : M loc :=
  context <- alloc_context ∅ ;;
  first <- new (new_Wait 1) ;;
  second <- new new_Forever ;;
  this <- new (new_Alternative [info_of (RChip first); info_of (RChip second)]) ;;
  call fuel (activate this (mkTickInfo 0) context None None) ;;
  ret this.

(** The composite of the witness: a [Parallel] in the middle of its
    activation. *)
Definition C1_in_progress : St :=
  set_chips
    [set_methodCallInProgress true (set_state active
       (fresh (Parallel true [] [] 0)))]
    empty_store.

(** ** [Parallel] over no children *)

(** [new Parallel([])], with the default options, in a store that holds the
    context it will be given. *)
Definition C2_setup (entries : gmap string any) : M (ctxloc * loc) :=
  context <- alloc_context entries ;;
  this <- new (new_Parallel [] None) ;;
  ret (context, this).

Definition C2_activated (fuel : nat) (entries : gmap string any)
    (tickInfo : TickInfo) (inputSignal : option Signal)
    (reloadMemento : option ReloadMemento) : M loc :=
  x <- C2_setup entries ;;
  call fuel (activate x.2 tickInfo x.1 inputSignal reloadMemento) ;;
  ret x.2.

(** ** [Alternative] *)

(** An [Alternative] over a [Transitory] chip, which terminates during its
    own activation, and a [Forever] chip, which never terminates on its own;
    each entry may carry an outcome signal. *)
Definition C3_setup (fuel : nat) (terminateSignal outcome outcome' : option Signal)
  : M loc :=
  context <- alloc_context ∅ ;;
  first <- new (new_Transitory terminateSignal) ;;
  second <- new new_Forever ;;
  this <- new (new_Alternative
                 [mkInfo (RChip first) None None None None None None outcome;
                  mkInfo (RChip second) None None None None None None
                         outcome']) ;;
  call fuel (activate this (mkTickInfo 0) context None None) ;;
  ret this.

(** ** [StateMachine]: routing on the termination of the active state *)

(** The next state for a descriptor: a descriptor without parameters takes
    the parameters of the terminating signal. *)
Definition unpack (descriptor signal : Signal) : Signal :=
  if isEmpty (params descriptor)
  then new_Signal (Some (name descriptor)) (Some (params signal))
  else descriptor.

(** The routing rule in the words of the specification: the entry of the
    transition table for the previously active state decides (a literal
    signal, or a function of the context and the terminating signal);
    without an entry, the terminating signal is itself the next state if its
    name is a declared state or a declared ending state, and there is no next
    state otherwise.  An entry of a table, and a declared state, is an own
    property of the object the machine was built from. *)
Definition routed (states : JSObject ChipActivationInfo)
    (transitions : JSObject SignalDescriptor)
    (endingStates : option (list string)) (entries : gmap string any)
    (previous signal : Signal) : option Signal :=
  match obj_get transitions (name previous) with
  | Some (SignalLiteral descriptor) => Some (unpack descriptor signal)
  | Some (SignalFunction f) => Some (unpack (f entries signal) signal)
  | None =>
      if obj_own states (name signal) || includes endingStates (name signal)
      then Some (unpack signal signal)
      else None
  end.

Definition window_listener (l : IEventListener) : Prop :=
  l_emitter l = EWindow /\ l_subscriptionHandler l = EventTargetSubscriptionHandler.

Definition revoke_on_window (w : list Registration) (tracked : list IEventListener)
  : list Registration :=
  fold_left (fun w l =>
               List.filter (fun r => negb (same_registration (l_event l) (l_cb l) r)) w)
            tracked w.

Definition terminated_machine (nextState : Signal) (c : Chip) : Chip :=
  set_class
    match class c with
    | StateMachine s t st e v _ _ => StateMachine s t st e (v ++ [nextState]) None None
    | k => k
    end
    (set_outputSignal (Some nextState)
       (set_childChips []
          (set_eventListeners []
             (set_isReady false (set_state inactive c))))).

Definition without_activeChild (c : Chip) : Chip :=
  set_class
    match class c with
    | StateMachine s t st e v _ l => StateMachine s t st e v None l
    | k => k
    end c.

Definition entered (nextState : Signal) (chip : loc) (c : Chip) : Chip :=
  set_class
    match class c with
    | StateMachine s t st e v _ _ =>
        StateMachine s t st e (v ++ [nextState]) (Some chip) (Some nextState)
    | k => k
    end c.

Definition previous_of (c : Chip) : option Signal :=
  match class c with
  | StateMachine _ _ _ _ _ _ l => l
  | _ => None
  end.

(** The machine of the specification: states [start] and [middle], no
    transition table, ending state [end]; the chip under [start] terminates
    with the signal [end], which carries a parameter. *)
Definition C4_end : Signal := new_Signal (Some "end") (Some {[ "x" := ANum 1 ]}).

Definition C4_machine (fuel : nat) : M loc :=
  context <- alloc_context ∅ ;;
  first <- new (new_Transitory (Some C4_end)) ;;
  second <- new new_Forever ;;
  this <- new (new_StateMachine
                 [("start", info_of (RChip first));
                  ("middle", info_of (RChip second))]
                 (SignalLiteral (new_Signal (Some "start") None))
                 None (Some ["end"])) ;;
  call fuel (activate this (mkTickInfo 0) context None None) ;;
  ret this.

(** A machine whose only state, [start], is a chip that terminates with a
    signal named ["toString"]: a name that is neither a declared state nor a
    declared ending state, and a property of [Object.prototype]. *)
Definition C4_states : list (string * ChipActivationInfo) :=
  [("start", info_of (RChip 0%nat))].

Definition C4_toString (fuel : nat) : M loc :=
  context <- alloc_context ∅ ;;
  first <- new (new_Transitory (Some (new_Signal (Some "toString") None))) ;;
  this <- new (new_StateMachine C4_states
                 (SignalLiteral (new_Signal (Some "start") None))
                 None (Some ["end"])) ;;
  call fuel (activate this (mkTickInfo 0) context None None) ;;
  ret this.

Definition activeChildChip_of (c : Chip) : option loc :=
  match class c with
  | StateMachine _ _ _ _ _ a _ => a
  | _ => None
  end.

(** The store of that machine when its first tick reaches the after-tick
    hook. *)
Definition C4_before_hook : St := Eval lazy in
  default empty_store
    (final ((this <- C4_machine 5 ;;
             update this (set_lastTickInfo (Some (mkTickInfo 1))) ;;
             update this (set_methodCallInProgress true) ;;
             Composite__tickChildChips (call 5) this ;;
             update this (set_methodCallInProgress false)) empty_store)).

Definition visited_of (c : Chip) : list string :=
  match class c with
  | StateMachine _ _ _ _ v _ _ => List.map name v
  | _ => []
  end.

(** A machine with a transition table: [start] leads to the literal signal
    [middle], and [middle] to what a function makes of the terminating
    signal, here the ending state [end] with the parameters of that signal. *)
Definition routed_machine (fuel : nat) : M loc :=
  context <- alloc_context ∅ ;;
  first <- new (new_Transitory (Some (new_Signal (Some "anything") None))) ;;
  second <- new (new_Transitory (Some C4_end)) ;;
  this <- new (new_StateMachine
                 [("start", info_of (RChip first));
                  ("middle", info_of (RChip second))]
                 (SignalLiteral (new_Signal (Some "start") None))
                 (Some [("start", SignalLiteral (new_Signal (Some "middle") None));
                        ("middle",
                         SignalFunction (fun _ signal =>
                           new_Signal (Some "end") (Some (params signal))))])
                 (Some ["end"])) ;;
  call fuel (activate this (mkTickInfo 0) context None None) ;;
  ret this.

(** ** [Sequence] over two [Wait] chips *)

(** A [Sequence] over two [Wait] chips, of [d1] and [d2] milliseconds, with
    the default options, activated. *)
Definition C5_setup (fuel : nat) (d1 d2 : float) : M loc :=
  context <- alloc_context ∅ ;;
  A <- new (new_Wait d1) ;;
  B <- new (new_Wait d2) ;;
  this <- new (new_Sequence [info_of (RChip A); info_of (RChip B)] None None) ;;
  call fuel (activate this (mkTickInfo 0) context None None) ;;
  ret this.

(** The ticks [ts], delivered in order. *)
Arguments C5_setup fuel%_nat (d1 d2)%_float.

Definition ticks (fuel : nat) (this : loc) (ts : list float) : M unit :=
  forM_ ts (fun t => call fuel (tick this (mkTickInfo t))).

(** The stores a run goes through differ only in the numbers held by the
    two [Wait] chips and in the last tick recorded; [set_wait] and [set_tick]
    write these fields. *)
Definition set_wait (l : loc) (wait accumulated lastTick : float) (s : St)
  : St :=
  set_chips
    (alter (fun c => set_lastTickInfo (Some (mkTickInfo lastTick))
                       (set_class (Wait wait (Some accumulated)) c)) l (chips s)) s.

Definition set_tick (l : loc) (lastTick : float) (s : St) : St :=
  set_chips (alter (set_lastTickInfo (Some (mkTickInfo lastTick))) l (chips s)) s.

(** The store after the activation, the store after the tick that ends the
    first child, and the store after the tick that ends the second one, the
    last two computed for durations of zero. *)
Definition C5_first (d1 d2 : float) : St := Eval lazy in
  default empty_store (final (C5_setup 5 d1 d2 empty_store)).

Definition C5_second : St := Eval lazy in
  default empty_store
    (final ((this <- C5_setup 5 0 0 ;; ticks 5 this [0%float]) empty_store)).

Definition C5_done : St := Eval lazy in
  default empty_store
    (final ((this <- C5_setup 5 0 0 ;; ticks 5 this [0%float; 0%float])
              empty_store)).

(** While the first child runs, with [acc] accumulated and [lt] as the last
    tick; while the second child runs; when the sequence is complete. *)
Definition C5_running_first (d1 d2 acc lt : float) : St :=
  set_tick 2 lt (set_wait 0 d1 acc lt (C5_first d1 d2)).
Definition C5_running_second (d1 d2 acc1 lt1 acc lt : float) : St :=
  set_tick 2 lt (set_wait 1 d2 acc lt (set_wait 0 d1 acc1 lt1 C5_second)).
Definition C5_complete (d1 d2 acc1 lt1 acc2 lt2 : float) : St :=
  set_tick 2 lt2 (set_wait 1 d2 acc2 lt2 (set_wait 0 d1 acc1 lt1 C5_done)).

(** A [Wait] of duration [d] that has accumulated [accumulated] is ticked
    through [ts] and reaches its duration exactly at the last of them. *)
Fixpoint ends_wait (d accumulated : float) (ts : list float) : bool :=
  match ts with
  | [] => false
  | t :: ts' =>
      match ts' with
      | [] => number_geb (PrimFloat.add accumulated t) d
      | _ :: _ =>
          negb (number_geb (PrimFloat.add accumulated t) d)
          && ends_wait d (PrimFloat.add accumulated t) ts'
      end
  end.

(** A [Sequence] over two [Transitory] chips (at 0 and 1), which end with
    the signals they were given, activated. *)
Definition Sequence_of_two (fuel : nat) (entries : gmap string any)
    (signal1 signal2 : option Signal) (loop terminateOnCompletion : option bool)
    (tickInfo : TickInfo) : M loc :=
  context <- alloc_context entries ;;
  A <- new (new_Transitory signal1) ;;
  B <- new (new_Transitory signal2) ;;
  this <- new (new_Sequence [info_of (RChip A); info_of (RChip B)]
                            loop terminateOnCompletion) ;;
  call fuel (activate this tickInfo context None None) ;;
  ret this.

(** How many children [this] has activated. *)
Definition activations {A} (r : Res A) (this : loc) : nat :=
  match final r with
  | Some s => count_emitted s this "activatedChildChip"
  | None => 0
  end.

(** ** [Queue.next] *)

(** An active [Queue] to which two [Forever] chips (at 0 and 1) were added
    as chip instances, ticked once: the first item is running. *)
Definition C9_setup (fuel : nat) : M loc :=
  context <- alloc_context ∅ ;;
  first <- new new_Forever ;;
  second <- new new_Forever ;;
  this <- new new_Queue ;;
  call fuel (activate this (mkTickInfo 0) context None None) ;;
  Queue_add this (RChip first) None ;;
  Queue_add this (RChip second) None ;;
  call fuel (tick this (mkTickInfo 1)) ;;
  ret this.

Definition item_after {A} (r : Res A) (i : itemloc) : option QueueItemState :=
  match r with
  | Ok _ s => q_state <$> items s !! i
  | _ => None
  end.

Definition queue_of (c : Chip) : list itemloc :=
  match class c with
  | Queue queue => queue
  | _ => []
  end.

(** The store of [C9_setup]. *)
Definition C9_store : St := Eval lazy in
  default empty_store (final (C9_setup 6 empty_store)).

(** ** The lifecycle of a node and its output signal *)

(** The activation/termination cycles [this] has completed: it emits
    [terminated] at the end of each. *)
Definition completed_cycles (s : St) (this : loc) : nat :=
  count_emitted s this "terminated".

(** What holds of a node between two calls: its output signal is defined if
    and only if it has completed a cycle and its state is [inactive]. *)
Definition lifecycle (c : Chip) (cycles : nat) : Prop :=
  is_Some (_outputSignal c) <-> (1 <= cycles)%nat /\ _state c = inactive.

(** Every node of the store is in that situation (and what is not a node
    has emitted nothing). *)
Definition settled (s : St) : Prop :=
  forall n, match chips s !! n with
            | Some c => lifecycle c (completed_cycles s n)
            | None => completed_cycles s n = 0%nat
            end.

(** The exceptions that can come out of a termination under way: the type
    errors of the runtime, and the refusal of a [terminate()] that a listener
    calls on a node that is inactive. *)
Definition interrupted (e : Error) : bool :=
  match e with
  | TypeError _ => true
  | InvalidStateError method _ => String.eqb method "terminate"
  | _ => false
  end.

(** The calls a host makes: the lifecycle calls on any node and the
    listeners it fires ([Call]), and the public methods of the classes. *)
Inductive HostCall :=
| Virtual (c : Call)
| Resize (this : loc)
| Done (this : loc) (signal : option Signal)
| AddChildChip (this : loc) (info : ChipActivationInfo)
| Skip (this : loc)
| Restart (this : loc)
| ChangeState (this : loc) (nextState : string + Signal)
| Add (this : loc) (item : ChipResolvable) (context : option ctxloc)
| Next (this : loc).

(** A method that the class of the receiver does not have is not a
    function. *)
Definition host (fuel : nat) (h : HostCall) : M unit :=
  match h with
  | Virtual c => call fuel c
  | Resize this => ChipBase_resize (call fuel) this
  | Done this signal =>
      k <- field this class ;;
      match k with
      | Block => Block_done (call fuel) this signal
      | _ => throw (TypeError "this.done is not a function")
      end
  | AddChildChip this info =>
      k <- field this class ;;
      match k with
      | Parallel _ _ _ _ => Parallel_addChildChip (call fuel) this info
      | Sequence _ _ _ _ _ => Sequence_addChildChip (call fuel) this info
      | _ => throw (TypeError "this.addChildChip is not a function")
      end
  | Skip this =>
      k <- field this class ;;
      match k with
      | Sequence _ _ _ _ _ => Sequence_skip (call fuel) this
      | _ => throw (TypeError "this.skip is not a function")
      end
  | Restart this =>
      k <- field this class ;;
      match k with
      | Sequence _ _ _ _ _ => Sequence_restart (call fuel) this
      | _ => throw (TypeError "this.restart is not a function")
      end
  | ChangeState this nextState =>
      k <- field this class ;;
      match k with
      | StateMachine _ _ _ _ _ _ _ =>
          StateMachine_changeState (call fuel) this nextState
      | _ => throw (TypeError "this.changeState is not a function")
      end
  | Add this item context =>
      k <- field this class ;;
      match k with
      | Queue _ => Queue_add this item context
      | _ => throw (TypeError "this.add is not a function")
      end
  | Next this =>
      k <- field this class ;;
      match k with
      | Queue _ => Queue_next (call fuel) this
      | _ => throw (TypeError "this.next is not a function")
      end
  end.

(** A [terminate()] on a node that is inactive: it is refused by the guard
    of the method, before anything is done. *)
Definition refused (s : St) (h : HostCall) : bool :=
  match h with
  | Virtual (terminate this _) =>
      match chips s !! this with
      | Some c => ChipState_eqb (_state c) inactive
      | None => false
      end
  | _ => false
  end.

(** The host makes the calls [calls] in order and goes on after a call that
    throws, the store being as it was at the throw.  The run is followed as
    long as no exception comes out of a termination under way. *)
Fixpoint drive (fuel : nat) (calls : list HostCall) (s : St) : option St :=
  match calls with
  | [] => Some s
  | h :: calls' =>
      match host fuel h s with
      | Ok _ s' => drive fuel calls' s'
      | Throw e s' =>
          if interrupted e && negb (refused s h) then None
          else drive fuel calls' s'
      | _ => None
      end
  end.

(** The store that holds the node [new t] and nothing else. *)
Definition lone (t : Template) : St :=
  set_chips [fresh (construct t)] empty_store.

(** Nodes that are still running when their activation returns: the leaves
    that wait, and composites over a child that never ends. *)
Definition steady_child : ChipActivationInfo :=
  info_of (RFactory (fun _ _ => Some (New new_Forever))).

Definition running_nodes (wait : float) : list Template :=
  [new_Forever; new_Block; new_Wait wait; new_Queue;
   new_Parallel [steady_child] None;
   new_Sequence [steady_child] None None;
   new_Alternative [steady_child];
   new_StateMachine [("start", steady_child)]
                    (SignalLiteral (new_Signal (Some "start") None)) None None].

(** A run on a [Parallel] (at 0) over one child: activated, ticked, paused,
    activated again (refused), resumed, given a second child that ends at
    once, ticked, terminated, terminated again (refused), activated again. *)
Definition C6_calls : list HostCall :=
  [Virtual (activate 0%nat (mkTickInfo 0) 0%nat None None);
   Virtual (tick 0%nat (mkTickInfo 16));
   Virtual (pause 0%nat);
   Virtual (activate 0%nat (mkTickInfo 0) 0%nat None None);
   Virtual (resume 0%nat);
   AddChildChip 0%nat (info_of (RFactory (fun _ _ =>
                                  Some (New (new_Transitory None)))));
   Virtual (tick 0%nat (mkTickInfo 16));
   Virtual (terminate 0%nat (Some (new_Signal (Some "over") None)));
   Virtual (terminate 0%nat None);
   Virtual (activate 0%nat (mkTickInfo 0) 0%nat None None)].

(** A [Parallel] (at 2) over a child (at 0) goes through one cycle; then a
    listener of another node (at 1) that throws where that node is now, is
    put on the child, and the [Parallel] is activated and terminated again. *)
Definition C6_interrupted (other : Template) (listener : loc -> Closure)
    : M unit :=
  child <- new new_Forever ;;
  other <- new other ;;
  this <- new (new_Parallel [info_of (RChip child)] None) ;;
  context <- alloc_context ∅ ;;
  call 6 (activate this (mkTickInfo 0) context None None) ;;
  call 6 (terminate this None) ;;
  EventEmitter_on child "terminated" (mkCallback 99 (listener other)) ;;
  call 6 (activate this (mkTickInfo 0) context None None) ;;
  call 6 (terminate this None).

(** *** The invariant behind it

    What the lifecycle condition looks at in a store: for each location,
    the state and the output signal of the node there, and the cycles it has
    completed. *)
Definition view (s : St) (n : loc) : option (ChipState * option Signal) * nat :=
  ((fun c => (_state c, _outputSignal c)) <$> chips s !! n,
   completed_cycles s n).

Definition same_view (s s' : St) : Prop := forall n, view s' n = view s n.

(** While [Composite.terminate] runs, between the assignment of the state
    and the assignment of the output signal, the composite is inactive
    without being in its lifecycle condition.  [W] holds of the composites in
    that situation: they only have to stay inactive; the other nodes are in
    their lifecycle condition. *)
Definition invariant_at (W : loc -> Prop) (n : loc)
    (v : option (ChipState * option Signal) * nat) : Prop :=
  match v.1 with
  | Some (state, outputSignal) =>
      (W n -> state = inactive)
      /\ (~ W n -> (is_Some outputSignal <-> (1 <= v.2)%nat /\ state = inactive))
  | None => v.2 = 0%nat
  end.

Definition invariant (W : loc -> Prop) (s : St) : Prop :=
  forall n, invariant_at W n (view s n).

Definition nobody : loc -> Prop := fun _ => False.

(** A computation that does not touch what the condition looks at, and
    throws nothing but what a termination may throw. *)
Definition framed {A} (m : M A) : Prop :=
  forall s, match m s with
            | Ok _ s' => same_view s s'
            | Throw e _ => interrupted e = true
            | _ => True
            end.

(** A computation that may run while the composites of [W] are being
    terminated. *)
Definition keeps_within {A} (W : loc -> Prop) (m : M A) : Prop :=
  forall s, invariant W s ->
            match m s with
            | Ok _ s' => invariant W s'
            | Throw e _ => interrupted e = true
            | _ => True
            end.

(** A computation that keeps every node in its lifecycle condition, when it
    returns and when it throws outside of a termination. *)
Definition keeps_lifecycles {A} (m : M A) : Prop :=
  forall s, invariant nobody s ->
            match m s with
            | Ok _ s' => invariant nobody s'
            | Throw e s' => interrupted e = true \/ invariant nobody s'
            | _ => True
            end.

(** The calls that a termination makes: terminations and listeners. *)
Definition term_like (c : Call) : Prop :=
  match c with
  | terminate _ _ | invoke _ => True
  | _ => False
  end.

(** An update that keeps the state and the output signal. *)
Definition keeps (f : Chip -> Chip) : Prop :=
  forall c, _state (f c) = _state c /\ _outputSignal (f c) = _outputSignal c.

(** What a termination does to a node: nothing, or it ends it. *)
Definition ended (v v' : option (ChipState * option Signal) * nat) : Prop :=
  v' = v
  \/ exists state out k o,
       v = (Some (state, out), k) /\ state <> inactive
       /\ v' = (Some (inactive, Some o), S k).

Definition ends (s s' : St) : Prop := forall n, ended (view s n) (view s' n).

Definition only_ends {A} (m : M A) : Prop :=
  forall s, match m s with Ok _ s' => ends s s' | _ => True end.

(** * Properties *)

(** ** Stores and loops *)

Lemma field_at {A} (s : St) (l : loc) (c : Chip) (f : Chip -> A) :
  chips s !! l = Some c -> field l f s = Ok (f c) s.
Proof. intros H. unfold field. by rewrite H. Qed.

Lemma update_at (s : St) (l : loc) (c : Chip) (f : Chip -> Chip) :
  chips s !! l = Some c ->
  update l f s = Ok tt (set_chips (<[l := f c]> (chips s)) s).
Proof. intros H. unfold update. by rewrite H. Qed.

Lemma chips_set_chips v s : chips (set_chips v s) = v.
Proof. by destruct s. Qed.

Lemma lookup_updated (s : St) (l : loc) (c c' : Chip) :
  chips s !! l = Some c ->
  chips (set_chips (<[l := c']> (chips s)) s) !! l = Some c'.
Proof.
  intros H. rewrite chips_set_chips.
  apply list_lookup_insert_eq. by eapply lookup_lt_Some.
Qed.

Lemma set_chips_twice v w s : set_chips v (set_chips w s) = set_chips v s.
Proof. by destruct s. Qed.

Lemma lookup_inserted (l : list Chip) (i : nat) (c c' : Chip) :
  l !! i = Some c -> <[i := c']> l !! i = Some c'.
Proof. intros H. apply list_lookup_insert_eq. by eapply lookup_lt_Some. Qed.

Lemma filter_true {A} (l : list A) : List.filter (fun _ => true) l = l.
Proof. induction l; simpl; congruence. Qed.
Lemma filter_false {A} (l : list A) : List.filter (fun _ => false) l = [].
Proof. induction l; simpl; congruence. Qed.

Lemma forM__app {A} (l1 l2 : list A) (f : A -> M unit) (s : St) :
  forM_ (l1 ++ l2) f s
  = match forM_ l1 f s with
    | Ok _ s' => forM_ l2 f s'
    | Throw e s' => Throw e s'
    | OutOfFuel => OutOfFuel
    | Unmodelled => Unmodelled
    end.
Proof.
  revert s. induction l1 as [|x l1 IH]; intros s; [done|].
  simpl. unfold bind. destruct (f x s); [apply IH|done|done|done].
Qed.

Lemma count_emitted_snoc a b c d e f g h em x src ev :
  count_emitted (mkSt a b c d e f g h (em ++ [x])) src ev
  = (count_emitted (mkSt a b c d e f g h em) src ev
     + if Nat.eqb (e_source x) src && String.eqb (e_event x) ev then 1 else 0)%nat.
Proof.
  unfold count_emitted. simpl. rewrite List.filter_app, length_app. simpl.
  by destruct (_ && _).
Qed.

(** ** Context merging ([processChipContext]) *)

Lemma ctx_read_prefix (cs cs' : CtxStore) (l : ctxloc) :
  cs `prefix_of` cs' -> (l < length cs)%nat -> ctx_read cs' l = ctx_read cs l.
Proof.
  intros Hp Hl. unfold ctx_read.
  destruct (lookup_lt_is_Some_2 cs l Hl) as [o Ho].
  by rewrite (prefix_lookup_Some _ _ _ _ Ho Hp), Ho.
Qed.

Lemma step_prefix (c : ctxloc) (cs : CtxStore)
    (a : option ChipContextResolvable) :
  cs `prefix_of` (processChipContext_step (c, cs) a).2.
Proof.
  destruct a as [[l|f]|]; simpl; try done.
  - by apply prefix_app_r.
  - destruct (f _); simpl; [by apply prefix_app_r | done].
Qed.

Lemma step_allocated (c : ctxloc) (cs : CtxStore)
    (a : option ChipContextResolvable) :
  (c < length cs)%nat ->
  ((processChipContext_step (c, cs) a).1
     < length (processChipContext_step (c, cs) a).2)%nat.
Proof.
  intros Hc. destruct a as [[l|f]|]; simpl; try done.
  - rewrite length_app. simpl. lia.
  - destruct (f _); simpl; [rewrite length_app; simpl; lia | done].
Qed.

Lemma step_entries (c : ctxloc) (cs : CtxStore)
    (a : option ChipContextResolvable) :
  (c < length cs)%nat ->
  allocated cs a ->
  ctx_read (processChipContext_step (c, cs) a).2
           (processChipContext_step (c, cs) a).1
  = altered_entries cs (ctx_read cs c) a.
Proof.
  intros Hc Ha. destruct a as [[l|f]|]; simpl; try done.
  - unfold ctx_read at 1. by rewrite lookup_app_r, Nat.sub_diag.
  - destruct (f _); simpl; [|done].
    unfold ctx_read at 1. by rewrite lookup_app_r, Nat.sub_diag.
Qed.

Lemma allocated_prefix (cs cs' : CtxStore) a :
  cs `prefix_of` cs' -> allocated cs a -> allocated cs' a.
Proof.
  intros Hp. destruct a as [[l|f]|]; simpl; try done.
  intros Hl. apply prefix_length in Hp. lia.
Qed.

Lemma altered_entries_prefix (cs cs' : CtxStore) acc a :
  cs `prefix_of` cs' -> allocated cs a ->
  altered_entries cs' acc a = altered_entries cs acc a.
Proof.
  intros Hp. destruct a as [[l|f]|]; simpl; try done.
  intros Hl. by rewrite (ctx_read_prefix cs cs').
Qed.

Lemma processChipContext_app c alts1 alts2 cs :
  processChipContext c (alts1 ++ alts2) cs
  = processChipContext (processChipContext c alts1 cs).1 alts2
                       (processChipContext c alts1 cs).2.
Proof.
  unfold processChipContext. rewrite fold_left_app.
  by destruct (fold_left _ alts1 _).
Qed.

Lemma processChipContext_spec alts : forall c cs,
  (c < length cs)%nat ->
  Forall (allocated cs) alts ->
  cs `prefix_of` (processChipContext c alts cs).2
  /\ ((processChipContext c alts cs).1
        < length (processChipContext c alts cs).2)%nat
  /\ ctx_read (processChipContext c alts cs).2
              (processChipContext c alts cs).1
     = fold_left (altered_entries cs) alts (ctx_read cs c).
Proof.
  induction alts as [|a alts IH]; intros c cs Hc Hall.
  - by repeat split.
  - inversion Hall as [|? ? Ha Hrest]; subst.
    pose proof (step_prefix c cs a) as Hp.
    pose proof (step_allocated c cs a Hc) as Hc'.
    pose proof (step_entries c cs a Hc Ha) as He.
    change (processChipContext c (a :: alts) cs)
      with (fold_left processChipContext_step alts
              (processChipContext_step (c, cs) a)).
    destruct (processChipContext_step (c, cs) a) as [c1 cs1] eqn:E.
    simpl in Hp, Hc', He.
    destruct (IH c1 cs1 Hc') as (Hp1 & Hc1 & He1).
    { eapply Forall_impl; [exact Hrest|].
      intros x Hx. by eapply allocated_prefix. }
    fold (processChipContext c1 alts cs1).
    split; [by etrans|]. split; [done|].
    rewrite He1, He. simpl.
    clear -Hp Hrest. revert Hrest.
    generalize (altered_entries cs (ctx_read cs c) a).
    induction alts as [|b alts IH]; intros acc Hrest; [done|].
    inversion Hrest; subst. simpl.
    rewrite (altered_entries_prefix cs cs1) by done. by apply IH.
Qed.



(** ** Selective unsubscription ([ChipBase._unsubscribe]) *)

(** What [_unsubscribe] does with the tracked listeners: the ones that
    differ from every provided filter go to [listenersToRemove], the ones that
    match a filter stay. *)
Lemma unsubscribe_fork emitter event cb listeners listener :
  let '(listenersToRemove, listenersToKeep) :=
    fork listeners (unsubscribe_condition emitter event cb) in
  (In listener listenersToKeep <->
     In listener listeners /\ matches_a_filter emitter event cb listener = true)
  /\ (In listener listenersToRemove <->
        In listener listeners
        /\ matches_a_filter emitter event cb listener = false).
Proof.
  unfold fork, matches_a_filter. rewrite !filter_In.
  destruct (unsubscribe_condition emitter event cb listener); simpl;
    intuition congruence.
Qed.

(** C10.  On the chip of [C10_setup], [_unsubscribe(e1, "a")] keeps both
    listeners on [e1] (the one for ["a"] and the one for ["b"]) and revokes
    the listener for ["c"] on [e2], which matches neither filter: the
    listeners the documentation asks to remove are the ones that stay. *)
Theorem C10_unsubscribe_removes_the_others :
  let r := (this <- C10_setup ;;
            ChipBase__unsubscribe this (Some (EChip 0%nat)) (Some "a") None)
             empty_store in
  returned r = true
  /\ after r 2%nat tracked = Some [(EChip 0%nat, "a"); (EChip 0%nat, "b")]
  /\ after r 0%nat registered = Some ["a"; "b"]
  /\ after r 1%nat registered = Some [].
Proof. lazy. repeat split. Qed.

(** ** The guard of [_activateChildChip] and [_terminateChildChip] *)

(** C8 (amended).  On a composite whose state is [inactive], activating a
    child and terminating a child both fail with [CompositeInactiveError],
    whatever the arguments, and leave the store as it was. *)
Theorem C8_inactive_composite_rejects_child_operations
    (call : Call -> M unit) (s : St) (this : loc) (c : Chip)
    (chipResolvable : ChipResolvable) (options : ChipActivationInfo)
    (chip : loc) (outputSignal : option Signal) :
  chips s !! this = Some c ->
  is_Composite (class c) = true ->
  _state c = inactive ->
  Composite__activateChildChip call this chipResolvable options s
  = Throw CompositeInactiveError s
  /\ Composite__terminateChildChip call this chip outputSignal s
     = Throw CompositeInactiveError s.
Proof.
  intros Hc _ Hs.
  unfold Composite__activateChildChip, Composite__terminateChildChip,
    bind, field.
  rewrite Hc, Hs. by split.
Qed.

Lemma C8_witness :
  Composite__activateChildChip (call 5) 2%nat (RChip 1%nat)
                               (info_of (RChip 1%nat)) C8_terminated
  = Throw CompositeInactiveError C8_terminated
  /\ Composite__terminateChildChip (call 5) 2%nat 0%nat None C8_terminated
     = Throw CompositeInactiveError C8_terminated.
Proof.
  eapply C8_inactive_composite_rejects_child_operations; lazy; reflexivity.
Defined.

(** On a paused composite neither operation is rejected: the second chip is
    activated as a child and the first child is terminated. *)
Lemma C8_counterexample :
  let paused_parent := (x <- C8_setup 5 ;; call 5 (pause x.1.1) ;; ret x) in
  let r1 := (x <- paused_parent ;;
             Composite__activateChildChip (call 5) x.1.1 (RChip x.2)
                                          (info_of (RChip x.2)))
              empty_store in
  let r2 := (x <- paused_parent ;;
             Composite__terminateChildChip (call 5) x.1.1 x.1.2 None)
              empty_store in
  after (paused_parent empty_store) 2%nat _state = Some paused
  /\ returned r1 = true /\ thrown r1 <> Some CompositeInactiveError
  /\ after r1 1%nat _state = Some active
  /\ returned r2 = true /\ thrown r2 <> Some CompositeInactiveError
  /\ after r2 0%nat _state = Some inactive.
Proof. vm_compute. repeat split; discriminate. Qed.

(** ** Deferred termination of composites *)

Lemma composite_terminate_deferred (fuel : nat) (s : St) (this : loc)
    (c : Chip) (outputSignal : option Signal) :
  chips s !! this = Some c ->
  is_Composite (class c) = true ->
  _state c <> inactive ->
  _methodCallInProgress c = true ->
  call (S fuel) (terminate this outputSignal) s
  = Ok tt (set_chips
             (<[this := set_deferredOutputSignal
                          (Some (default (new_Signal None None) outputSignal))
                          c]> (chips s)) s).
Proof.
  intros Hc Hk Hs Hp. simpl.
  unfold bind, field. rewrite Hc, Hk.
  unfold Composite_terminate, bind, field, update. rewrite Hc.
  destruct (_state c); [done| |]; simpl; by rewrite Hc, Hp, Hc.
Qed.

Lemma composite_tick_runs_deferred (fuel : nat) (s : St) (this : loc)
    (c : Chip) (deferred : Signal) (tickInfo : TickInfo) :
  chips s !! this = Some c ->
  is_Composite (class c) = true ->
  _state c = active ->
  _deferredOutputSignal c = Some deferred ->
  call (S (S fuel)) (tick this tickInfo) s
  = call (S fuel) (terminate this (Some deferred)) s.
Proof.
  intros Hc Hk Hs Hd.
  change (call (S (S fuel)) (tick this tickInfo) s)
    with (dispatch (call (S fuel)) (tick this tickInfo) s).
  unfold dispatch, bind, field. rewrite Hc, Hk.
  unfold Composite_tick, bind, field. rewrite Hc, Hs. simpl.
  rewrite Hc, Hd. reflexivity.
Qed.

(** C1 (amended).  A [terminate()] that reaches a composite while its
    call-in-progress flag is set (during [ChipBase.activate] with the
    activation hook, and during the ticking of the children) only stores the
    signal: the composite keeps its state and has no output signal from it.
    At the next [tick()] of the composite, if it is active, the whole effect
    of the tick is that of executing the stored termination: the tick hook
    does not run and no child is ticked.  On the [Alternative] of [C1_setup]:
    the tick of 1 ms ends the [Wait], whose notification makes the
    [Alternative] request its own termination during the ticking of its
    children; it is still active after that tick, and the following tick (of
    5 ms) terminates it with the stored signal and terminates the [Forever]
    child, neither of them having recorded that tick. *)
Theorem C1_termination_deferred_while_call_in_progress
    (fuel : nat) (s : St) (this : loc) (c : Chip) (signal : Signal) :
  chips s !! this = Some c ->
  is_Composite (class c) = true ->
  _state c <> inactive ->
  _methodCallInProgress c = true ->
  let c' := set_deferredOutputSignal (Some signal) c in
  (* the request is stored and nothing else changes *)
  call (S fuel) (terminate this (Some signal)) s
  = Ok tt (set_chips (<[this := c']> (chips s)) s)
  /\ _state c' = _state c
  /\ _outputSignal c' = _outputSignal c
  (* the next tick is the stored termination and nothing else *)
  /\ (forall s1 c1 tickInfo,
        chips s1 !! this = Some c1 ->
        is_Composite (class c1) = true ->
        _state c1 = active ->
        _deferredOutputSignal c1 = Some signal ->
        call (S (S fuel)) (tick this tickInfo) s1
        = call (S fuel) (terminate this (Some signal)) s1)
  (* a complete run *)
  /\ (let r1 := (this <- C1_setup (6 + fuel) ;;
                 call (6 + fuel) (tick this (mkTickInfo 1))) empty_store in
      let r2 := (this <- C1_setup (6 + fuel) ;;
                 call (6 + fuel) (tick this (mkTickInfo 1)) ;;
                 call (6 + fuel) (tick this (mkTickInfo 5))) empty_store in
      after r1 0%nat _state = Some inactive
      /\ after r1 2%nat _state = Some active
      /\ after r1 2%nat _outputSignal = Some None
      /\ after r1 2%nat _deferredOutputSignal
         = Some (Some (new_Signal (Some "0") None))
      /\ after r2 2%nat _state = Some inactive
      /\ after r2 2%nat _outputSignal = Some (Some (new_Signal (Some "0") None))
      /\ after r2 2%nat _lastTickInfo = Some (Some (mkTickInfo 1))
      /\ after r2 1%nat _state = Some inactive
      /\ after r2 1%nat _lastTickInfo = Some (Some (mkTickInfo 1))).
Proof.
  intros Hc Hk Hs Hp c'.
  split; [exact (composite_terminate_deferred fuel s this c (Some signal)
                   Hc Hk Hs Hp)|].
  split; [by destruct c|]. split; [by destruct c|].
  split.
  - intros s1 c1 tickInfo H1 H2 H3 H4.
    by apply (composite_tick_runs_deferred fuel s1 this c1).
  - lazy. repeat split.
Qed.

Lemma C1_witness :
  call 1 (terminate 0%nat (Some (new_Signal (Some "done") None))) C1_in_progress
  = Ok tt (set_chips
             [set_deferredOutputSignal (Some (new_Signal (Some "done") None))
                (set_methodCallInProgress true (set_state active
                   (fresh (Parallel true [] [] 0))))]
             C1_in_progress).
Proof.
  refine (proj1 (C1_termination_deferred_while_call_in_progress
                   0 C1_in_progress 0%nat _ _ eq_refl eq_refl _ eq_refl)).
  discriminate.
Defined.

(** A [Parallel] over a [Wait] of zero milliseconds.  After [activate] it is
    active and no termination is stored; during the first [tick] the child
    ends and the after-tick hook calls [terminate], which takes effect within
    that same tick. *)
Lemma C1_counterexample :
  let setup :=
    (context <- alloc_context ∅ ;;
     child <- new (new_Wait 0) ;;
     this <- new (new_Parallel [info_of (RChip child)] None) ;;
     call 6 (activate this (mkTickInfo 0) context None None) ;;
     ret this) in
  let r0 := setup empty_store in
  let r1 := (this <- setup ;; call 6 (tick this (mkTickInfo 0))) empty_store in
  after r0 1%nat _state = Some active
  /\ after r0 1%nat _deferredOutputSignal = Some None
  /\ after r1 1%nat _state = Some inactive
  /\ after r1 1%nat _outputSignal = Some (Some (new_Signal None None))
  /\ after r1 1%nat _deferredOutputSignal = Some None.
Proof. vm_compute. repeat split. Qed.

(** ** [Parallel] over no children *)

(** C2 (amended).  Activating a [Parallel] built over an empty list with the
    default [terminateOnCompletion] requests the termination from the
    activation hook, where it is deferred: when [activate()] returns the node
    is still active, has no output signal, and holds the default signal as
    its deferred termination.  The first [tick()] then terminates it with
    that signal before doing anything else (the tick is not even recorded). *)
Theorem C2_empty_parallel_terminates_at_first_tick
    (fuel : nat) (entries : gmap string any) (tickInfo tickInfo' : TickInfo)
    (inputSignal : option Signal) (reloadMemento : option ReloadMemento) :
  let activated :=
    C2_activated (2 + fuel) entries tickInfo inputSignal reloadMemento in
  let r0 := activated empty_store in
  let r1 := (this <- activated ;; call (2 + fuel) (tick this tickInfo'))
              empty_store in
  returned r0 = true
  /\ after r0 0%nat _state = Some active
  /\ after r0 0%nat _outputSignal = Some None
  /\ after r0 0%nat _deferredOutputSignal = Some (Some (new_Signal None None))
  /\ returned r1 = true
  /\ after r1 0%nat _state = Some inactive
  /\ after r1 0%nat _outputSignal = Some (Some (new_Signal None None))
  /\ after r1 0%nat _lastTickInfo = Some (Some tickInfo).
Proof. lazy. repeat split. Qed.

(** After [activate()] the empty [Parallel] is not inactive and its output
    signal is not set. *)
Lemma C2_counterexample :
  let r0 := C2_activated 5 ∅ (mkTickInfo 0) None None empty_store in
  returned r0 = true
  /\ after r0 0%nat _state = Some active
  /\ after r0 0%nat _outputSignal = Some None
  /\ ~ (after r0 0%nat _state = Some inactive
        /\ exists signal, after r0 0%nat _outputSignal = Some (Some signal)).
Proof.
  vm_compute. repeat split. intros [H _]. discriminate.
Qed.

(** ** [Alternative] *)

(** C3 (amended).  The termination of the first child reaches the
    [Alternative] during its own activation, so it is deferred: when
    [activate()] returns the [Alternative] is active, the second child has
    been activated, and the outcome is stored: the signal configured for the
    first entry or, when there is none, the signal named ["0"] after its
    index.  The first [tick()] terminates the [Alternative] with that signal
    and terminates the second child as a side effect. *)
Theorem C3_alternative_first_child_wins
    (fuel : nat) (terminateSignal outcome outcome' : option Signal)
    (tickInfo : TickInfo) :
  let expected := default (new_Signal (Some "0") None) outcome in
  let activated := C3_setup (5 + fuel) terminateSignal outcome outcome' in
  let r0 := activated empty_store in
  let r1 := (this <- activated ;; call (5 + fuel) (tick this tickInfo))
              empty_store in
  returned r0 = true
  /\ after r0 0%nat _state = Some inactive
  /\ after r0 1%nat _state = Some active
  /\ after r0 2%nat _state = Some active
  /\ after r0 2%nat _outputSignal = Some None
  /\ after r0 2%nat _deferredOutputSignal = Some (Some expected)
  /\ returned r1 = true
  /\ after r1 2%nat _state = Some inactive
  /\ after r1 2%nat _outputSignal = Some (Some expected)
  /\ after r1 1%nat _state = Some inactive
  /\ after r1 1%nat _outputSignal = Some (Some (new_Signal None None))
  /\ after r1 2%nat _childChips = Some [].
Proof. lazy. repeat split. Qed.

(** The index-derived default: the name is the string ["0"]. *)
Lemma C3_default_outcome_name :
  name (new_Signal (Some (Number_toString 0)) None) = "0".
Proof. reflexivity. Qed.

(** When [activate()] returns, the [Alternative] has not terminated and its
    second child is running. *)
Lemma C3_counterexample :
  let r0 := C3_setup 6 None None None empty_store in
  returned r0 = true
  /\ after r0 2%nat _state = Some active
  /\ after r0 2%nat _outputSignal = Some None
  /\ after r0 1%nat _state = Some active
  /\ ~ (after r0 2%nat _state = Some inactive).
Proof. vm_compute. repeat split. discriminate. Qed.

(** An entry given as a factory is resolved twice by [_onActivate]: once for
    the subscription and once more inside [_activateChildChip].  The chip
    that runs (at 3) is not the chip listened to (at 2), so the termination
    of the running chip never reaches the [Alternative], which is still
    active after two ticks. *)
Example Alternative_on_factory_entry :
  let r := (context <- alloc_context ∅ ;;
            second <- new new_Forever ;;
            this <- new (new_Alternative
                           [info_of (RFactory (fun _ _ =>
                                       Some (New (new_Transitory None))));
                            info_of (RChip second)]) ;;
            call 10 (activate this (mkTickInfo 0) context None None) ;;
            call 10 (tick this (mkTickInfo 5)) ;;
            call 10 (tick this (mkTickInfo 5))) empty_store in
  returned r = true
  /\ after r 3%nat _outputSignal = Some (Some (new_Signal None None))
  /\ after r 2%nat _outputSignal = Some None
  /\ after r 1%nat _state = Some active
  /\ after r 1%nat _outputSignal = Some None
  /\ after r 1%nat _deferredOutputSignal = Some None.
Proof. vm_compute. repeat split. Qed.

(** ** [StateMachine]: routing on the termination of the active state *)

Lemma onAfterTick_routes (call : Call -> M unit) (s : St) (this child : loc)
    (c a : Chip) states transitions start ending visited previous signal :
  chips s !! this = Some c ->
  class c = StateMachine states transitions start ending visited (Some child) (Some previous) ->
  chips s !! child = Some a ->
  _outputSignal a = Some signal ->
  inherited (name previous) = false ->
  inherited (name signal) = false ->
  StateMachine__onAfterTick call this s
  = match routed states transitions ending
            (match _chipContext c with Some l => ctx_read (contexts s) l | None => ∅ end)
            previous signal with
    | None => Throw (UnknownSignalError (name signal)) s
    | Some nextState => StateMachine__changeState call this nextState s
    end.
Proof.
  intros Hc Hk Ha Hs Hp Hn.
  unfold StateMachine__onAfterTick, bind.
  rewrite (field_at s this c) by done. rewrite Hk.
  rewrite (field_at s child a) by done. rewrite Hs.
  unfold routed, obj_has, obj_own. rewrite Hp, Hn, !orb_false_r.
  destruct (obj_get transitions (name previous)) as [[d|f]|]; cbn [negb].
  - reflexivity.
  - unfold context_entries, bind, gets. rewrite (field_at s this c) by done. reflexivity.
  - destruct (match obj_get states (name signal) with Some _ => true | None => false end
              || includes ending (name signal)); reflexivity.
Qed.

Lemma unsubscribe_all_on_window (s : St) (this : loc) (c : Chip) :
  chips s !! this = Some c ->
  Forall window_listener (_eventListeners c) ->
  ChipBase__unsubscribe this None None None s
  = Ok tt (set_chips (<[this := set_eventListeners [] c]> (chips s))
             (set_windowListeners
                (revoke_on_window (windowListeners s) (_eventListeners c)) s)).
Proof.
  intros Hc Hw. unfold ChipBase__unsubscribe, bind.
  rewrite (field_at s this c) by done.
  unfold fork.
  change (unsubscribe_condition None None None) with (fun _ : IEventListener => true).
  rewrite filter_true. simpl negb. rewrite filter_false.
  assert (forall ls s0, Forall window_listener ls ->
            forM_ ls (fun listener =>
              unsubscribe (l_subscriptionHandler listener) (l_emitter listener)
                          (l_event listener) (l_cb listener)) s0
            = Ok tt (set_windowListeners (revoke_on_window (windowListeners s0) ls) s0)) as Hloop.
  { induction ls as [|l ls IH]; intros s0 Hall.
    - by destruct s0.
    - inversion Hall as [|? ? [He Hh] Hrest]; subst.
      simpl. unfold bind. rewrite He, Hh. simpl.
      unfold window_removeEventListener, modify. rewrite IH by done.
      by destruct s0. }
  rewrite Hloop by done.
  unfold update. destruct s; simpl in *. by rewrite Hc.
Qed.

Lemma changeState_ending (fuel : nat) (s : St) (this : loc) (c : Chip)
    states transitions start ending visited activeChild previous nextState :
  chips s !! this = Some c ->
  class c = StateMachine states transitions start ending visited activeChild previous ->
  _state c <> inactive ->
  _methodCallInProgress c = false ->
  _childChips c = [] ->
  Forall window_listener (_eventListeners c) ->
  includes ending (name nextState) = true ->
  StateMachine__changeState (call (S fuel)) this nextState s
  = EventEmitter_emit (call fuel) this "terminated" [ArgSignal (Some nextState)]
      (set_chips (<[this := terminated_machine nextState c]> (chips s))
         (set_windowListeners
            (revoke_on_window (windowListeners s) (_eventListeners c)) s)).
Proof.
  intros Hc Hk Hs Hp Hch Hw He.
  destruct c as [ls cc lt isg rm els os st ccc dos mip ir chs prep attrs k].
  simpl in Hk, Hs, Hp, Hch, Hw. subst k mip chs.
  destruct s as [chips0 ctxs its wl ncb nuid nrand size em]. simpl in Hc.
  unfold StateMachine__changeState, update_class, bind, field, update, when.
  simpl chips. rewrite Hc. simpl class.
  assert (Hstep : forall c', <[this := c']> chips0 !! this = Some c').
  { intros c'. by eapply lookup_inserted. }
  destruct activeChild as [a|].
  all: repeat (cbn -[call includes revoke_on_window EventEmitter_emit ChipBase__unsubscribe Composite__terminateAllChildChips];
          rewrite ?list_insert_insert_eq, ?Hstep, ?Hc, ?He).
  all: change (call (S fuel)) with (dispatch (call fuel)).
  all: unfold dispatch, Composite_terminate, bind, field, update.
  all: destruct st; [done| |].
  all: repeat (cbn -[call includes revoke_on_window EventEmitter_emit ChipBase__unsubscribe Composite__terminateAllChildChips _onTerminate];
          rewrite ?list_insert_insert_eq, ?Hstep, ?Hc, ?He).
  all: erewrite unsubscribe_all_on_window; [| cbn; apply Hstep | exact Hw ].
  all: unfold Composite__terminateAllChildChips, _onTerminate, StateMachine__onTerminate, update_class, bind, field, update.
  all: repeat (cbn -[call includes revoke_on_window EventEmitter_emit];
          rewrite ?list_insert_insert_eq, ?Hstep, ?Hc, ?He).
  all: reflexivity.
Qed.

Lemma changeState_not_ending (call : Call -> M unit) (s : St) (this : loc) (c : Chip)
    states transitions start ending visited activeChild previous nextState :
  chips s !! this = Some c ->
  class c = StateMachine states transitions start ending visited activeChild previous ->
  _childChips c = [] ->
  includes ending (name nextState) = false ->
  inherited (name nextState) = false ->
  let s1 := set_chips (<[this := without_activeChild c]> (chips s)) s in
  match obj_get states (name nextState) with
  | None =>
      StateMachine__changeState call this nextState s
      = Throw (UnknownStateError (name nextState)) s1
  | Some info =>
      forall chip s2 c2,
        Composite__activateChildChip call this (info_chip info)
          (mkInfo (info_chip info) (info_context info) (Some nextState)
                  None None (Some (name nextState)) None None) s1
        = Ok chip s2 ->
        chips s2 !! this = Some c2 ->
        constructor_name (class c2) = "StateMachine" ->
        StateMachine__changeState call this nextState s
        = EventEmitter_emit call this "stateChange"
            [ArgSignal (previous_of c2); ArgSignal (Some nextState)]
            (set_chips (<[this := entered nextState chip c2]> (chips s2)) s2)
  end.
Proof.
  intros Hc Hk Hch He Hn s1. subst s1.
  destruct c as [ls cc lt isg rm els os st ccc dos mip ir chs prep attrs k].
  simpl in Hk, Hch. subst k chs.
  destruct s as [chips0 ctxs its wl ncb nuid nrand size em]. simpl in Hc.
  assert (Hstep : forall c', <[this := c']> chips0 !! this = Some c').
  { intros c'. by eapply lookup_inserted. }
  assert (Hid : forall c', chips0 !! this = Some c' -> <[this := c']> chips0 = chips0).
  { intros c' H. by apply list_insert_id. }
  unfold StateMachine__changeState, update_class, bind, field, update, when,
    without_activeChild, obj_has, obj_own.
  rewrite Hn.
  destruct (obj_get states (name nextState)) as [info|] eqn:Hi.
  - intros chip s2 c2 Hact Hc2 Hk2.
    destruct activeChild as [a|];
      repeat (cbn -[Composite__activateChildChip EventEmitter_emit includes];
              rewrite ?list_insert_insert_eq, ?Hstep, ?Hc, ?He, ?Hi).
    + cbn in Hact. rewrite Hact.
      destruct s2 as [chips2 x1 x2 x3 x4 x5 x6 x7 x8]. simpl in Hc2.
      assert (Hstep2 : forall c', <[this := c']> chips2 !! this = Some c').
      { intros c'. by eapply lookup_inserted. }
      destruct c2 as [y1 y2 y3 y4 y5 y6 y7 y8 y9 y10 y11 y12 y13 y14 y15 k2].
      destruct k2; try discriminate Hk2.
      repeat (cbn -[EventEmitter_emit];
              rewrite ?list_insert_insert_eq, ?Hstep2, ?Hc2).
      reflexivity.
    + cbn in Hact. rewrite (Hid _ Hc) in Hact. rewrite Hact.
      destruct s2 as [chips2 x1 x2 x3 x4 x5 x6 x7 x8]. simpl in Hc2.
      assert (Hstep2 : forall c', <[this := c']> chips2 !! this = Some c').
      { intros c'. by eapply lookup_inserted. }
      destruct c2 as [y1 y2 y3 y4 y5 y6 y7 y8 y9 y10 y11 y12 y13 y14 y15 k2].
      destruct k2; try discriminate Hk2.
      repeat (cbn -[EventEmitter_emit];
              rewrite ?list_insert_insert_eq, ?Hstep2, ?Hc2).
      reflexivity.
  - destruct activeChild as [a|];
      repeat (cbn -[includes];
              rewrite ?list_insert_insert_eq, ?Hstep, ?Hc, ?He, ?Hi);
      [reflexivity|].
    by rewrite (Hid _ Hc).
Qed.

Lemma unpack_spec (descriptor signal : Signal) :
  name descriptor <> "" ->
  name (unpack descriptor signal) = name descriptor
  /\ params (unpack descriptor signal)
     = if isEmpty (params descriptor) then params signal else params descriptor.
Proof.
  intros Hn. unfold unpack. destruct (isEmpty (params descriptor)); [|done].
  split; [|done]. simpl. by destruct (name descriptor).
Qed.

(** The situation of the after-tick hook of an active [StateMachine] whose
    active child, already reconciled out of the children, has terminated
    with [signal], the state entered before being [previous], when neither
    name is a name of [Object.prototype].
    - The next state is the one of the routing rule [routed]; when the rule
      gives none, the hook throws the routing error.
    - When the name of the next state is a declared ending state, no child is
      activated: the machine is terminated with the next state as its output
      signal, the next state is appended to [visitedStates], and what remains
      is the [terminated] notification.
    - Otherwise, for a name that is not a name of [Object.prototype], the
      child registered under that name is activated and, when that activation
      returns, the next state is appended to [visitedStates] and becomes the
      last signal; a name that is no declared state throws. *)
Theorem StateMachine_routing
    (fuel : nat) (s : St) (this child : loc) (c a : Chip)
    (states : JSObject ChipActivationInfo)
    (transitions : JSObject SignalDescriptor) (start : SignalDescriptor)
    (ending : option (list string)) (visited : list Signal)
    (previous signal : Signal) :
  chips s !! this = Some c ->
  class c = StateMachine states transitions start ending visited
                         (Some child) (Some previous) ->
  _state c = active ->
  _methodCallInProgress c = false ->
  _childChips c = [] ->
  Forall window_listener (_eventListeners c) ->
  chips s !! child = Some a ->
  _outputSignal a = Some signal ->
  inherited (name previous) = false ->
  inherited (name signal) = false ->
  let entries := match _chipContext c with
                 | Some l => ctx_read (contexts s) l
                 | None => ∅
                 end in
  let r := StateMachine__onAfterTick (call (S fuel)) this s in
  let s1 := set_chips (<[this := without_activeChild c]> (chips s)) s in
  match routed states transitions ending entries previous signal with
  | None => r = Throw (UnknownSignalError (name signal)) s
  | Some nextState =>
      if includes ending (name nextState) then
        r = EventEmitter_emit (call fuel) this "terminated"
              [ArgSignal (Some nextState)]
              (set_chips (<[this := terminated_machine nextState c]> (chips s))
                 (set_windowListeners
                    (revoke_on_window (windowListeners s) (_eventListeners c))
                    s))
      else
        inherited (name nextState) = false ->
        match obj_get states (name nextState) with
        | None => r = Throw (UnknownStateError (name nextState)) s1
        | Some info =>
            forall chip s2 c2,
              Composite__activateChildChip (call (S fuel)) this (info_chip info)
                (mkInfo (info_chip info) (info_context info) (Some nextState)
                        None None (Some (name nextState)) None None) s1
              = Ok chip s2 ->
              chips s2 !! this = Some c2 ->
              constructor_name (class c2) = "StateMachine" ->
              r = EventEmitter_emit (call (S fuel)) this "stateChange"
                    [ArgSignal (previous_of c2); ArgSignal (Some nextState)]
                    (set_chips (<[this := entered nextState chip c2]> (chips s2))
                               s2)
        end
  end.
Proof.
  intros Hc Hk Hs Hp Hch Hw Ha Ho Hip His entries r s1. subst r.
  rewrite (onAfterTick_routes (call (S fuel)) s this child c a states
             transitions start ending visited previous signal Hc Hk Ha Ho
             Hip His).
  fold entries.
  destruct (routed states transitions ending entries previous signal)
    as [nextState|]; [|reflexivity].
  destruct (includes ending (name nextState)) eqn:He.
  - apply (changeState_ending fuel s this c states transitions start ending
             visited (Some child) (Some previous) nextState); try done.
    by rewrite Hs.
  - intros Hin.
    exact (changeState_not_ending (call (S fuel)) s this c states transitions
             start ending visited (Some child) (Some previous) nextState
             Hc Hk Hch He Hin).
Qed.

Lemma StateMachine_routing_witness :
  let r := StateMachine__onAfterTick (call 3) 2%nat C4_before_hook in
  returned r = true
  /\ after r 2%nat _state = Some inactive
  /\ after r 2%nat _outputSignal = Some (Some C4_end)
  /\ after r 2%nat visited_of = Some ["start"; "end"].
Proof.
  intros r.
  assert (Hw : Forall window_listener
                 [mkListener EWindow "resize" (mkCallback 0 (OnResize 2%nat))
                             EventTargetSubscriptionHandler]).
  { repeat constructor. }
  pose proof (StateMachine_routing 2 C4_before_hook 2%nat 0%nat
                (default (fresh Forever) (chips C4_before_hook !! 2%nat))
                (default (fresh Forever) (chips C4_before_hook !! 0%nat))
                (fromEntries [("start", info_of (RChip 0%nat));
                              ("middle", info_of (RChip 1%nat))])
                [] (SignalLiteral (new_Signal (Some "start") None))
                (Some ["end"]) [new_Signal (Some "start") None]
                (new_Signal (Some "start") None) C4_end
                eq_refl eq_refl eq_refl eq_refl eq_refl Hw eq_refl eq_refl
                eq_refl eq_refl)
    as H.
  lazy head in H. subst r. rewrite H. lazy. repeat split.
Defined.

(** C4 (the code departs from the claim).  In the machine of [C4_toString]
    the chip of the only state, [start], terminates with a signal named
    ["toString"].  That name has no entry in the transition table, is no
    declared state and no declared ending state, so the routing rule has no
    next state for it and the claim asks for the routing error.  The code
    finds the name [in this._states], where [Object.prototype] provides it:
    the tick drops the active child of the machine and fails in
    [_activateChildChip] with the duplicate-id error, the machine still
    active. *)
Theorem C4_inherited_name_is_taken_for_a_state (fuel : nat) :
  let r := (this <- C4_toString (5 + fuel) ;;
            call (5 + fuel) (tick this (mkTickInfo 1))) empty_store in
  let activated := C4_toString (5 + fuel) empty_store in
  obj_own (fromEntries C4_states) "toString" = false
  /\ includes (Some ["end"]) "toString" = false
  /\ routed (fromEntries C4_states) [] (Some ["end"]) ∅
            (new_Signal (Some "start") None)
            (new_Signal (Some "toString") None) = None
  /\ finally activated 1%nat activeChildChip_of = Some (Some 0%nat)
  /\ finally activated 0%nat _outputSignal
     = Some (Some (new_Signal (Some "toString") None))
  /\ thrown r = Some DuplicateIdError
  /\ thrown r <> Some (UnknownSignalError "toString")
  /\ finally r 1%nat activeChildChip_of = Some None
  /\ finally r 1%nat _state = Some active
  /\ finally r 1%nat visited_of = Some ["start"].
Proof. lazy. repeat split. discriminate. Qed.

(** The same machine driven through [tick]: the first tick ends it with the
    signal of the child, and the history is [start], [end]. *)
Example StateMachine_start_to_end (fuel : nat) :
  let r := (this <- C4_machine (5 + fuel) ;;
            call (5 + fuel) (tick this (mkTickInfo 1))) empty_store in
  returned r = true
  /\ after r 2%nat _state = Some inactive
  /\ after r 2%nat _outputSignal = Some (Some C4_end)
  /\ after r 2%nat visited_of = Some ["start"; "end"]
  /\ after r 1%nat _state = Some inactive.
Proof. lazy. repeat split. Qed.

Example StateMachine_through_the_table (fuel : nat) :
  let r1 := (this <- routed_machine (5 + fuel) ;;
             call (5 + fuel) (tick this (mkTickInfo 1))) empty_store in
  let r2 := (this <- routed_machine (5 + fuel) ;;
             call (5 + fuel) (tick this (mkTickInfo 1)) ;;
             call (5 + fuel) (tick this (mkTickInfo 1))) empty_store in
  returned r1 = true
  /\ after r1 2%nat _state = Some active
  /\ after r1 2%nat visited_of = Some ["start"; "middle"]
  /\ returned r2 = true
  /\ after r2 2%nat _state = Some inactive
  /\ after r2 2%nat _outputSignal = Some (Some C4_end)
  /\ after r2 2%nat visited_of = Some ["start"; "middle"; "end"].
Proof. lazy. repeat split. Qed.

(** ** [Sequence] over two [Wait] chips *)

(** Symbolic execution of one tick: evaluate up to the comparison of the
    [Wait] that is ticked, decide it with [H], evaluate the rest. *)
Ltac decide_wait H :=
  match goal with
  | |- ?l = _ =>
      let l' := eval lazy head beta iota zeta delta -[number_geb] in l in
      change l with l'
  end;
  match goal with
  | |- context [number_geb ?a ?b] =>
      let a' := eval lazy in a in
      let b' := eval lazy in b in
      change (number_geb a b) with (number_geb a' b')
  end;
  rewrite H;
  lazy -[number_geb].

Lemma C5_setup_runs_first fuel d1 d2 :
  C5_setup (5 + fuel) d1 d2 empty_store
  = Ok 2%nat (C5_running_first d1 d2 0 0).
Proof. lazy. reflexivity. Qed.

Lemma first_child_waits fuel d1 d2 acc lt t :
  number_geb (acc + t) d1 = false ->
  call (5 + fuel) (tick 2%nat (mkTickInfo t)) (C5_running_first d1 d2 acc lt)
  = Ok tt (C5_running_first d1 d2 (acc + t) t).
Proof. intros H. decide_wait H. reflexivity. Qed.

Lemma first_child_ends fuel d1 d2 acc lt t :
  number_geb (acc + t) d1 = true ->
  call (5 + fuel) (tick 2%nat (mkTickInfo t)) (C5_running_first d1 d2 acc lt)
  = Ok tt (C5_running_second d1 d2 (acc + t) t 0 t).
Proof. intros H. decide_wait H. reflexivity. Qed.

Lemma second_child_waits fuel d1 d2 acc1 lt1 acc lt t :
  number_geb (acc + t) d2 = false ->
  call (5 + fuel) (tick 2%nat (mkTickInfo t))
       (C5_running_second d1 d2 acc1 lt1 acc lt)
  = Ok tt (C5_running_second d1 d2 acc1 lt1 (acc + t) t).
Proof. intros H. decide_wait H. reflexivity. Qed.

Lemma second_child_ends fuel d1 d2 acc1 lt1 acc lt t :
  number_geb (acc + t) d2 = true ->
  call (5 + fuel) (tick 2%nat (mkTickInfo t))
       (C5_running_second d1 d2 acc1 lt1 acc lt)
  = Ok tt (C5_complete d1 d2 acc1 lt1 (acc + t) t).
Proof. intros H. decide_wait H. reflexivity. Qed.

Lemma first_run fuel d1 d2 ts : forall acc lt,
  ends_wait d1 acc ts = true ->
  exists acc1 t1,
    ticks (5 + fuel) 2%nat ts (C5_running_first d1 d2 acc lt)
    = Ok tt (C5_running_second d1 d2 acc1 t1 0 t1).
Proof.
  induction ts as [|t ts IH]; intros acc lt H; [done|].
  destruct ts as [|t' ts].
  - exists (acc + t)%float, t. unfold ticks. cbn [forM_]. unfold bind.
    by rewrite first_child_ends.
  - cbn [ends_wait] in H. apply andb_prop in H as [H1 H2].
    apply negb_true_iff in H1.
    destruct (IH (acc + t)%float t H2) as (acc1 & t1 & E).
    exists acc1, t1. unfold ticks in *.
    change (forM_ (t :: t' :: ts) ?f) with (bind (f t) (fun _ => forM_ (t' :: ts) f)).
    unfold bind at 1. by rewrite first_child_waits.
Qed.

Lemma second_run fuel d1 d2 acc1 lt1 ts : forall acc lt,
  ends_wait d2 acc ts = true ->
  exists acc2 t2,
    ticks (5 + fuel) 2%nat ts (C5_running_second d1 d2 acc1 lt1 acc lt)
    = Ok tt (C5_complete d1 d2 acc1 lt1 acc2 t2).
Proof.
  induction ts as [|t ts IH]; intros acc lt H; [done|].
  destruct ts as [|t' ts].
  - exists (acc + t)%float, t. unfold ticks. cbn [forM_]. unfold bind.
    by rewrite second_child_ends.
  - cbn [ends_wait] in H. apply andb_prop in H as [H1 H2].
    apply negb_true_iff in H1.
    destruct (IH (acc + t)%float t H2) as (acc2 & t2 & E).
    exists acc2, t2. unfold ticks in *.
    change (forM_ (t :: t' :: ts) ?f) with (bind (f t) (fun _ => forM_ (t' :: ts) f)).
    unfold bind at 1. by rewrite second_child_waits.
Qed.

(** A duration that is a number (not [NaN]) is reached by one tick of that
    duration: [0 + d] is [d], up to the sign of zero. *)
Lemma ends_wait_exact (d : float) :
  PrimFloat.eqb d d = true -> ends_wait d 0 [d] = true.
Proof.
  intros H. cbn [ends_wait]. unfold number_geb.
  rewrite FloatAxioms.leb_spec, FloatAxioms.add_spec.
  rewrite FloatAxioms.eqb_spec in H.
  change (Prim2SF 0) with (S754_zero false).
  destruct (Prim2SF d) as [s|s| |s m e].
  - by destruct s.
  - by destruct s.
  - discriminate H.
  - unfold SF64add, SFadd, SFleb, SFcompare.
    destruct s; rewrite Z.compare_refl.
    + by rewrite Pos.compare_cont_refl.
    + by rewrite Pos.compare_cont_refl.
Qed.

(** C5 (amended).  For a [Sequence] over two [Wait] chips of [d1] and [d2]
    milliseconds: at the tick at which the time accumulated by the first child
    (the binary64 sum of the ticks since its activation) first reaches [d1],
    the sequence drops that child and activates the second one, which starts
    from zero (what the tick exceeded [d1] by is not carried over); at the
    tick at which the time accumulated by the second child first reaches
    [d2], the sequence terminates.  It has then activated exactly two children
    and its output signal is the output signal of the second child.  For
    durations that are numbers, the ticks [d1] then [d2] are such a run.
    The output signal is the one of the last child whatever that signal is:
    a [Sequence] over two chips that end with the signals they were given
    ends, at its second tick, with the signal of the second. *)
Theorem C5_sequence_of_two_waits_completes
    (fuel : nat) (d1 d2 : float) (ts1 ts2 : list float)
    (entries : gmap string any) (signal1 signal2 : option Signal)
    (t0 t1 t2 : TickInfo) :
  ends_wait d1 0 ts1 = true ->
  ends_wait d2 0 ts2 = true ->
  let r1 := (this <- C5_setup (5 + fuel) d1 d2 ;;
             ticks (5 + fuel) this ts1) empty_store in
  let r2 := (this <- C5_setup (5 + fuel) d1 d2 ;;
             ticks (5 + fuel) this (ts1 ++ ts2)) empty_store in
  let r3 := (this <- Sequence_of_two (5 + fuel) entries signal1 signal2
                                     None None t0 ;;
             call (5 + fuel) (tick this t1) ;;
             call (5 + fuel) (tick this t2)) empty_store in
  (* after the first run: the first child is over, the second one runs *)
  returned r1 = true
  /\ after r1 0%nat _state = Some inactive
  /\ after r1 1%nat _state = Some active
  /\ after r1 2%nat _state = Some active
  /\ after r1 2%nat _childChips = Some [("1", 1%nat)]
  /\ activations r1 2%nat = 2%nat
  (* after the second run: the sequence is complete *)
  /\ returned r2 = true
  /\ after r2 2%nat _state = Some inactive
  /\ after r2 1%nat _outputSignal = Some (Some (new_Signal None None))
  /\ after r2 2%nat _outputSignal = after r2 1%nat _outputSignal
  /\ activations r2 2%nat = 2%nat
  (* the ticks [d1], [d2] are such runs *)
  /\ (PrimFloat.eqb d1 d1 = true -> ends_wait d1 0 [d1] = true)
  /\ (PrimFloat.eqb d2 d2 = true -> ends_wait d2 0 [d2] = true)
  (* the output signal is the one of the last child *)
  /\ returned r3 = true
  /\ after r3 2%nat _state = Some inactive
  /\ after r3 1%nat _outputSignal
     = Some (Some (default (new_Signal None None) signal2))
  /\ after r3 2%nat _outputSignal = after r3 1%nat _outputSignal
  /\ activations r3 2%nat = 2%nat.
Proof.
  intros H1 H2 r1 r2 r3.
  destruct (first_run fuel d1 d2 ts1 0 0 H1) as (acc1 & lt1 & E1).
  destruct (second_run fuel d1 d2 acc1 lt1 ts2 0 lt1 H2) as (acc2 & lt2 & E2).
  assert (R1 : r1 = Ok tt (C5_running_second d1 d2 acc1 lt1 0 lt1)).
  { subst r1. unfold bind. by rewrite C5_setup_runs_first. }
  assert (R2 : r2 = Ok tt (C5_complete d1 d2 acc1 lt1 acc2 lt2)).
  { subst r2. unfold bind. rewrite C5_setup_runs_first. unfold ticks in *.
    by rewrite forM__app, E1. }
  rewrite R1, R2.
  repeat (split; [lazy; reflexivity|]).
  split; [apply ends_wait_exact|].
  split; [apply ends_wait_exact|].
  subst r3. lazy. repeat split.
Qed.

(** Durations of 3 ms and 4 ms, ticked by 1, 2 and 4 ms. *)
Lemma C5_witness :
  let r2 := (this <- C5_setup 5 3 4 ;; ticks 5 this ([1; 2] ++ [4])%float)
              empty_store in
  after r2 2%nat _state = Some inactive
  /\ after r2 2%nat _outputSignal = Some (Some (new_Signal None None))
  /\ activations r2 2%nat = 2%nat.
Proof.
  destruct (C5_sequence_of_two_waits_completes 0 3 4 [1; 2]%float [4%float]
              ∅ None None (mkTickInfo 0) (mkTickInfo 0) (mkTickInfo 0)
              eq_refl eq_refl)
    as (_ & _ & _ & _ & _ & _ & _ & H1 & H2 & H3 & H4 & _).
  split; [exact H1|]. split; [exact (eq_trans H3 H2)|exact H4].
Defined.

(** Durations of 2 ms each.  The ticks 3 then 1, and the single tick 4, both
    amount to [d1 + d2] = 4 ms, and after either the sequence is still
    active, its second child running and its output signal unset. *)
Lemma C5_counterexample :
  let r := (this <- C5_setup 5 2 2 ;; ticks 5 this [3; 1]%float) empty_store in
  let r' := (this <- C5_setup 5 2 2 ;; ticks 5 this [4%float]) empty_store in
  (3 + 1 = 2 + 2)%float
  /\ returned r = true
  /\ after r 2%nat _state = Some active
  /\ after r 2%nat _outputSignal = Some None
  /\ after r 1%nat _state = Some active
  /\ returned r' = true
  /\ after r' 2%nat _state = Some active
  /\ after r' 2%nat _outputSignal = Some None.
Proof. vm_compute. repeat split. Qed.

(** The accumulated time is a binary64 sum: after the ticks [2^53], 1 and 1
    a [Wait] of [2^53 + 2] milliseconds has accumulated [2^53] and goes on
    waiting. *)
Example Wait_accumulates_in_binary64 :
  let r := (context <- alloc_context ∅ ;;
            this <- new (new_Wait 9007199254740994) ;;
            call 2 (activate this (mkTickInfo 0) context None None) ;;
            call 2 (tick this (mkTickInfo 9007199254740992)) ;;
            call 2 (tick this (mkTickInfo 1)) ;;
            call 2 (tick this (mkTickInfo 1))) empty_store in
  returned r = true
  /\ after r 0%nat _state = Some active
  /\ after r 0%nat class
     = Some (Wait 9007199254740994 (Some 9007199254740992%float))
  /\ ends_wait 9007199254740994 0 [9007199254740992; 1; 1]%float = false.
Proof. vm_compute. repeat split. Qed.

(** ** [Queue.next] *)

Lemma next_terminates_running_chip (call : Call -> M unit) (s : St)
    (this : loc) (c : Chip) (queue : list itemloc) (i : itemloc)
    (item : QueueItem) (chip : loc) :
  chips s !! this = Some c ->
  class c = Queue queue ->
  List.find (item_state_is s running) queue = Some i ->
  items s !! i = Some item ->
  q_entityResolvable item = RChip chip ->
  Queue_next call this s = call (terminate chip None) s.
Proof.
  intros Hc Hk Hf Hi Hr.
  unfold Queue_next, bind. rewrite (field_at s this c) by done. rewrite Hk.
  destruct queue as [|j queue]; [done|].
  cbn [length Nat.eqb]. cbv beta iota. unfold gets, id. rewrite Hf.
  unfold the_item. rewrite Hi, Hr. reflexivity.
Qed.

Lemma next_without_running_item (call : Call -> M unit) (s : St)
    (this : loc) (c : Chip) (queue : list itemloc) :
  chips s !! this = Some c ->
  class c = Queue queue ->
  List.find (item_state_is s running) queue = None ->
  Queue_next call this s = Ok tt s.
Proof.
  intros Hc Hk Hf.
  unfold Queue_next, bind. rewrite (field_at s this c) by done. rewrite Hk.
  destruct queue as [|j queue]; [done|].
  cbn [length Nat.eqb]. cbv beta iota. unfold gets, id. by rewrite Hf.
Qed.

(** C9 (amended).  On a [Queue] with a running item that was added as a chip
    instance, [next()] is the termination of that chip, the very chip the
    wrapping [Sequence] of the queue activated; without a running item (in
    particular on an empty queue) [next()] does nothing.  In the run of
    [C9_setup]: the chip is terminated by [next()]; on the following tick the
    wrapper marks the item finished, while the next item is still waiting;
    on the tick after that the queue drops the finished item and starts the
    next one. *)
Theorem C9_next_terminates_running_chip
    (fuel : nat) (s : St) (this : loc) (c : Chip) (queue : list itemloc) :
  chips s !! this = Some c ->
  class c = Queue queue ->
  (forall i item chip,
      List.find (item_state_is s running) queue = Some i ->
      items s !! i = Some item ->
      q_entityResolvable item = RChip chip ->
      Queue_next (call fuel) this s = call fuel (terminate chip None) s)
  /\ (List.find (item_state_is s running) queue = None ->
      Queue_next (call fuel) this s = Ok tt s)
  /\ (let r0 := C9_setup (6 + fuel) empty_store in
      let r1 := (this <- C9_setup (6 + fuel) ;;
                 Queue_next (call (6 + fuel)) this) empty_store in
      let r2 := (this <- C9_setup (6 + fuel) ;;
                 Queue_next (call (6 + fuel)) this ;;
                 call (6 + fuel) (tick this (mkTickInfo 1))) empty_store in
      let r3 := (this <- C9_setup (6 + fuel) ;;
                 Queue_next (call (6 + fuel)) this ;;
                 call (6 + fuel) (tick this (mkTickInfo 1)) ;;
                 call (6 + fuel) (tick this (mkTickInfo 1))) empty_store in
      (* the first item runs, wrapped in the sequence at 4 *)
      item_after r0 0%nat = Some running
      /\ after r0 0%nat _state = Some active
      /\ after r0 4%nat _childChips = Some [("1", 0%nat)]
      (* next() *)
      /\ returned r1 = true
      /\ after r1 0%nat _state = Some inactive
      /\ item_after r1 0%nat = Some running
      (* the following tick *)
      /\ returned r2 = true
      /\ item_after r2 0%nat = Some finished
      /\ item_after r2 1%nat = Some waiting
      /\ after r2 1%nat _state = Some inactive
      (* the tick after *)
      /\ returned r3 = true
      /\ after r3 2%nat queue_of = Some [1%nat]
      /\ item_after r3 1%nat = Some running
      /\ after r3 1%nat _state = Some active).
Proof.
  intros Hc Hk. split; [|split].
  - intros i item chip Hf Hi Hr.
    by apply (next_terminates_running_chip (call fuel) s this c queue i item).
  - intros Hf.
    by apply (next_without_running_item (call fuel) s this c queue).
  - lazy. repeat split.
Qed.

Lemma C9_witness :
  Queue_next (call 6) 2%nat C9_store = call 6 (terminate 0%nat None) C9_store.
Proof.
  refine (proj1 (C9_next_terminates_running_chip 6 C9_store 2%nat
                   (default (fresh Forever) (chips C9_store !! 2%nat))
                   [0%nat; 1%nat] eq_refl eq_refl)
                0%nat (mkQueueItem running (Some 0%nat) (RChip 0%nat))
                0%nat eq_refl eq_refl eq_refl).
Defined.

(** After [next()] and the following tick, the queue has not advanced to the
    next waiting item: that item is still waiting and its chip inactive. *)
Lemma C9_counterexample :
  let r2 := (this <- C9_setup 6 ;;
             Queue_next (call 6) this ;;
             call 6 (tick this (mkTickInfo 1))) empty_store in
  returned r2 = true
  /\ item_after r2 1%nat = Some waiting
  /\ after r2 1%nat _state = Some inactive
  /\ after r2 2%nat queue_of = Some [0%nat; 1%nat].
Proof. vm_compute. repeat split. Qed.

(** An item added as a factory: [next()] calls the factory again, and
    [terminate()] on the chip it builds throws; the chip that runs (at 3)
    stays active and the item stays running. *)
Example Queue_next_on_factory_item :
  let setup :=
    (context <- alloc_context ∅ ;;
     this <- new new_Queue ;;
     call 6 (activate this (mkTickInfo 0) context None None) ;;
     Queue_add this (RFactory (fun _ _ => Some (New new_Forever))) None ;;
     call 6 (tick this (mkTickInfo 1)) ;;
     ret this) in
  let r0 := setup empty_store in
  let r1 := (this <- setup ;; Queue_next (call 6) this) empty_store in
  after r0 2%nat _childChips = Some [("1", 3%nat)]
  /\ after r0 3%nat _state = Some active
  /\ thrown r1 = Some (InvalidStateError "terminate" inactive)
  /\ (chips <$> final r1) ≫= (fun l => _state <$> l !! 3%nat) = Some active
  /\ (items <$> final r1) ≫= (fun l => q_state <$> l !! 0%nat) = Some running.
Proof. vm_compute. repeat split. Qed.

(** ** The lifecycle of a node and its output signal *)

(** *** Computations that leave the lifecycles alone *)

Lemma same_view_refl s : same_view s s.
Proof. by intros n. Qed.

Lemma same_view_trans s1 s2 s3 :
  same_view s1 s2 -> same_view s2 s3 -> same_view s1 s3.
Proof. intros H1 H2 n. by rewrite H2, H1. Qed.

Lemma invariant_view W s s' : same_view s s' -> invariant W s -> invariant W s'.
Proof. intros Hv Hi n. rewrite Hv. apply Hi. Qed.

Lemma framed_keeps_within {A} W (m : M A) : framed m -> keeps_within W m.
Proof.
  intros H s Hi. specialize (H s). destruct (m s); try done.
  by eapply invariant_view.
Qed.

Lemma keeps_within_keeps_lifecycles {A} (m : M A) : keeps_within nobody m -> keeps_lifecycles m.
Proof.
  intros H s Hi. specialize (H s Hi). destruct (m s); try done. by left.
Qed.

Lemma framed_keeps_lifecycles {A} (m : M A) : framed m -> keeps_lifecycles m.
Proof. intros H. by apply keeps_within_keeps_lifecycles, framed_keeps_within. Qed.

Lemma framed_bind {A B} (m : M A) (k : A -> M B) :
  framed m -> (forall a, framed (k a)) -> framed (bind m k).
Proof.
  intros Hm Hk s. unfold bind. specialize (Hm s).
  destruct (m s) as [a s1|e s1| |]; try done.
  specialize (Hk a s1). destruct (k a s1); try done.
  by eapply same_view_trans.
Qed.

Lemma keeps_within_bind {A B} W (m : M A) (k : A -> M B) :
  keeps_within W m -> (forall a, keeps_within W (k a)) -> keeps_within W (bind m k).
Proof.
  intros Hm Hk s Hi. unfold bind. specialize (Hm s Hi).
  destruct (m s) as [a s1|e s1| |]; try done.
  exact (Hk a s1 Hm).
Qed.

Lemma keeps_lifecycles_bind {A B} (m : M A) (k : A -> M B) :
  keeps_lifecycles m -> (forall a, keeps_lifecycles (k a)) -> keeps_lifecycles (bind m k).
Proof.
  intros Hm Hk s Hi. unfold bind. specialize (Hm s Hi).
  destruct (m s) as [a s1|e s1| |]; try done.
  exact (Hk a s1 Hm).
Qed.

(** The primitives of the monad and the accesses to the stores. *)
Lemma framed_ret {A} (a : A) : framed (ret a).
Proof. intros s. apply same_view_refl. Qed.

Lemma framed_throw_TypeError {A} what : framed (throw (A:=A) (TypeError what)).
Proof. by intros s. Qed.

Lemma framed_unmodelled {A} : framed (unmodelled (A:=A)).
Proof. by intros s. Qed.

Lemma keeps_lifecycles_throw {A} e : keeps_lifecycles (throw (A:=A) e).
Proof. intros s Hi. by right. Qed.

Lemma framed_field {A} this (f : Chip -> A) : framed (field this f).
Proof. intros s. unfold field. destruct (chips s !! this); [apply same_view_refl|done]. Qed.

Lemma framed_the_chip this : framed (the_chip this).
Proof. intros s. unfold the_chip. destruct (chips s !! this); [apply same_view_refl|done]. Qed.

Lemma framed_gets {A} (f : St -> A) : framed (gets f).
Proof. intros s. apply same_view_refl. Qed.

Lemma framed_defined {A} what (o : option A) : framed (defined what o).
Proof. destruct o; [apply framed_ret|apply framed_throw_TypeError]. Qed.

(** Updates of a node that keep its state and its output signal. *)
Lemma view_update s this c c' n :
  chips s !! this = Some c ->
  _state c' = _state c -> _outputSignal c' = _outputSignal c ->
  view (set_chips (<[this := c']> (chips s)) s) n = view s n.
Proof.
  intros Hc Hs Ho. unfold view, completed_cycles, count_emitted.
  destruct s as [chs ? ? ? ? ? ? ? em]. simpl in *. f_equal.
  destruct (decide (n = this)) as [->|Hne].
  - rewrite list_lookup_insert_eq by (by eapply lookup_lt_Some).
    rewrite Hc. simpl. by rewrite Hs, Ho.
  - by rewrite list_lookup_insert_ne.
Qed.

Lemma framed_update this f : keeps f -> framed (update this f).
Proof.
  intros Hf s. unfold update. destruct (chips s !! this) as [c|] eqn:Hc; [|done].
  intros n. destruct (Hf c). by apply (view_update s this c).
Qed.

Lemma framed_update_class this f : framed (update_class this f).
Proof. apply framed_update. intros c. by destruct c. Qed.

(** A change of the store that leaves the chips and the notifications alone. *)
Lemma framed_modify (g : St -> St) :
  (forall s, chips (g s) = chips s /\ emitted (g s) = emitted s) ->
  framed (modify g).
Proof.
  intros Hg s. unfold modify. intros n. destruct (Hg s) as [Hc He].
  unfold view, completed_cycles, count_emitted. by rewrite Hc, He.
Qed.

(** A notification other than [terminated] completes no cycle. *)
Lemma cycles_snoc s src ev args n :
  completed_cycles (set_emitted (emitted s ++ [mkEmitted src ev args]) s) n
  = (completed_cycles s n
     + if Nat.eqb src n && String.eqb ev "terminated" then 1 else 0)%nat.
Proof.
  unfold completed_cycles, count_emitted. destruct s as [? ? ? ? ? ? ? ? em].
  simpl. rewrite List.filter_app, length_app. simpl.
  by destruct (Nat.eqb src n && String.eqb ev "terminated").
Qed.

Lemma framed_log this ev args :
  String.eqb ev "terminated" = false ->
  framed (modify (fun s => set_emitted (emitted s ++ [mkEmitted this ev args]) s)).
Proof.
  intros He s n. unfold modify, view. rewrite cycles_snoc, He, andb_false_r.
  destruct s; simpl. f_equal. lia.
Qed.

(** A new node is inactive, has no output signal and has emitted nothing. *)
Lemma keeps_within_alloc_chip W k : keeps_within W (alloc_chip (fresh k)).
Proof.
  intros s Hi n. specialize (Hi n). unfold invariant_at, view, completed_cycles, count_emitted in *.
  destruct s as [chs ? ? ? ? ? ? ? em]. simpl in *.
  destruct (decide (n < length chs)%nat) as [Hlt|Hge].
  - by rewrite lookup_app_l.
  - rewrite lookup_ge_None_2 in Hi by lia. simpl in Hi.
    destruct (decide (n = length chs)) as [->|Hne].
    + rewrite lookup_app_r, Nat.sub_diag by lia. simpl.
      split; [done|]. intros _. rewrite Hi.
      split; [by intros ?%is_Some_None | intros [? _]; lia].
    + rewrite lookup_ge_None_2; [done|]. rewrite length_app. simpl. lia.
Qed.

Lemma keeps_within_new W t : keeps_within W (new t).
Proof. apply keeps_within_alloc_chip. Qed.

Lemma framed_alloc_context o : framed (alloc_context o).
Proof. intros s n. unfold alloc_context, ctx_alloc. by destruct s. Qed.

Lemma framed_update_context l f : framed (update_context l f).
Proof. apply framed_modify. intros s. by destruct s. Qed.

Lemma framed_alloc_item i : framed (alloc_item i).
Proof. intros s n. by destruct s. Qed.

Lemma framed_the_item i : framed (the_item i).
Proof. intros s. unfold the_item. destruct (items s !! i); [apply same_view_refl|done]. Qed.

Lemma framed_set_item_state i v : framed (set_item_state i v).
Proof. apply framed_modify. intros s. by destruct s. Qed.

Lemma framed_bind_this code : framed (bind_this code).
Proof. intros s n. by destruct s. Qed.

Lemma framed_uniqueId prefix : framed (uniqueId prefix).
Proof. intros s n. by destruct s. Qed.

Lemma framed_random_id : framed random_id.
Proof. intros s n. by destruct s. Qed.

Lemma framed_processChipContextM c alts : framed (processChipContextM c alts).
Proof.
  intros s. unfold processChipContextM.
  destruct (processChipContext c alts (contexts s)) as [l cs].
  intros n. by destruct s.
Qed.

Lemma framed_forM {A} (l : list A) (f : A -> M unit) :
  (forall x, framed (f x)) -> framed (forM_ l f).
Proof.
  intros H. induction l as [|x l IH]; [apply framed_ret|].
  simpl. apply framed_bind; [apply H|by intros].
Qed.

Lemma keeps_within_forM {A} W (l : list A) (f : A -> M unit) :
  (forall x, keeps_within W (f x)) -> keeps_within W (forM_ l f).
Proof.
  intros H. induction l as [|x l IH]; [apply framed_keeps_within, framed_ret|].
  simpl. apply keeps_within_bind; [apply H|by intros].
Qed.

Lemma keeps_lifecycles_forM {A} (l : list A) (f : A -> M unit) :
  (forall x, keeps_lifecycles (f x)) -> keeps_lifecycles (forM_ l f).
Proof.
  intros H. induction l as [|x l IH]; [apply framed_keeps_lifecycles, framed_ret|].
  simpl. apply keeps_lifecycles_bind; [apply H|by intros].
Qed.

Lemma framed_when b m : framed m -> framed (when b m).
Proof. destruct b; [done|intros _; apply framed_ret]. Qed.
Lemma keeps_within_when W b m : keeps_within W m -> keeps_within W (when b m).
Proof. destruct b; [done|intros _; apply framed_keeps_within, framed_ret]. Qed.
Lemma keeps_lifecycles_when b m : keeps_lifecycles m -> keeps_lifecycles (when b m).
Proof. destruct b; [done|intros _; apply framed_keeps_lifecycles, framed_ret]. Qed.

(** *** The methods keep the invariant *)

Create HintDb lifecycle discriminated.
#[local] Hint Resolve framed_ret framed_throw_TypeError framed_unmodelled
  framed_field framed_the_chip framed_gets framed_defined framed_update_class
  framed_alloc_context framed_update_context framed_alloc_item framed_the_item
  framed_set_item_state framed_bind_this framed_uniqueId framed_random_id
  framed_processChipContextM keeps_within_new keeps_lifecycles_throw : lifecycle.

(** One step of the proof that a method keeps the invariant. *)
Ltac keeps_tac := let c := fresh "c" in intros c; destruct c; split; reflexivity.

Ltac step :=
  lazymatch goal with
  | |- framed (bind _ _) => apply framed_bind; [|intros]
  | |- keeps_within _ (bind _ _) => apply keeps_within_bind; [|intros]
  | |- keeps_lifecycles (bind _ _) => apply keeps_lifecycles_bind; [|intros]
  | |- framed (forM_ _ _) => apply framed_forM; intros
  | |- keeps_within _ (forM_ _ _) => apply keeps_within_forM; intros
  | |- keeps_lifecycles (forM_ _ _) => apply keeps_lifecycles_forM; intros
  | |- framed (when _ _) => apply framed_when
  | |- keeps_within _ (when _ _) => apply keeps_within_when
  | |- keeps_lifecycles (when _ _) => apply keeps_lifecycles_when
  | |- framed (update _ _) => apply framed_update; keeps_tac
  | |- framed (modify _) => apply framed_log; first [reflexivity|assumption]
  | |- _ (if ?b then _ else _) => destruct b
  | |- _ (match ?x with _ => _ end) => destruct x
  | |- _ (let (_, _) := ?x in _) => destruct x
  | |- keeps_within _ _ => first [ solve [auto with lifecycle] | apply framed_keeps_within ]
  | |- keeps_lifecycles _ => first [ solve [auto with lifecycle] | apply framed_keeps_lifecycles ]
  | |- framed _ => solve [auto with lifecycle]
  end.

(** The view of a store after an update and after a notification. *)
Lemma view_update_this s this c c' :
  chips s !! this = Some c ->
  view (set_chips (<[this := c']> (chips s)) s) this
  = (Some (_state c', _outputSignal c'), completed_cycles s this).
Proof.
  intros Hc. unfold view, completed_cycles, count_emitted.
  destruct s as [chs ? ? ? ? ? ? ? em]. simpl in *.
  by rewrite list_lookup_insert_eq by (by eapply lookup_lt_Some).
Qed.

Lemma view_update_other s this c' n :
  n <> this ->
  view (set_chips (<[this := c']> (chips s)) s) n = view s n.
Proof.
  intros Hne. unfold view, completed_cycles, count_emitted.
  destruct s as [chs ? ? ? ? ? ? ? em]. simpl in *.
  by rewrite list_lookup_insert_ne.
Qed.

Lemma view_log s this ev args n :
  view (set_emitted (emitted s ++ [mkEmitted this ev args]) s) n
  = ((view s n).1,
     ((view s n).2
      + if Nat.eqb this n && String.eqb ev "terminated" then 1 else 0)%nat).
Proof.
  unfold view. rewrite cycles_snoc. by destruct s.
Qed.

Lemma view_log_other s this ev args n :
  n <> this ->
  view (set_emitted (emitted s ++ [mkEmitted this ev args]) s) n = view s n.
Proof.
  intros Hn. rewrite view_log.
  replace (Nat.eqb this n) with false by (symmetry; by apply Nat.eqb_neq).
  cbn [andb]. rewrite Nat.add_0_r. by destruct (view s n).
Qed.

Lemma view_log_this s this args v k :
  view s this = (v, k) ->
  view (set_emitted (emitted s ++ [mkEmitted this "terminated" args]) s) this
  = (v, S k).
Proof.
  intros H. rewrite view_log, Nat.eqb_refl, H. simpl. f_equal. lia.
Qed.

Lemma view_chip s n c :
  chips s !! n = Some c ->
  view s n = (Some (_state c, _outputSignal c), completed_cycles s n).
Proof. intros H. unfold view. by rewrite H. Qed.

Lemma view_state s n st out k :
  view s n = (Some (st, out), k) ->
  exists c, chips s !! n = Some c /\ _state c = st /\ _outputSignal c = out
            /\ completed_cycles s n = k.
Proof.
  unfold view. intros H. injection H as H1 H2.
  destruct (chips s !! n) as [c|]; [|done]. simpl in H1.
  injection H1 as ? ?. by exists c.
Qed.

(** The methods, over virtual calls that keep the invariant: the calls a
    termination makes may run inside a termination, and every call keeps the
    lifecycles. *)
Section Calls.
Variable call : Call -> M unit.
Hypothesis HA : forall W c, term_like c -> keeps_within W (call c).
Hypothesis HB : forall c, keeps_lifecycles (call c).

(** A method that is a sequence of steps of the kinds above. *)
Ltac go :=
  repeat first
    [ progress cbv zeta
    | lazymatch goal with
      | |- keeps_within _ (call _) => apply HA; exact I
      | |- keeps_lifecycles (call _) => apply HB
      end
    | step ].

Lemma framed_EventEmitter_on this type cb : framed (EventEmitter_on this type cb).
Proof. unfold EventEmitter_on. go. Qed.
Lemma framed_EventEmitter_once this type cb : framed (EventEmitter_once this type cb).
Proof. unfold EventEmitter_once. go. Qed.
Lemma framed_EventEmitter_off this type cb : framed (EventEmitter_off this type cb).
Proof. unfold EventEmitter_off. go. Qed.
Lemma framed_window_add type cb once : framed (window_addEventListener type cb once).
Proof. apply framed_modify. intros s. by destruct s. Qed.
Lemma framed_window_remove type cb : framed (window_removeEventListener type cb).
Proof. apply framed_modify. intros s. by destruct s. Qed.
#[local] Hint Resolve framed_EventEmitter_on framed_EventEmitter_once framed_EventEmitter_off
  framed_window_add framed_window_remove : lifecycle.

Lemma framed_subscribe h e ev cb : framed (subscribe h e ev cb).
Proof. unfold subscribe. go. Qed.
Lemma framed_subscribeOnce h e ev cb : framed (subscribeOnce h e ev cb).
Proof. unfold subscribeOnce. go. Qed.
Lemma framed_unsubscribe h e ev cb : framed (unsubscribe h e ev cb).
Proof. unfold unsubscribe. go. Qed.
#[local] Hint Resolve framed_subscribe framed_subscribeOnce framed_unsubscribe : lifecycle.

Lemma framed_ChipBase__subscribe this e ev cb h : framed (ChipBase__subscribe this e ev cb h).
Proof. unfold ChipBase__subscribe. go. Qed.
Lemma framed_ChipBase__subscribeOnce this e ev cb h : framed (ChipBase__subscribeOnce this e ev cb h).
Proof. unfold ChipBase__subscribeOnce. go. Qed.
Lemma framed_ChipBase__unsubscribe this e ev cb : framed (ChipBase__unsubscribe this e ev cb).
Proof. unfold ChipBase__unsubscribe. go. Qed.
#[local] Hint Resolve framed_ChipBase__subscribe framed_ChipBase__subscribeOnce framed_ChipBase__unsubscribe : lifecycle.

(** The listeners of an event are called one after the other. *)
Lemma keeps_within_listeners W this type :
  keeps_within W (registered <- field this _listeners ;;
           forM_ (List.filter (fun r => String.eqb (r_event r) type) registered)
             (fun r => when (r_once r) (EventEmitter_off this type (r_cb r)) ;;
                       call (invoke (r_cb r)))).
Proof. go. Qed.

Lemma keeps_within_emit W this type args :
  String.eqb type "terminated" = false ->
  keeps_within W (EventEmitter_emit call this type args).
Proof. intros He. unfold EventEmitter_emit. step; [go|]. apply keeps_within_listeners. Qed.

Lemma keeps_within_resize W this : keeps_within W (ChipBase_resize call this).
Proof. unfold ChipBase_resize. step; [go|]. by apply keeps_within_emit. Qed.


#[local] Hint Resolve keeps_within_resize framed_keeps_within keeps_within_keeps_lifecycles : lifecycle.
#[local] Hint Extern 1 (keeps_within _ (EventEmitter_emit _ _ _ _)) =>
  apply keeps_within_emit; reflexivity : lifecycle.

Lemma framed_set_attribute this n v : framed (set_attribute this n v).
Proof. unfold set_attribute. go. Qed.
#[local] Hint Resolve framed_set_attribute : lifecycle.

Lemma keeps_within_onChildTerminated W this index :
  keeps_within W (Alternative__onChildTerminated call this index).
Proof. unfold Alternative__onChildTerminated. go. Qed.
#[local] Hint Resolve keeps_within_onChildTerminated : lifecycle.

Lemma keeps_within_apply_closure W f : keeps_within W (apply_closure call f).
Proof. destruct f; cbn [apply_closure]; go. Qed.

Lemma keeps_within_terminateAll W this o :
  keeps_within W (Composite__terminateAllChildChips call this o).
Proof. unfold Composite__terminateAllChildChips. go. Qed.

Lemma framed_onTerminate this : framed (_onTerminate this).
Proof.
  unfold _onTerminate, Sequence__onTerminate, StateMachine__onTerminate,
    Queue__onTerminate.
  go.
Qed.

(** The end of a termination: [this] is inactive with an output signal and
    one more cycle, the other nodes are as they were. *)
Lemma invariant_close W W' s s' this out k :
  invariant W' s ->
  (forall n, n <> this -> view s' n = view s n) ->
  (forall n, n <> this -> (W n <-> W' n)) ->
  view s' this = (Some (inactive, Some out), S k) ->
  invariant W s'.
Proof.
  intros Hi Hv HW Ht n. destruct (decide (n = this)) as [->|Hne].
  - rewrite Ht. unfold invariant_at. simpl. split; [done|]. intros _.
    split; [intros _; split; [lia|done]|by eexists].
  - rewrite (Hv n Hne). specialize (Hi n). unfold invariant_at in *.
    destruct ((view s n).1) as [[st out']|]; [|done].
    destruct Hi as [H1 H2]. split.
    + intros Hw. apply H1. by apply HW.
    + intros Hw. apply H2. intros Hw'. apply Hw. by apply HW.
Qed.

Lemma keeps_within_ChipBase_terminate W this o :
  keeps_within W (ChipBase_terminate call this o).
Proof.
  intros s Hi. unfold ChipBase_terminate.
  unfold bind at 1. unfold field at 1.
  destruct (chips s !! this) as [c|] eqn:Hc; [|done].
  destruct (negb (ChipState_eqb (_state c) active)
            && negb (ChipState_eqb (_state c) paused)); [done|].
  unfold bind at 1. rewrite (update_at s this c) by done.
  set (sig := default (new_Signal None None) o).
  set (s1 := set_chips _ s).
  assert (V1 : view s1 this = (Some (_state c, Some sig), completed_cycles s this)).
  { unfold s1. rewrite (view_update_this s this c) by done. by destruct c. }
  assert (O1 : forall n, n <> this -> view s1 n = view s n).
  { intros n Hn. by apply view_update_other. }
  unfold bind at 1. pose proof (framed_onTerminate this s1) as F1.
  destruct (_onTerminate this s1) as [[] s2|e s2| |]; try done.
  unfold bind at 1.
  pose proof (framed_ChipBase__unsubscribe this None None None s2) as F2.
  destruct (ChipBase__unsubscribe this None None None s2) as [[] s3|e s3| |];
    try done.
  assert (V3 : view s3 this = (Some (_state c, Some sig), completed_cycles s this)).
  { by rewrite F2, F1. }
  destruct (view_state _ _ _ _ _ V3) as (c3 & Hc3 & Hs3 & Ho3 & Hk3).
  unfold bind at 1. rewrite (update_at s3 this c3) by done.
  set (s4 := set_chips _ s3).
  assert (Hc4 : chips s4 !! this = Some (set_state inactive c3)).
  { unfold s4. by eapply lookup_updated. }
  unfold bind at 1. rewrite (field_at s4 this _ _ Hc4).
  unfold EventEmitter_emit. unfold bind at 1. unfold modify at 1.
  apply keeps_within_listeners.
  eapply (invariant_close W W s _ this sig (completed_cycles s this)); [done| |done|].
  - intros n Hn. rewrite view_log_other by done. unfold s4.
    rewrite view_update_other by done. rewrite F2, F1. by apply O1.
  - apply view_log_this. unfold s4.
    rewrite (view_update_this s3 this c3) by done.
    rewrite Hk3. destruct c3; simpl in *. by rewrite Ho3.
Qed.

Lemma keeps_within_Composite_terminate W this o :
  keeps_within W (Composite_terminate call this o).
Proof.
  intros s Hi. unfold Composite_terminate.
  unfold bind at 1. unfold field at 1.
  destruct (chips s !! this) as [c|] eqn:Hc; [|done].
  destruct (negb (ChipState_eqb (_state c) active)
            && negb (ChipState_eqb (_state c) paused)); [done|].
  unfold bind at 1. rewrite (field_at s this c) by done.
  destruct (_methodCallInProgress c).
  { (* deferred *)
    apply (framed_keeps_within W
             (update this (set_deferredOutputSignal
                (Some (default (new_Signal None None) o))))); [|done].
    apply framed_update. intros x. by destruct x. }
  set (sig := default (new_Signal None None) o).
  unfold bind at 1. rewrite (update_at s this c) by done.
  set (s1 := set_chips _ s).
  set (W' := fun n => n = this \/ W n).
  assert (I1 : invariant W' s1).
  { intros n. destruct (decide (n = this)) as [->|Hne].
    - unfold s1. rewrite (view_update_this s this c) by done.
      split; [by destruct c|]. intros H. destruct H. by left.
    - unfold s1. rewrite view_update_other by done.
      specialize (Hi n). unfold invariant_at in *.
      destruct ((view s n).1) as [[st out']|]; [|done].
      destruct Hi as [H1 H2]. split.
      + intros [?|Hw]; [done|by apply H1].
      + intros Hw. apply H2. intros Hw'. apply Hw. by right. }
  unfold bind at 1.
  pose proof (framed_keeps_within W' _ (framed_ChipBase__unsubscribe this None None None)
                s1 I1) as I2.
  destruct (ChipBase__unsubscribe this None None None s1) as [[] s2|e s2| |];
    try done.
  unfold bind at 1.
  pose proof (keeps_within_terminateAll W' this None s2 I2) as I3.
  destruct (Composite__terminateAllChildChips call this None s2)
    as [[] s3|e s3| |]; try done.
  (* the composite is still inactive *)
  pose proof (I3 this) as H3. unfold invariant_at in H3.
  destruct (view s3 this) as [[[st3 out3]|] k3] eqn:V3; simpl in H3.
  2:{ (* the chip is gone: the update throws *)
      unfold bind at 1. unfold update at 1.
      unfold view in V3. injection V3 as V3 _.
      destruct (chips s3 !! this); [done|]. done. }
  destruct H3 as [H3 _]. specialize (H3 (or_introl eq_refl)). subst st3.
  destruct (view_state _ _ _ _ _ V3) as (c3 & Hc3 & Hs3 & Ho3 & Hk3).
  unfold bind at 1. rewrite (update_at s3 this c3) by done.
  set (s4 := set_chips _ s3).
  assert (V4 : view s4 this = (Some (inactive, Some sig), k3)).
  { unfold s4. rewrite (view_update_this s3 this c3) by done.
    rewrite Hk3. destruct c3; simpl in *. by rewrite Hs3. }
  unfold bind at 1. pose proof (framed_onTerminate this s4) as F5.
  destruct (_onTerminate this s4) as [[] s5|e s5| |]; try done.
  assert (V5 : view s5 this = (Some (inactive, Some sig), k3)) by (by rewrite F5).
  destruct (view_state _ _ _ _ _ V5) as (c5 & Hc5 & Hs5 & Ho5 & Hk5).
  unfold bind at 1. rewrite (field_at s5 this c5) by done.
  unfold EventEmitter_emit. unfold bind at 1. unfold modify at 1.
  apply keeps_within_listeners.
  eapply (invariant_close W W' s3 _ this sig k3); [done| | |].
  - intros n Hn. rewrite view_log_other by done. rewrite F5. unfold s4.
    by rewrite view_update_other.
  - intros n Hn. unfold W'. split; [by right|]. by intros [?|?].
  - by apply view_log_this.
Qed.

Lemma keeps_within_dispatch_term W c : term_like c -> keeps_within W (dispatch call c).
Proof.
  destruct c; try done; intros _; cbn [dispatch].
  - step; [go|]. destruct (is_Composite a).
    + apply keeps_within_Composite_terminate.
    + apply keeps_within_ChipBase_terminate.
  - apply keeps_within_apply_closure.
Qed.


(** *** Every call *)

#[local] Hint Resolve keeps_within_apply_closure keeps_within_terminateAll framed_onTerminate
  keeps_within_ChipBase_terminate keeps_within_Composite_terminate : lifecycle.

(** The rest of a method, run from a store that satisfies the invariant. *)
Ltac rest I :=
  cbv beta iota;
  lazymatch goal with
  | |- match ?m ?s with _ => _ end =>
      let R := fresh "R" in
      assert (R : keeps_lifecycles m) by go; exact (R s I)
  end.

Lemma keeps_within_resolveChip W resolvable context :
  keeps_within W (resolveChip resolvable context).
Proof. unfold resolveChip. go. Qed.
#[local] Hint Resolve keeps_within_resolveChip : lifecycle.

Lemma keeps_lifecycles_terminateChildChip this chip o :
  keeps_lifecycles (Composite__terminateChildChip call this chip o).
Proof. unfold Composite__terminateChildChip. go. Qed.
#[local] Hint Resolve keeps_lifecycles_terminateChildChip : lifecycle.

Lemma keeps_lifecycles_activateChildChip this chipResolvable options :
  keeps_lifecycles (Composite__activateChildChip call this chipResolvable options).
Proof. unfold Composite__activateChildChip. go. Qed.
#[local] Hint Resolve keeps_lifecycles_activateChildChip : lifecycle.

Lemma keeps_within_removeTerminated W this :
  keeps_within W (Composite__removeTerminatedChildChips call this).
Proof. unfold Composite__removeTerminatedChildChips. go. Qed.
#[local] Hint Resolve keeps_within_removeTerminated : lifecycle.

Lemma keeps_lifecycles_tickChildChips this : keeps_lifecycles (Composite__tickChildChips call this).
Proof. unfold Composite__tickChildChips. go. Qed.
#[local] Hint Resolve keeps_lifecycles_tickChildChips : lifecycle.

Lemma keeps_lifecycles_Transitory__onActivate this : keeps_lifecycles (Transitory__onActivate call this).
Proof. unfold Transitory__onActivate. go. Qed.
Lemma framed_apply_lambda f : framed (apply_lambda f).
Proof. unfold apply_lambda. go. Qed.
#[local] Hint Resolve framed_apply_lambda : lifecycle.
Lemma keeps_lifecycles_Lambda__onActivate this : keeps_lifecycles (Lambda__onActivate call this).
Proof. unfold Lambda__onActivate. go. Qed.
Lemma framed_Wait__onActivate this : framed (Wait__onActivate this).
Proof. unfold Wait__onActivate. go. Qed.
Lemma keeps_lifecycles_Wait__onTick this : keeps_lifecycles (Wait__onTick call this).
Proof. unfold Wait__onTick. go. Qed.
Lemma keeps_lifecycles_Block_done this signal : keeps_lifecycles (Block_done call this signal).
Proof. unfold Block_done. go. Qed.

Lemma keeps_lifecycles_Parallel_activate_info this i info :
  keeps_lifecycles (Parallel_activate_info call this i info).
Proof. unfold Parallel_activate_info. go. Qed.
#[local] Hint Resolve keeps_lifecycles_Parallel_activate_info : lifecycle.
Lemma keeps_lifecycles_Parallel_addChildChip this info :
  keeps_lifecycles (Parallel_addChildChip call this info).
Proof. unfold Parallel_addChildChip. go. Qed.
Lemma keeps_lifecycles_Parallel__onActivate this : keeps_lifecycles (Parallel__onActivate call this).
Proof. unfold Parallel__onActivate. go. Qed.
Lemma keeps_lifecycles_Parallel__onAfterTick this : keeps_lifecycles (Parallel__onAfterTick call this).
Proof. unfold Parallel__onAfterTick. go. Qed.

Lemma keeps_lifecycles_Sequence__switchChip this : keeps_lifecycles (Sequence__switchChip call this).
Proof. unfold Sequence__switchChip. go. Qed.
#[local] Hint Resolve keeps_lifecycles_Sequence__switchChip : lifecycle.
Lemma keeps_lifecycles_Sequence__onActivate this : keeps_lifecycles (Sequence__onActivate call this).
Proof. unfold Sequence__onActivate. go. Qed.
Lemma keeps_lifecycles_Sequence__advance this signal : keeps_lifecycles (Sequence__advance call this signal).
Proof. unfold Sequence__advance. go. Qed.
#[local] Hint Resolve keeps_lifecycles_Sequence__advance : lifecycle.
Lemma keeps_lifecycles_Sequence__onAfterTick this : keeps_lifecycles (Sequence__onAfterTick call this).
Proof. unfold Sequence__onAfterTick. go. Qed.
Lemma keeps_lifecycles_Sequence_skip this : keeps_lifecycles (Sequence_skip call this).
Proof. unfold Sequence_skip. go. Qed.
Lemma keeps_lifecycles_Sequence_restart this : keeps_lifecycles (Sequence_restart call this).
Proof. unfold Sequence_restart. go. Qed.
Lemma keeps_lifecycles_Sequence_addChildChip this info :
  keeps_lifecycles (Sequence_addChildChip call this info).
Proof. unfold Sequence_addChildChip. go. Qed.

Lemma keeps_lifecycles_activateChildChip_undefined this id :
  keeps_lifecycles (Composite__activateChildChip_undefined this id).
Proof. unfold Composite__activateChildChip_undefined. go. Qed.
Lemma framed_inherited_descriptor n : framed (inherited_descriptor n).
Proof. unfold inherited_descriptor. go. Qed.
#[local] Hint Resolve keeps_lifecycles_activateChildChip_undefined framed_inherited_descriptor
  : lifecycle.
Lemma keeps_lifecycles_StateMachine__changeState this nextState :
  keeps_lifecycles (StateMachine__changeState call this nextState).
Proof. unfold StateMachine__changeState. go. Qed.
#[local] Hint Resolve keeps_lifecycles_StateMachine__changeState : lifecycle.
Lemma framed_context_entries this : framed (context_entries this).
Proof. unfold context_entries. go. Qed.
#[local] Hint Resolve framed_context_entries : lifecycle.
Lemma keeps_lifecycles_StateMachine__onAfterTick this :
  keeps_lifecycles (StateMachine__onAfterTick call this).
Proof. unfold StateMachine__onAfterTick. go. Qed.
Lemma keeps_lifecycles_StateMachine_changeState this nextState :
  keeps_lifecycles (StateMachine_changeState call this nextState).
Proof. unfold StateMachine_changeState. go. Qed.

Lemma keeps_lifecycles_Alternative__onActivate this : keeps_lifecycles (Alternative__onActivate call this).
Proof. unfold Alternative__onActivate. go. Qed.

Lemma framed_Queue_isEmpty this : framed (Queue_isEmpty this).
Proof. unfold Queue_isEmpty. go. Qed.
Lemma framed_Queue_add this item context : framed (Queue_add this item context).
Proof. unfold Queue_add. go. Qed.
Lemma keeps_lifecycles_Queue_next this : keeps_lifecycles (Queue_next call this).
Proof. unfold Queue_next. go. Qed.
Lemma keeps_lifecycles_Queue__activateItem this i : keeps_lifecycles (Queue__activateItem call this i).
Proof. unfold Queue__activateItem. go. Qed.
#[local] Hint Resolve keeps_lifecycles_Queue__activateItem : lifecycle.
Lemma keeps_lifecycles_Queue__onTick this : keeps_lifecycles (Queue__onTick call this).
Proof. unfold Queue__onTick. go. Qed.

#[local] Hint Resolve keeps_lifecycles_Transitory__onActivate keeps_lifecycles_Lambda__onActivate
  framed_Wait__onActivate keeps_lifecycles_Wait__onTick keeps_lifecycles_Parallel__onActivate
  keeps_lifecycles_Parallel__onAfterTick keeps_lifecycles_Sequence__onActivate
  keeps_lifecycles_Sequence__onAfterTick keeps_lifecycles_StateMachine__onAfterTick
  keeps_lifecycles_Alternative__onActivate keeps_lifecycles_Queue__onTick : lifecycle.

Lemma keeps_lifecycles_onActivate this : keeps_lifecycles (_onActivate call this).
Proof. unfold _onActivate. go. Qed.
Lemma keeps_lifecycles_onTick this : keeps_lifecycles (_onTick call this).
Proof. unfold _onTick. go. Qed.
Lemma keeps_lifecycles_onAfterTick this : keeps_lifecycles (_onAfterTick call this).
Proof. unfold _onAfterTick. go. Qed.
#[local] Hint Resolve keeps_lifecycles_onActivate keeps_lifecycles_onTick keeps_lifecycles_onAfterTick : lifecycle.

(** A change of state that leaves the node without an output signal. *)
Lemma invariant_transition s this c c' :
  invariant nobody s ->
  chips s !! this = Some c ->
  (lifecycle c (completed_cycles s this) ->
   lifecycle c' (completed_cycles s this)) ->
  invariant nobody (set_chips (<[this := c']> (chips s)) s).
Proof.
  intros Hi Hc Hl n. destruct (decide (n = this)) as [->|Hne].
  - rewrite (view_update_this s this c) by done.
    specialize (Hi this). rewrite (view_chip s this c) in Hi by done.
    destruct Hi as [_ Hi]. split; [intros []|]. intros _.
    apply Hl, Hi. intros [].
  - rewrite view_update_other by done. apply Hi.
Qed.

Lemma keeps_lifecycles_ChipBase_activate this tickInfo chipContext inputSignal memento :
  keeps_lifecycles (ChipBase_activate call this tickInfo chipContext inputSignal memento).
Proof.
  intros s Hi. unfold ChipBase_activate.
  unfold bind at 1. unfold field at 1.
  destruct (chips s !! this) as [c|] eqn:Hc; [|by left].
  destruct (negb (ChipState_eqb (_state c) inactive)); [by right|].
  unfold bind at 1. rewrite (update_at s this c) by done.
  set (s1 := set_chips _ s).
  assert (I1 : invariant nobody s1).
  { apply (invariant_transition s this c); [done..|]. intros _. destruct c.
    unfold lifecycle. simpl.
    split; [by intros ?%is_Some_None|by intros [_ ?]]. }
  rest I1.
Qed.

Lemma keeps_lifecycles_ChipBase_tick this tickInfo : keeps_lifecycles (ChipBase_tick call this tickInfo).
Proof. unfold ChipBase_tick. go. Qed.

Lemma framed_onPause this : framed (_onPause this).
Proof. apply framed_ret. Qed.
Lemma framed_onResume this : framed (_onResume this).
Proof. apply framed_ret. Qed.
#[local] Hint Resolve framed_onPause framed_onResume : lifecycle.

Lemma keeps_lifecycles_ChipBase_pause this : keeps_lifecycles (ChipBase_pause this).
Proof.
  intros s Hi. unfold ChipBase_pause.
  unfold bind at 1. unfold field at 1.
  destruct (chips s !! this) as [c|] eqn:Hc; [|by left].
  destruct (_state c) eqn:Hs; cbn [ChipState_eqb negb]; [by right| |by right].
  unfold bind at 1. rewrite (update_at s this c) by done.
  set (s1 := set_chips _ s).
  assert (I1 : invariant nobody s1).
  { apply (invariant_transition s this c); [done..|]. destruct c.
    unfold lifecycle. simpl in *. subst. intros [H1 H2].
    split; [intros H; by destruct (H1 H)|by intros [_ ?]]. }
  rest I1.
Qed.

Lemma keeps_lifecycles_ChipBase_resume this : keeps_lifecycles (ChipBase_resume this).
Proof.
  intros s Hi. unfold ChipBase_resume.
  unfold bind at 1. unfold field at 1.
  destruct (chips s !! this) as [c|] eqn:Hc; [|by left].
  destruct (_state c) eqn:Hs; cbn [ChipState_eqb negb]; [by right|by right|].
  unfold bind at 1. rewrite (update_at s this c) by done.
  set (s1 := set_chips _ s).
  assert (I1 : invariant nobody s1).
  { apply (invariant_transition s this c); [done..|]. destruct c.
    unfold lifecycle. simpl in *. subst. intros [H1 H2].
    split; [intros H; by destruct (H1 H)|by intros [_ ?]]. }
  rest I1.
Qed.

#[local] Hint Resolve keeps_lifecycles_ChipBase_activate keeps_lifecycles_ChipBase_tick keeps_lifecycles_ChipBase_pause
  keeps_lifecycles_ChipBase_resume : lifecycle.

Lemma keeps_lifecycles_Composite_activate this tickInfo chipContext inputSignal memento :
  keeps_lifecycles (Composite_activate call this tickInfo chipContext inputSignal memento).
Proof. unfold Composite_activate. go. Qed.
Lemma keeps_lifecycles_Composite_tick this tickInfo : keeps_lifecycles (Composite_tick call this tickInfo).
Proof. unfold Composite_tick. go. Qed.
Lemma keeps_lifecycles_Composite_pause this : keeps_lifecycles (Composite_pause call this).
Proof. unfold Composite_pause. go. Qed.
Lemma keeps_lifecycles_Composite_resume this : keeps_lifecycles (Composite_resume call this).
Proof. unfold Composite_resume. go. Qed.
#[local] Hint Resolve keeps_lifecycles_Composite_activate keeps_lifecycles_Composite_tick keeps_lifecycles_Composite_pause
  keeps_lifecycles_Composite_resume : lifecycle.
Lemma keeps_lifecycles_StateMachine_activate this tickInfo chipContext inputSignal memento :
  keeps_lifecycles (StateMachine_activate call this tickInfo chipContext inputSignal memento).
Proof. unfold StateMachine_activate. go. Qed.
#[local] Hint Resolve keeps_lifecycles_StateMachine_activate : lifecycle.

Lemma keeps_lifecycles_dispatch c : keeps_lifecycles (dispatch call c).
Proof. destruct c; cbn [dispatch]; go. Qed.

End Calls.

(** By induction on the depth of the calls: every virtual call keeps the
    invariant. *)
Lemma call_term fuel : forall W c, term_like c -> keeps_within W (call fuel c).
Proof.
  induction fuel as [|fuel IH]; intros W c Hc; [by intros s _|].
  cbn [call]. by apply keeps_within_dispatch_term.
Qed.

Lemma call_all fuel : forall c, keeps_lifecycles (call fuel c).
Proof.
  induction fuel as [|fuel IH]; intros c; [by intros s _|].
  cbn [call]. apply keeps_lifecycles_dispatch; [apply call_term|exact IH].
Qed.

(** ** What a termination does to the nodes *)

Lemma ends_refl s : ends s s.
Proof. intros n. by left. Qed.

Lemma ended_trans v1 v2 v3 : ended v1 v2 -> ended v2 v3 -> ended v1 v3.
Proof.
  intros [->|(st & out & k & o & -> & Hst & ->)] H; [done|].
  destruct H as [->|(st' & out' & k' & o' & E & Hst' & _)].
  - right. by exists st, out, k, o.
  - injection E as E _ _. by destruct Hst'.
Qed.

Lemma ends_trans s1 s2 s3 : ends s1 s2 -> ends s2 s3 -> ends s1 s3.
Proof. intros H1 H2 n. eapply ended_trans; [apply H1|apply H2]. Qed.

Lemma same_view_ends s s' : same_view s s' -> ends s s'.
Proof. intros H n. left. apply H. Qed.

Lemma framed_only_ends {A} (m : M A) : framed m -> only_ends m.
Proof.
  intros H s. specialize (H s). destruct (m s); try done.
  by apply same_view_ends.
Qed.

Lemma only_ends_bind {A B} (m : M A) (k : A -> M B) :
  only_ends m -> (forall a, only_ends (k a)) -> only_ends (bind m k).
Proof.
  intros Hm Hk s. unfold bind. specialize (Hm s).
  destruct (m s) as [a s1|e s1| |]; try done.
  specialize (Hk a s1). destruct (k a s1); try done.
  by eapply ends_trans.
Qed.

Lemma only_ends_forM {A} (l : list A) (f : A -> M unit) :
  (forall x, only_ends (f x)) -> only_ends (forM_ l f).
Proof.
  intros H. induction l as [|x l IH]; [apply framed_only_ends, framed_ret|].
  simpl. apply only_ends_bind; [apply H|by intros].
Qed.

Lemma only_ends_when b m : only_ends m -> only_ends (when b m).
Proof. destruct b; [done|intros _; apply framed_only_ends, framed_ret]. Qed.

(** A node that is inactive is left as it is. *)
Lemma ends_inactive s s' n out k :
  ends s s' -> view s n = (Some (inactive, out), k) ->
  view s' n = (Some (inactive, out), k).
Proof.
  intros H V. destruct (H n) as [->|(st & out' & k' & o & E & Hst & _)]; [done|].
  rewrite V in E. injection E as <- _ _. by destruct Hst.
Qed.

Create HintDb termination discriminated.

Section Termination.
Variable call : Call -> M unit.
Hypothesis HR : forall c, term_like c -> only_ends (call c).

#[local] Hint Resolve framed_only_ends framed_ret framed_throw_TypeError
  framed_unmodelled framed_field framed_the_chip framed_gets framed_defined
  framed_update_class framed_update_context framed_EventEmitter_off
  framed_set_attribute framed_ChipBase__unsubscribe framed_onTerminate
  : termination.

Ltac rel :=
  repeat first
    [ progress cbv zeta
    | lazymatch goal with
      | |- only_ends (call _) => apply HR; exact I
      | |- only_ends (bind _ _) => apply only_ends_bind; [|intros]
      | |- only_ends (forM_ _ _) => apply only_ends_forM; intros
      | |- only_ends (when _ _) => apply only_ends_when
      | |- only_ends (update _ _) => apply framed_only_ends, framed_update; keeps_tac
      | |- only_ends (modify _) =>
          apply framed_only_ends, framed_log; first [reflexivity|assumption]
      | |- only_ends (if ?b then _ else _) => destruct b
      | |- only_ends (match ?x with _ => _ end) => destruct x
      | |- only_ends _ => solve [auto with termination]
      end ].

Lemma only_ends_listeners this type :
  only_ends (registered <- field this _listeners ;;
        forM_ (List.filter (fun r => String.eqb (r_event r) type) registered)
          (fun r => when (r_once r) (EventEmitter_off this type (r_cb r)) ;;
                    call (invoke (r_cb r)))).
Proof. rel. Qed.

Lemma only_ends_emit this type args :
  String.eqb type "terminated" = false ->
  only_ends (EventEmitter_emit call this type args).
Proof.
  intros He. unfold EventEmitter_emit. apply only_ends_bind; [rel|].
  intros _. apply only_ends_listeners.
Qed.
#[local] Hint Extern 1 (only_ends (EventEmitter_emit _ _ _ _)) =>
  apply only_ends_emit; reflexivity : termination.

Lemma only_ends_resize this : only_ends (ChipBase_resize call this).
Proof. unfold ChipBase_resize. rel. Qed.
Lemma only_ends_onChildTerminated this index :
  only_ends (Alternative__onChildTerminated call this index).
Proof. unfold Alternative__onChildTerminated. rel. Qed.
#[local] Hint Resolve only_ends_resize only_ends_onChildTerminated : termination.
Lemma only_ends_apply_closure f : only_ends (apply_closure call f).
Proof. destruct f; cbn [apply_closure]; rel. Qed.
Lemma only_ends_terminateAll this o :
  only_ends (Composite__terminateAllChildChips call this o).
Proof. unfold Composite__terminateAllChildChips. rel. Qed.

(** [ChipBase.terminate], when it returns: the node is inactive, its output
    signal is the one given, it has completed one more cycle, and the other
    nodes have at most ended. *)
Lemma ChipBase_terminate_ends this o s s' c :
  chips s !! this = Some c ->
  ChipBase_terminate call this o s = Ok tt s' ->
  _state c <> inactive
  /\ view s' this
     = (Some (inactive, Some (default (new_Signal None None) o)),
        S (completed_cycles s this))
  /\ ends s s'.
Proof.
  intros Hc. unfold ChipBase_terminate.
  unfold bind at 1. rewrite (field_at s this c) by done.
  destruct (_state c) eqn:Hst; cbn [ChipState_eqb negb andb]; [done| |].
  all: unfold bind at 1; rewrite (update_at s this c) by done.
  all: set (sig := default (new_Signal None None) o).
  all: set (s1 := set_chips _ s).
  all: assert (V1 : view s1 this = (Some (_state c, Some sig), completed_cycles s this))
         by (unfold s1; rewrite (view_update_this s this c) by done; by destruct c).
  all: assert (O1 : forall n, n <> this -> view s1 n = view s n)
         by (intros n Hn; by apply view_update_other).
  all: unfold bind at 1; pose proof (framed_onTerminate this s1) as F1.
  all: destruct (_onTerminate this s1) as [[] s2|e s2| |]; try done.
  all: unfold bind at 1.
  all: pose proof (framed_ChipBase__unsubscribe this None None None s2) as F2.
  all: destruct (ChipBase__unsubscribe this None None None s2) as [[] s3|e s3| |];
         try done.
  all: assert (V3 : view s3 this = (Some (_state c, Some sig), completed_cycles s this))
         by (by rewrite F2, F1).
  all: destruct (view_state _ _ _ _ _ V3) as (c3 & Hc3 & Hs3 & Ho3 & Hk3).
  all: unfold bind at 1; rewrite (update_at s3 this c3) by done.
  all: set (s4 := set_chips _ s3).
  all: assert (Hc4 : chips s4 !! this = Some (set_state inactive c3))
         by (unfold s4; by eapply lookup_updated).
  all: unfold bind at 1; rewrite (field_at s4 this _ _ Hc4).
  all: unfold EventEmitter_emit; unfold bind at 1; unfold modify at 1.
  all: set (s5 := set_emitted _ s4).
  all: assert (V5 : view s5 this = (Some (inactive, Some sig), S (completed_cycles s this)))
         by (apply view_log_this; unfold s4;
             rewrite (view_update_this s3 this c3) by done;
             rewrite Hk3; destruct c3; simpl in *; by rewrite Ho3).
  all: assert (O5 : forall n, n <> this -> view s5 n = view s n)
         by (intros n Hn; unfold s5; rewrite view_log_other by done; unfold s4;
             rewrite view_update_other by done; rewrite F2, F1; by apply O1).
  all: pose proof (only_ends_listeners this "terminated" s5) as T.
  all: intros E; rewrite E in T.
  all: split; [done|]; split; [by apply (ends_inactive s5 s')|].
  all: intros n; destruct (decide (n = this)) as [->|Hn].
  all: try (rewrite (ends_inactive s5 s' _ _ _ T V5);
            rewrite (view_chip s this c) by done;
            right; eexists _, _, _, _; split; [done|]; split; [by rewrite Hst|done]).
  all: rewrite <- (O5 n Hn); apply T.
Qed.

Lemma Composite_terminate_ends this o s s' c :
  chips s !! this = Some c ->
  Composite_terminate call this o s = Ok tt s' ->
  _state c <> inactive
  /\ (if _methodCallInProgress c
      then same_view s s'
      else view s' this
           = (Some (inactive, Some (default (new_Signal None None) o)),
              S (completed_cycles s this)))
  /\ ends s s'.
Proof.
  intros Hc. unfold Composite_terminate.
  unfold bind at 1. rewrite (field_at s this c) by done.
  destruct (_state c) eqn:Hst; cbn [ChipState_eqb negb andb]; [done| |].
  all: unfold bind at 1; rewrite (field_at s this c) by done.
  all: destruct (_methodCallInProgress c).
  all: try (intros E;
            pose proof (framed_update this (set_deferredOutputSignal
                          (Some (default (new_Signal None None) o)))
                          ltac:(keeps_tac) s) as F;
            rewrite E in F; split; [done|]; split; [done|];
            by apply same_view_ends).
  all: set (sig := default (new_Signal None None) o).
  all: unfold bind at 1; rewrite (update_at s this c) by done.
  all: set (s1 := set_chips _ s).
  all: assert (V1 : view s1 this = (Some (inactive, _outputSignal c), completed_cycles s this))
         by (unfold s1; rewrite (view_update_this s this c) by done; by destruct c).
  all: assert (O1 : forall n, n <> this -> view s1 n = view s n)
         by (intros n Hn; by apply view_update_other).
  all: unfold bind at 1.
  all: pose proof (framed_ChipBase__unsubscribe this None None None s1) as F2.
  all: destruct (ChipBase__unsubscribe this None None None s1) as [[] s2|e s2| |];
         try done.
  all: unfold bind at 1; pose proof (only_ends_terminateAll this None s2) as T3.
  all: destruct (Composite__terminateAllChildChips call this None s2)
         as [[] s3|e s3| |]; try done.
  all: assert (V3 : view s3 this = (Some (inactive, _outputSignal c), completed_cycles s this))
         by (apply (ends_inactive s2 s3); [done|]; by rewrite F2).
  all: destruct (view_state _ _ _ _ _ V3) as (c3 & Hc3 & Hs3 & Ho3 & Hk3).
  all: unfold bind at 1; rewrite (update_at s3 this c3) by done.
  all: set (s4 := set_chips _ s3).
  all: assert (V4 : view s4 this = (Some (inactive, Some sig), completed_cycles s this))
         by (unfold s4; rewrite (view_update_this s3 this c3) by done;
             rewrite Hk3; destruct c3; simpl in *; by rewrite Hs3).
  all: unfold bind at 1; pose proof (framed_onTerminate this s4) as F5.
  all: destruct (_onTerminate this s4) as [[] s5|e s5| |]; try done.
  all: assert (V5 : view s5 this = (Some (inactive, Some sig), completed_cycles s this))
         by (by rewrite F5).
  all: destruct (view_state _ _ _ _ _ V5) as (c5 & Hc5 & Hs5 & Ho5 & Hk5).
  all: unfold bind at 1; rewrite (field_at s5 this c5) by done.
  all: unfold EventEmitter_emit; unfold bind at 1; unfold modify at 1.
  all: set (s6 := set_emitted _ s5).
  all: assert (V6 : view s6 this = (Some (inactive, Some sig), S (completed_cycles s this)))
         by (by apply view_log_this).
  all: pose proof (only_ends_listeners this "terminated" s6) as T.
  all: intros E; rewrite E in T.
  all: split; [done|]; split; [by apply (ends_inactive s6 s')|].
  all: intros n; destruct (decide (n = this)) as [->|Hn].
  all: try (rewrite (ends_inactive s6 s' _ _ _ T V6);
            rewrite (view_chip s this c) by done;
            right; eexists _, _, _, _; split; [done|]; split; [by rewrite Hst|done]).
  all: apply (ended_trans _ (view s3 n)).
  all: try (rewrite <- (O1 n Hn), <- (F2 n); apply T3).
  all: replace (view s3 n) with (view s6 n); [apply T|].
  all: unfold s6; rewrite view_log_other by done; rewrite F5; unfold s4;
       by rewrite view_update_other.
Qed.

Lemma only_ends_dispatch_term c : term_like c -> only_ends (dispatch call c).
Proof.
  destruct c; try done; intros _; cbn [dispatch].
  - intros s. unfold bind, field.
    destruct (chips s !! this) as [c|] eqn:Hc; [|done].
    destruct (is_Composite (class c)).
    + destruct (Composite_terminate call this outputSignal s) as [[] s'|e s'| |] eqn:E;
        try done.
      by destruct (Composite_terminate_ends this outputSignal s s' c Hc E) as (_ & _ & ?).
    + destruct (ChipBase_terminate call this outputSignal s) as [[] s'|e s'| |] eqn:E;
        try done.
      by destruct (ChipBase_terminate_ends this outputSignal s s' c Hc E) as (_ & _ & ?).
  - apply only_ends_apply_closure.
Qed.

End Termination.

Lemma call_ends fuel : forall c, term_like c -> only_ends (call fuel c).
Proof.
  induction fuel as [|fuel IH]; intros c Hc; [by intros s|].
  cbn [call]. by apply only_ends_dispatch_term.
Qed.

(** A [terminate()] that returns and is not deferred leaves the node
    inactive, with the signal it was given as its output signal and one more
    completed cycle. *)
Lemma terminate_returns fuel this o s s' c :
  chips s !! this = Some c ->
  (is_Composite (class c) = true -> _methodCallInProgress c = false) ->
  call fuel (terminate this o) s = Ok tt s' ->
  exists c', chips s' !! this = Some c'
             /\ _state c' = inactive
             /\ _outputSignal c' = Some (default (new_Signal None None) o)
             /\ completed_cycles s' this = S (completed_cycles s this).
Proof.
  intros Hc Hp. destruct fuel as [|fuel]; [done|].
  cbn [call dispatch]. unfold bind at 1. rewrite (field_at s this c) by done.
  destruct (is_Composite (class c)) eqn:Hk; intros E.
  - destruct (Composite_terminate_ends (call fuel) (call_ends fuel)
                this o s s' c Hc E) as (_ & V & _).
    rewrite Hp in V by done.
    destruct (view_state _ _ _ _ _ V) as (c' & ? & ? & ? & ?). by exists c'.
  - destruct (ChipBase_terminate_ends (call fuel) (call_ends fuel)
                this o s s' c Hc E) as (_ & V & _).
    destruct (view_state _ _ _ _ _ V) as (c' & ? & ? & ? & ?). by exists c'.
Qed.

(** *** Runs of host calls *)

Lemma settled_invariant s : settled s <-> invariant nobody s.
Proof.
  unfold settled, invariant, invariant_at, view, lifecycle, nobody.
  split; intros H n; specialize (H n); destruct (chips s !! n) as [c|]; simpl in *;
    try done.
  apply H. by intros [].
Qed.

(** Every call of the host keeps the lifecycles. *)
Lemma host_keeps_lifecycle fuel h : keeps_lifecycles (host fuel h).
Proof.
  pose proof (call_term fuel) as HA. pose proof (call_all fuel) as HB.
  destruct h; cbn [host].
  - apply HB.
  - apply keeps_within_keeps_lifecycles, keeps_within_resize, HA.
  - apply keeps_lifecycles_bind; [apply framed_keeps_lifecycles, framed_field|].
    intros k. destruct k; try apply keeps_lifecycles_throw. by apply keeps_lifecycles_Block_done.
  - apply keeps_lifecycles_bind; [apply framed_keeps_lifecycles, framed_field|].
    intros k. destruct k; try apply keeps_lifecycles_throw.
    + by apply keeps_lifecycles_Parallel_addChildChip.
    + by apply keeps_lifecycles_Sequence_addChildChip.
  - apply keeps_lifecycles_bind; [apply framed_keeps_lifecycles, framed_field|].
    intros k. destruct k; try apply keeps_lifecycles_throw. by apply keeps_lifecycles_Sequence_skip.
  - apply keeps_lifecycles_bind; [apply framed_keeps_lifecycles, framed_field|].
    intros k. destruct k; try apply keeps_lifecycles_throw. by apply keeps_lifecycles_Sequence_restart.
  - apply keeps_lifecycles_bind; [apply framed_keeps_lifecycles, framed_field|].
    intros k. destruct k; try apply keeps_lifecycles_throw.
    by apply keeps_lifecycles_StateMachine_changeState.
  - apply keeps_lifecycles_bind; [apply framed_keeps_lifecycles, framed_field|].
    intros k. destruct k; try apply keeps_lifecycles_throw.
    apply framed_keeps_lifecycles, framed_Queue_add.
  - apply keeps_lifecycles_bind; [apply framed_keeps_lifecycles, framed_field|].
    intros k. destruct k; try apply keeps_lifecycles_throw. by apply keeps_lifecycles_Queue_next.
Qed.

(** A [terminate()] on an inactive node is refused and changes nothing. *)
Lemma refused_terminate fuel h s e s' :
  refused s h = true -> host fuel h s = Throw e s' -> s' = s.
Proof.
  destruct h as [[]| | | | | | | |]; try done. cbn [refused host].
  destruct (chips s !! this) as [c|] eqn:Hc; [|done]. intros Hs.
  destruct fuel as [|fuel]; [done|]. cbn [call dispatch].
  unfold bind at 1. rewrite (field_at s this c) by done.
  destruct (_state c) eqn:Hst; try done.
  destruct (is_Composite (class c)).
  - unfold Composite_terminate. unfold bind at 1.
    rewrite (field_at s this c) by done. rewrite Hst. by intros [= _ <-].
  - unfold ChipBase_terminate. unfold bind at 1.
    rewrite (field_at s this c) by done. rewrite Hst. by intros [= _ <-].
Qed.

(** So does a run of calls, as far as it is followed. *)
Lemma drive_keeps_lifecycle fuel calls : forall s s',
  settled s -> drive fuel calls s = Some s' -> settled s'.
Proof.
  induction calls as [|h calls IH]; intros s s' Hs; cbn [drive].
  - by intros [= <-].
  - pose proof (host_keeps_lifecycle fuel h s (proj1 (settled_invariant s) Hs)) as H.
    destruct (host fuel h s) as [[] s1|e s1| |] eqn:E; try done.
    + apply IH. by apply settled_invariant.
    + destruct (interrupted e) eqn:Hi; cbn [andb].
      * destruct (refused s h) eqn:Hr; [|done]. cbn [negb].
        rewrite (refused_terminate fuel h s e s1 Hr E). by apply IH.
      * destruct H as [?|H]; [done|]. apply IH. by apply settled_invariant.
Qed.

(** A store whose nodes have no output signal and where nothing has been
    emitted is settled: so is every store of new nodes. *)
Lemma settled_fresh (s : St) :
  emitted s = [] ->
  Forall (fun c => _outputSignal c = None) (chips s) ->
  settled s.
Proof.
  intros He Hc n. unfold completed_cycles, count_emitted. rewrite He. simpl.
  destruct (chips s !! n) as [c|] eqn:E; [|done].
  unfold lifecycle. rewrite (proj1 (Forall_lookup _ _) Hc n c E).
  split; [by intros ?%is_Some_None|intros [? _]; lia].
Qed.

(** [ChipBase.activate] on an inactive node first stores its arguments, makes
    the node active and deletes its output signal; the activation hook and
    what follows run from there. *)
Lemma activate_resets_output (call : Call -> M unit) (s : St) (this : loc)
    (c : Chip) tickInfo chipContext inputSignal reloadMemento :
  chips s !! this = Some c ->
  _state c = inactive ->
  let c' :=
    set_reloadMemento
      match reloadMemento with
      | Some m => if String.eqb (memento_className m) (constructor_name (class c))
                  then Some m else None
      | None => None
      end
      (set_outputSignal None
         (set_state active
            (set_inputSignal inputSignal
               (set_lastTickInfo (Some tickInfo)
                  (set_chipContext (Some chipContext) c))))) in
  ChipBase_activate call this tickInfo chipContext inputSignal reloadMemento s
  = (_onActivate call this ;;
     ChipBase__subscribe this EWindow "resize" (OnResize this) None ;;
     ChipBase_resize call this ;;
     EventEmitter_emit call this "activated" [ArgSignal inputSignal])
      (set_chips (<[this := c']> (chips s)) s)
  /\ _outputSignal c' = None /\ _state c' = active.
Proof.
  intros Hc Hs c'. split; [|by destruct c].
  unfold ChipBase_activate.
  unfold bind at 1. rewrite (field_at s this c) by done. rewrite Hs.
  cbn [ChipState_eqb negb].
  unfold bind at 1. rewrite (update_at s this c) by done.
  unfold bind at 1. erewrite field_at by (by eapply lookup_updated).
  unfold bind at 1. erewrite update_at by (by eapply lookup_updated).
  rewrite chips_set_chips, set_chips_twice, list_insert_insert_eq.
  subst c'. by destruct c.
Qed.



